(** * Metainference restraint: energies, Monte Carlo sampler, bookkeeping

    A shallow embedding of [src/bias/Metainference.cpp] (class
    [PLMD::bias::Metainference]) and the properties of it that the
    specification states.

    Numbers.  A C++ [double] is read as a real number ([R]): [+], [-], [*],
    [/], [exp], [std::log], [sqrt] and [floor] are the real operations, so
    rounding, infinities and NaN are outside the model, with one exception:
    the two divisions of the acceptance ratio, whose divisors can be zero,
    are carried out on a [quotient] that has the infinities and NaN.  A
    division by [kbt_] has a real reading only for a nonzero [kbt_].  An
    [unsigned] is an
    integer in [[0, 2^32)] kept in [Z], with the wrap-around written where
    the source does arithmetic on it; [long int] is [Z] (LP64, no overflow
    within a run).

    Process environment.  The source reads three pieces of ambient state:
    the C library generator ([rand]), the intra-replica communicator [comm]
    and the inter-replica communicator [multi_sim_comm].  They are gathered
    in a [World] that is threaded through the effectful member functions. *)

From Stdlib Require Import Reals Lra Lia ZArith String List Bool.
Import ListNotations.
Open Scope R_scope.

(** ** Machine integers *)

Definition two32 : Z := 4294967296.

(** Value of an integer expression once stored in an [unsigned]. *)
Definition u32 (z : Z) : Z := (z mod two32)%Z.

(** [floor] of <cmath>. *)
Definition floor (x : R) : R := IZR (Int_part x).

(** ** The process environment *)

(** One communicator as one process sees it.  [incoming n] is what the other
    participants bring to the [n]-th buffer element this process passes to a
    collective: for [Sum] the total of their entries, for [Bcast] the entry
    of the root. *)
Record Communicator : Type := mkComm {
  Get_rank : nat;
  Get_size : nat;
  incoming : nat -> R;
  reduced : nat
}.

Definition tick (c : Communicator) : Communicator :=
  mkComm (Get_rank c) (Get_size c) (incoming c) (S (reduced c)).

(** [Communicator::Sum] on one [double]: an all-reduce, every participant
    ends with the total.  With one participant there is nothing to add. *)
Definition Sum (c : Communicator) (x : R) : R * Communicator :=
  (if (Get_size c =? 1)%nat then x else x + incoming c (reduced c), tick c).

(** [Communicator::Bcast(x, 0)]: the root (rank 0) keeps its value, every
    other participant receives the root's. *)
Definition Bcast (c : Communicator) (x : R) : R * Communicator :=
  (if (Get_rank c =? 0)%nat then x else incoming c (reduced c), tick c).

Record World : Type := mkWorld {
  RAND_MAX : Z;
  rand_seq : nat -> Z;      (* what successive calls of rand() return *)
  rand_calls : nat;
  comm : Communicator;
  multi_sim_comm : Communicator
}.

(** State-passing computations over the environment. *)
Definition M (A : Type) : Type := World -> A * World.

Definition ret {A : Type} (a : A) : M A := fun w => (a, w).

Definition bind {A B : Type} (c : M A) (k : A -> M B) : M B :=
  fun w => let (a, w') := c w in k a w'.

Notation "x <- c ;; k" := (bind c (fun x => k))
  (at level 61, c at next level, right associativity).

(** [static_cast<double>(rand()) / RAND_MAX] *)
Definition rand_unit : M R := fun w =>
  (IZR (rand_seq w (rand_calls w)) / IZR (RAND_MAX w),
   mkWorld (RAND_MAX w) (rand_seq w) (S (rand_calls w)) (comm w)
     (multi_sim_comm w)).

Definition comm_Get_rank : M nat := fun w => (Get_rank (comm w), w).

Definition comm_Sum (x : R) : M R := fun w =>
  let (y, c) := Sum (comm w) x in
  (y, mkWorld (RAND_MAX w) (rand_seq w) (rand_calls w) c (multi_sim_comm w)).

Definition comm_Bcast (x : R) : M R := fun w =>
  let (y, c) := Bcast (comm w) x in
  (y, mkWorld (RAND_MAX w) (rand_seq w) (rand_calls w) c (multi_sim_comm w)).

Definition multi_sim_comm_Sum (x : R) : M R := fun w =>
  let (y, c) := Sum (multi_sim_comm w) x in
  (y, mkWorld (RAND_MAX w) (rand_seq w) (rand_calls w) (comm w) c).

Definition multi_sim_comm_Bcast (x : R) : M R := fun w =>
  let (y, c) := Bcast (multi_sim_comm w) x in
  (y, mkWorld (RAND_MAX w) (rand_seq w) (rand_calls w) (comm w) c).

(** Run [f] on every entry of a vector, in order: the loop over [sigma_],
    and the collectives on a buffer of several doubles. *)
Fixpoint mapM {A B : Type} (f : A -> M B) (l : list A) : M (list B) :=
  match l with
  | [] => ret []
  | x :: t => y <- f x ;; ys <- mapM f t ;; ret (y :: ys)
  end.

(** ** The object *)

Inductive noise : Type := GAUSS | MGAUSS | LTAIL.

Definition noise_eqb (a b : noise) : bool :=
  match a, b with
  | GAUSS, GAUSS | MGAUSS, MGAUSS | LTAIL, LTAIL => true
  | _, _ => false
  end.

(** The data members of the class in the order of their declaration (an
    output component [Value*] is shown as the value it holds), followed by
    the forces written with [setOutputForce]. *)
Record Metainference : Type := mkMetainference {
  parameters : list R;
  noise_type_ : noise;
  doscale_ : bool;
  scale_ : R;
  scale_min_ : R;
  scale_max_ : R;
  Dscale_ : R;
  sigma_ : list R;
  sigma_min_ : R;
  sigma_max_ : R;
  Dsigma_ : R;
  sigma_mean_ : R;
  kbt_ : R;
  ndata_ : Z;
  old_energy : R;
  MCsteps_ : Z;
  MCstride_ : Z;
  MCaccept_ : Z;
  MCfirst_ : Z;
  valueBias : R;
  valueScale : R;
  valueAccept : R;
  valueSigma : list R;
  nrep_ : Z;
  replica_ : Z;
  outputForces : list R
}.

Definition set_scale_ (m : Metainference) (v : R) : Metainference :=
  mkMetainference (parameters m) (noise_type_ m) (doscale_ m) v (scale_min_ m)
    (scale_max_ m) (Dscale_ m) (sigma_ m) (sigma_min_ m) (sigma_max_ m)
    (Dsigma_ m) (sigma_mean_ m) (kbt_ m) (ndata_ m) (old_energy m)
    (MCsteps_ m) (MCstride_ m) (MCaccept_ m) (MCfirst_ m) (valueBias m)
    (valueScale m) (valueAccept m) (valueSigma m) (nrep_ m) (replica_ m)
    (outputForces m).

Definition set_sigma_ (m : Metainference) (v : list R) : Metainference :=
  mkMetainference (parameters m) (noise_type_ m) (doscale_ m) (scale_ m)
    (scale_min_ m) (scale_max_ m) (Dscale_ m) v (sigma_min_ m) (sigma_max_ m)
    (Dsigma_ m) (sigma_mean_ m) (kbt_ m) (ndata_ m) (old_energy m)
    (MCsteps_ m) (MCstride_ m) (MCaccept_ m) (MCfirst_ m) (valueBias m)
    (valueScale m) (valueAccept m) (valueSigma m) (nrep_ m) (replica_ m)
    (outputForces m).

Definition set_old_energy (m : Metainference) (v : R) : Metainference :=
  mkMetainference (parameters m) (noise_type_ m) (doscale_ m) (scale_ m)
    (scale_min_ m) (scale_max_ m) (Dscale_ m) (sigma_ m) (sigma_min_ m)
    (sigma_max_ m) (Dsigma_ m) (sigma_mean_ m) (kbt_ m) (ndata_ m) v
    (MCsteps_ m) (MCstride_ m) (MCaccept_ m) (MCfirst_ m) (valueBias m)
    (valueScale m) (valueAccept m) (valueSigma m) (nrep_ m) (replica_ m)
    (outputForces m).

Definition set_MCaccept_ (m : Metainference) (v : Z) : Metainference :=
  mkMetainference (parameters m) (noise_type_ m) (doscale_ m) (scale_ m)
    (scale_min_ m) (scale_max_ m) (Dscale_ m) (sigma_ m) (sigma_min_ m)
    (sigma_max_ m) (Dsigma_ m) (sigma_mean_ m) (kbt_ m) (ndata_ m)
    (old_energy m) (MCsteps_ m) (MCstride_ m) v (MCfirst_ m) (valueBias m)
    (valueScale m) (valueAccept m) (valueSigma m) (nrep_ m) (replica_ m)
    (outputForces m).

Definition set_MCfirst_ (m : Metainference) (v : Z) : Metainference :=
  mkMetainference (parameters m) (noise_type_ m) (doscale_ m) (scale_ m)
    (scale_min_ m) (scale_max_ m) (Dscale_ m) (sigma_ m) (sigma_min_ m)
    (sigma_max_ m) (Dsigma_ m) (sigma_mean_ m) (kbt_ m) (ndata_ m)
    (old_energy m) (MCsteps_ m) (MCstride_ m) (MCaccept_ m) v (valueBias m)
    (valueScale m) (valueAccept m) (valueSigma m) (nrep_ m) (replica_ m)
    (outputForces m).

Definition set_valueBias (m : Metainference) (v : R) : Metainference :=
  mkMetainference (parameters m) (noise_type_ m) (doscale_ m) (scale_ m)
    (scale_min_ m) (scale_max_ m) (Dscale_ m) (sigma_ m) (sigma_min_ m)
    (sigma_max_ m) (Dsigma_ m) (sigma_mean_ m) (kbt_ m) (ndata_ m)
    (old_energy m) (MCsteps_ m) (MCstride_ m) (MCaccept_ m) (MCfirst_ m) v
    (valueScale m) (valueAccept m) (valueSigma m) (nrep_ m) (replica_ m)
    (outputForces m).

Definition set_valueScale (m : Metainference) (v : R) : Metainference :=
  mkMetainference (parameters m) (noise_type_ m) (doscale_ m) (scale_ m)
    (scale_min_ m) (scale_max_ m) (Dscale_ m) (sigma_ m) (sigma_min_ m)
    (sigma_max_ m) (Dsigma_ m) (sigma_mean_ m) (kbt_ m) (ndata_ m)
    (old_energy m) (MCsteps_ m) (MCstride_ m) (MCaccept_ m) (MCfirst_ m)
    (valueBias m) v (valueAccept m) (valueSigma m) (nrep_ m) (replica_ m)
    (outputForces m).

Definition set_valueAccept (m : Metainference) (v : R) : Metainference :=
  mkMetainference (parameters m) (noise_type_ m) (doscale_ m) (scale_ m)
    (scale_min_ m) (scale_max_ m) (Dscale_ m) (sigma_ m) (sigma_min_ m)
    (sigma_max_ m) (Dsigma_ m) (sigma_mean_ m) (kbt_ m) (ndata_ m)
    (old_energy m) (MCsteps_ m) (MCstride_ m) (MCaccept_ m) (MCfirst_ m)
    (valueBias m) (valueScale m) v (valueSigma m) (nrep_ m) (replica_ m)
    (outputForces m).

Definition set_valueSigma (m : Metainference) (v : list R) : Metainference :=
  mkMetainference (parameters m) (noise_type_ m) (doscale_ m) (scale_ m)
    (scale_min_ m) (scale_max_ m) (Dscale_ m) (sigma_ m) (sigma_min_ m)
    (sigma_max_ m) (Dsigma_ m) (sigma_mean_ m) (kbt_ m) (ndata_ m)
    (old_energy m) (MCsteps_ m) (MCstride_ m) (MCaccept_ m) (MCfirst_ m)
    (valueBias m) (valueScale m) (valueAccept m) v (nrep_ m) (replica_ m)
    (outputForces m).

Definition set_outputForces (m : Metainference) (v : list R) : Metainference :=
  mkMetainference (parameters m) (noise_type_ m) (doscale_ m) (scale_ m)
    (scale_min_ m) (scale_max_ m) (Dscale_ m) (sigma_ m) (sigma_min_ m)
    (sigma_max_ m) (Dsigma_ m) (sigma_mean_ m) (kbt_ m) (ndata_ m)
    (old_energy m) (MCsteps_ m) (MCstride_ m) (MCaccept_ m) (MCfirst_ m)
    (valueBias m) (valueScale m) (valueAccept m) (valueSigma m) (nrep_ m)
    (replica_ m) v.

(** Arguments are handed over by the host at every step. *)
Definition getArgument (args : list R) (i : nat) : R := nth i args 0.

(** [v[i] = x] on a vector.  Writing past the end is undefined in the
    source; the list is left as it is. *)
Fixpoint upd (l : list R) (i : nat) (x : R) : list R :=
  match l, i with
  | [], _ => []
  | _ :: t, O => x :: t
  | y :: t, S j => y :: upd t j x
  end.

(** ** NoiseModel: the sampler's energy functions *)

Definition sqrt2pi : R := 2.506628274631001.
Definition sqrt2_div_pi : R := 0.45015815807855.

(** Reading [sigma[i]], [parameters[i]] past the end is undefined in the
    source; [nth] answers 0 there.  The constructor sizes both vectors so
    that no loop below does it (see [sized]). *)

Definition getEnergySPE (m : Metainference) (args : list R)
    (sigma scale : R) : R :=
  (* calculate effective sigma *)
  let smean2 := sigma_mean_ m * sigma_mean_ m in
  let s := sqrt (sigma * sigma + smean2) in
  (* cycle on arguments *)
  let ene := fold_left (fun ene i =>
      let dev := scale * getArgument args i - nth i (parameters m) 0 in
      let a2 := 0.5 * dev * dev + s * s in
      ene + ln (2 * a2 / (1 - exp (- a2 / smean2))))
    (seq 0 (length args)) 0 in
  (* add normalization and Jeffrey's prior *)
  let ene := ene + (ln s - IZR (ndata_ m) * ln (sqrt2_div_pi * s)) in
  kbt_ m * ene.

Definition getEnergyGJE (m : Metainference) (args : list R)
    (sigma : list R) (scale : R) : R :=
  let smean2 := sigma_mean_ m * sigma_mean_ m in
  let ss0 := nth 0 sigma 0 * nth 0 sigma 0 + smean2 in
  let ene := fold_left (fun ene i =>
      (* [ss] keeps its initial value unless MGAUSS overwrites it here *)
      let ss := if noise_eqb (noise_type_ m) MGAUSS
                then nth i sigma 0 * nth i sigma 0 + smean2 else ss0 in
      let dev := scale * getArgument args i - nth i (parameters m) 0 in
      ene + (0.5 * dev * dev / ss + ln (ss * sqrt2pi)))
    (seq 0 (length args)) 0 in
  kbt_ m * ene.

(** The [switch(noise_type_)] that picks the energy function, as written
    twice in [doMonteCarlo]. *)
Definition getEnergy (m : Metainference) (args : list R)
    (sigma : list R) (scale : R) : R :=
  match noise_type_ m with
  | GAUSS | MGAUSS => getEnergyGJE m args sigma scale
  | LTAIL => getEnergySPE m args (nth 0 sigma 0) scale
  end.

(** ** MonteCarloSampler *)

(** The two [// check boundaries] lines. *)
Definition reflect (lo hi v : R) : R :=
  let v := if Rgt_dec v hi then 2 * hi - v else v in
  if Rlt_dec v lo then 2 * lo - v else v.

(** A random-walk proposal from [cur] with half-width [D], given the draw
    [r] in the unit interval, before the boundaries are checked. *)
Definition walk (cur D r : R) : R :=
  let ds := - D + r * 2 * D in
  cur + ds.

(** [// propose move for scale] *)
Definition propose_scale (m : Metainference) : M R :=
  if doscale_ m then
    r1 <- rand_unit ;;
    let new_scale :=
      reflect (scale_min_ m) (scale_max_ m) (walk (scale_ m) (Dscale_ m) r1) in
    (* the scaling factor should be the same for all the replicas *)
    rk <- comm_Get_rank ;;
    new_scale <- (if (rk =? 0)%nat then multi_sim_comm_Bcast new_scale
                  else ret new_scale) ;;
    comm_Bcast new_scale
  else ret (scale_ m).

(** [// propose move for sigma] *)
Definition propose_sigma (m : Metainference) : M (list R) :=
  mapM (fun sigma_j =>
      r2 <- rand_unit ;;
      ret (reflect (sigma_min_ m) (sigma_max_ m)
             (walk sigma_j (Dsigma_ m) r2)))
    (sigma_ m).

Definition accept_move (m : Metainference) (new_energy new_scale : R)
    (new_sigma : list R) : Metainference :=
  let m := set_old_energy m new_energy in
  let m := set_scale_ m new_scale in
  let m := set_sigma_ m new_sigma in
  set_MCaccept_ m (u32 (MCaccept_ m + 1)).

(** [// accept or reject].  The quotient [delta] has a real reading for a
    nonzero [kbt_] only. *)
Definition metropolis (m : Metainference) (new_energy new_scale : R)
    (new_sigma : list R) : M Metainference :=
  let delta := (new_energy - old_energy m) / kbt_ m in
  (* if delta is negative always accept move *)
  if Rle_dec delta 0 then ret (accept_move m new_energy new_scale new_sigma)
  (* otherwise extract random number *)
  else
    s <- rand_unit ;;
    if Rlt_dec s (exp (- delta))
    then ret (accept_move m new_energy new_scale new_sigma)
    else ret m.

(** The re-broadcast of [scale_] that closes every inner step. *)
Definition share_scale (m : Metainference) : M Metainference :=
  if doscale_ m then
    rk <- comm_Get_rank ;;
    sc <- (if (rk =? 0)%nat then multi_sim_comm_Bcast (scale_ m)
           else ret (scale_ m)) ;;
    sc <- comm_Bcast sc ;;
    ret (set_scale_ m sc)
  else ret m.

(** Body of the [for] over MC steps. *)
Definition mc_step (m : Metainference) (args : list R) : M Metainference :=
  new_scale <- propose_scale m ;;
  new_sigma <- propose_sigma m ;;
  (* calculate new energy *)
  let new_energy := getEnergy m args new_sigma new_scale in
  m <- metropolis m new_energy new_scale new_sigma ;;
  share_scale m.

Fixpoint mc_loop (n : nat) (m : Metainference) (args : list R)
    : M Metainference :=
  match n with
  | O => ret m
  | S k => m' <- mc_step m args ;; mc_loop k m' args
  end.

(** [// calculate old energy (first time only)] *)
Definition seed_old_energy (m : Metainference) (args : list R)
    : Metainference :=
  if (MCfirst_ m =? -1)%Z
  then set_old_energy m (getEnergy m args (sigma_ m) (scale_ m))
  else m.

(** [/* save the result of the sampling */] *)
Definition save_sampling (m : Metainference) : Metainference :=
  let m := if doscale_ m then set_valueScale m (scale_ m) else m in
  set_valueSigma m
    (fold_left (fun vs i => upd vs i (nth i (sigma_ m) 0))
       (seq 0 (length (sigma_ m))) (valueSigma m)).

Definition doMonteCarlo (m : Metainference) (args : list R)
    : M Metainference :=
  let m := seed_old_energy m args in
  m <- mc_loop (Z.to_nat (MCsteps_ m)) m args ;;
  ret (save_sampling m).

(** ** BiasForceEngine *)

(** [for(i<narg) setOutputForce(i, force i)]: the host's force vector has one
    slot per argument and the loop writes every slot. *)
Definition setOutputForces (m : Metainference) (narg : nat)
    (force : nat -> R) : Metainference :=
  set_outputForces m (map force (seq 0 narg)).

Definition getEnergyForceSPE (m : Metainference) (args : list R)
    : M (R * Metainference) :=
  let narg := length args in
  let smean2 := sigma_mean_ m * sigma_mean_ m in
  let s := sqrt (nth 0 (sigma_ m) 0 * nth 0 (sigma_ m) 0 + smean2) in
  rk <- comm_Get_rank ;;
  ef <- (if (rk =? 0)%nat then
           let dev i := scale_ m * getArgument args i
                        - nth i (parameters m) 0 in
           let a2 i := 0.5 * dev i * dev i + s * s in
           let t i := exp (- a2 i / smean2) in
           let dt i := 1 / t i in
           let it i := 1 / (1 - t i) in
           let dit i := 1 / (1 - dt i) in
           let ene := fold_left (fun ene i => ene + ln (2 * a2 i * it i))
                        (seq 0 narg) 0 in
           let f := map (fun i =>
                        - scale_ m * dev i * (dit i / smean2 + 1 / a2 i))
                      (seq 0 narg) in
           (* collect contribution to forces and energy from other replicas *)
           f <- mapM multi_sim_comm_Sum f ;;
           ene <- multi_sim_comm_Sum ene ;;
           (* add normalizations and priors of local replica *)
           ret (ene + (ln s - IZR (ndata_ m) * ln (sqrt2_div_pi * s)), f)
         else ret (0, repeat 0 narg)) ;;
  (* intra-replica summation *)
  f <- mapM comm_Sum (snd ef) ;;
  ene <- comm_Sum (fst ef) ;;
  ret (ene, setOutputForces m narg (fun i => kbt_ m * nth i f 0)).

Definition getEnergyForceGJE (m : Metainference) (args : list R)
    : M (R * Metainference) :=
  let smean2 := sigma_mean_ m * sigma_mean_ m in
  let ss := map (fun sigma_i => sigma_i * sigma_i + smean2) (sigma_ m) in
  rk <- comm_Get_rank ;;
  let inv_s2 := map (fun ss_i => if (rk =? 0)%nat then 1 / ss_i else 0) ss in
  inv_s2 <- (if (rk =? 0)%nat then mapM multi_sim_comm_Sum inv_s2
             else ret inv_s2) ;;
  inv_s2 <- mapM comm_Sum inv_s2 ;;
  let narg := length args in
  let dev i := scale_ m * getArgument args i - nth i (parameters m) 0 in
  let sel_sigma i := if noise_eqb (noise_type_ m) MGAUSS then i else O in
  let ene := fold_left (fun ene i =>
      ene + (0.5 * dev i * dev i * nth (sel_sigma i) inv_s2 0
             + ln (nth (sel_sigma i) ss 0 * sqrt2pi)))
    (seq 0 narg) 0 in
  ret (ene, setOutputForces m narg (fun i =>
              - kbt_ m * dev i * scale_ m * nth (sel_sigma i) inv_s2 0)).

(** ** MetainferenceAction: one step *)

(** The result of a division of doubles whose divisor may be zero: a real
    number, an infinity with its sign, or NaN. *)
Inductive quotient : Type :=
  | Finite (x : R)
  | Infinity (negative : bool)
  | NaN.

(** [a / b] for a finite divisor [b] whose zero is [+0.0].  Both divisors of
    the acceptance ratio are of that kind: an [unsigned] converted to
    [double], and [floor(...) + 1.0], which is zero as [-1.0 + 1.0]. *)
Definition divide (a : quotient) (b : R) : quotient :=
  match a with
  | Finite x =>
      if Req_dec_T b 0
      then if Req_dec_T x 0 then NaN
           else Infinity (if Rlt_dec x 0 then true else false)
      else Finite (x / b)
  | Infinity negative =>
      Infinity (if Rlt_dec b 0 then negb negative else negative)
  | NaN => NaN
  end.

(** What a component holding the double reads as on the reals; an infinity
    or a NaN has no real value and reads as 0. *)
Definition finite_part (q : quotient) : R :=
  match q with
  | Finite x => x
  | Infinity _ | NaN => 0
  end.

(** [MCtrials] and [accept] as computed by [calculate], from the state after
    the sampler ran and the first step was recorded.  The stride is nonzero
    whenever [calculate] gets this far. *)
Definition MCtrials (m : Metainference) (step : Z) : R :=
  floor (IZR (step - MCfirst_ m) / IZR (MCstride_ m)) + 1.

(** The double [accept]: two divisions, neither divisor tested. *)
Definition accept_quotient (m : Metainference) (step : Z) : quotient :=
  divide (divide (Finite (IZR (MCaccept_ m))) (IZR (MCsteps_ m)))
    (MCtrials m step).

Definition accept (m : Metainference) (step : Z) : R :=
  finite_part (accept_quotient m step).

(** [// this is needed when restarting simulations] *)
Definition record_first (m : Metainference) (step : Z) : Metainference :=
  if (MCfirst_ m =? -1)%Z then set_MCfirst_ m step else m.

(** [step] is [getStep()], [exchange] is [getExchangeStep()].  The integer
    remainder [step%MCstride_] is undefined for a zero stride: no result. *)
Definition calculate (m : Metainference) (args : list R) (step : Z)
    (exchange : bool) (w : World) : option (Metainference * World) :=
  if (MCstride_ m =? 0)%Z then None else
  (* MONTE CARLO *)
  let (m, w) :=
    if (Z.rem step (MCstride_ m) =? 0)%Z && negb exchange
    then doMonteCarlo m args w else (m, w) in
  let m := record_first m step in
  let m := set_valueAccept m (accept m step) in
  (* calculate bias and forces *)
  let (em, w) :=
    match noise_type_ m with
    | GAUSS | MGAUSS => getEnergyForceGJE m args w
    | LTAIL => getEnergyForceSPE m args w
    end in
  (* set value of the bias *)
  Some (set_valueBias (snd em) (kbt_ m * fst em), w).

(** ** Construction *)

(** What the keyword parser hands to the constructor.  An optional keyword
    that is absent leaves the member at its initial value. *)
Record Options : Type := mkOptions {
  PARAMETERS : list R;
  PARARG : list (R * bool);   (* value and [hasDerivatives()] of each *)
  NOISETYPE : string;
  SCALEDATA : bool;
  SCALE0 : R;
  SCALE_MIN : R;
  SCALE_MAX : R;
  DSCALE : R;
  SIGMA0 : list R;
  SIGMA_MIN : R;
  SIGMA_MAX : R;
  DSIGMA : R;
  MC_STEPS : option Z;
  MC_STRIDE : option Z;
  TEMP : option R;
  SIGMA_MEAN : R
}.

Record Host : Type := mkHost {
  getNumberOfArguments : nat;
  getStride : Z;
  getKBoltzmann : R;
  getKbT : R
}.

(** The intra-replica group the constructing process belongs to.
    [replicas] and [replica_index] are [multi_sim_comm.Get_size()] and
    [multi_sim_comm.Get_rank()] on rank 0 of the group, [time_NULL] is
    [time(NULL)] there. *)
Record Topology : Type := mkTopology {
  comm_rank : nat;
  comm_size : nat;
  replicas : Z;
  replica_index : Z;
  time_NULL : Z
}.

(** [comm.Sum] on an [unsigned] during construction.  Every rank of the
    group runs the same constructor, so the entry of rank [k] is known:
    [entry k].  All ranks end with the total. *)
Definition comm_Sum_unsigned (t : Topology) (entry : nat -> Z) : Z :=
  u32 (fold_right Z.add 0%Z (map entry (seq 0 (comm_size t)))).

Inductive result (A : Type) : Type :=
  | Ok (a : A)
  | error (msg : string).
Arguments Ok {A} a.
Arguments error {A} msg.

Definition bindR {A B : Type} (c : result A) (k : A -> result B) : result B :=
  match c with
  | Ok a => k a
  | error msg => error msg
  end.

Notation "x <~ c ;; k" := (bindR c (fun x => k))
  (at level 61, c at next level, right associativity).

(** [if(cond) error(msg);] *)
Definition error_if (cond : bool) (msg : string) : result unit :=
  if cond then error msg else Ok tt.

Definition is_empty {A : Type} (l : list A) : bool :=
  match l with [] => true | _ => false end.

(** The loop that copies PARARG into [parameters]. *)
Fixpoint read_PARARG (parameters : list R) (arg2 : list (R * bool))
    : result (list R) :=
  match arg2 with
  | [] => Ok parameters
  | (v, hasDerivatives) :: rest =>
      _ <~ error_if hasDerivatives
             "PARARG can only accept arguments without derivatives" ;;
      read_PARARG (parameters ++ [v]) rest
  end.

Definition parse_NOISETYPE (stringa_noise : string) : result noise :=
  if String.eqb stringa_noise "GAUSS" then Ok GAUSS
  else if String.eqb stringa_noise "MGAUSS" then Ok MGAUSS
  else if String.eqb stringa_noise "LTAIL" then Ok LTAIL
  else error "Unkwnow noise type".

(** The block that sizes [sigma_] from SIGMA0. *)
Definition init_sigma (noise_type : noise) (narg : nat)
    (readsigma : list R) : result (list R) :=
  if (length readsigma =? narg)%nat then Ok readsigma
  else if (length readsigma =? 1)%nat then
    if noise_eqb noise_type MGAUSS
    then Ok (repeat (nth 0 readsigma 0) narg)
    else Ok (repeat (nth 0 readsigma 0) 1)
  else error "SIGMA0 can accept either one single value or as many values as the number of arguments (with MULTISIGMA)".

(** The constructor, run by rank [comm_rank t].  It gives the object and the
    seed it passes to [srand].  Members the source leaves uninitialised
    (the scale bounds when SCALEDATA is off) are shown as 0. *)
Definition Metainference_new (o : Options) (h : Host) (t : Topology)
    : result (Metainference * Z) :=
  let narg := getNumberOfArguments h in
  let parameters := PARAMETERS o in
  _ <~ error_if (negb (length parameters =? narg)%nat
                 && negb (is_empty parameters))
         "Size of PARAMETERS array should be either 0 or the same as of the number of arguments in ARG1" ;;
  let arg2 := PARARG o in
  parameters <~
    (if negb (is_empty arg2) then
       _ <~ error_if (0 <? length parameters)%nat
              "It is not possible to use PARARG and PARAMETERS together" ;;
       _ <~ error_if (negb (length arg2 =? narg)%nat)
              "Size of PARARG array should be the same as number for arguments in ARG" ;;
       read_PARARG parameters arg2
     else Ok parameters) ;;
  _ <~ error_if (negb (length parameters =? narg)%nat)
         "PARARG or PARAMETERS arrays should include the same number of elements as the arguments in ARG" ;;
  noise_type <~ parse_NOISETYPE (NOISETYPE o) ;;
  let doscale := SCALEDATA o in
  let scale := if doscale then SCALE0 o else 1 in
  let scale_min := if doscale then SCALE_MIN o else 0 in
  let scale_max := if doscale then SCALE_MAX o else 0 in
  let Dscale := if doscale then DSCALE o else 0 in
  let readsigma := SIGMA0 o in
  _ <~ error_if (negb (noise_eqb noise_type MGAUSS)
                 && (1 <? length readsigma)%nat)
         "If you want to use more than one sigma you should add MULTISIGMA" ;;
  let MCsteps := match MC_STEPS o with Some n => n | None => 1%Z end in
  let MCstride := match MC_STRIDE o with Some n => n | None => 1%Z end in
  (* get temperature *)
  let temp := match TEMP o with Some x => x | None => 0 end in
  let kbt := if Rgt_dec temp 0 then getKBoltzmann h * temp else getKbT h in
  sigma <~ init_sigma noise_type narg readsigma ;;
  (* get number of replicas *)
  let nrep := comm_Sum_unsigned t
                (fun k => if (k =? 0)%nat then replicas t else 0%Z) in
  let replica := comm_Sum_unsigned t
                   (fun k => if (k =? 0)%nat then replica_index t else 0%Z) in
  (* divide sigma_mean by the square root of the number of replicas *)
  let sigma_mean := SIGMA_MEAN o / sqrt (IZR nrep) in
  (* adjust for multiple-time steps *)
  let MCstride := u32 (MCstride * getStride h) in
  let valueSigma :=
    if noise_eqb noise_type MGAUSS then repeat 0 (length sigma) else [0] in
  (* initialize random seed *)
  let iseed := comm_Sum_unsigned t
                 (fun k => if (k =? 0)%nat then u32 (time_NULL t + replica)
                           else 0%Z) in
  Ok (mkMetainference parameters noise_type doscale
        scale scale_min scale_max Dscale
        sigma (SIGMA_MIN o) (SIGMA_MAX o) (DSIGMA o)
        sigma_mean kbt (Z.of_nat narg)
        0 MCsteps MCstride 0%Z (-1)%Z
        0 0 0 valueSigma
        nrep replica
        (repeat 0 narg),
      iseed).

(** * TestContribFunction: a weighted combination of powers

    A shallow embedding of [src/contrib/TestContribFunction.cpp] (class
    [PLMD::contrib::TestContribFunction]).  [pow] of <cmath> is a parameter
    of the model. *)

Module TestContribFunction.

(** The data members, then the value and the derivatives the action hands
    to the host with [setValue] and [setDerivative]. *)
Record t : Type := mk {
  normalize : bool;
  coefficients : list R;
  powers : list R;
  value : R;
  derivatives : list R
}.

(** What the keyword parser hands to the constructor: [None] when the
    keyword is absent, which leaves the vector at the 1.0 it was built
    with. *)
Record Options : Type := mkOptions {
  COEFFICIENTS : option (list R);
  POWERS : option (list R);
  NORMALIZE : bool
}.

Definition parseVector (key : option (list R)) (v : list R) : list R :=
  match key with
  | Some read => read
  | None => v
  end.

(** The two loops under [if(normalize)]. *)
Definition normalized (coefficients : list R) : list R :=
  let n := fold_left (fun n c => n + c) coefficients 0 in
  map (fun c => c * (1 / n)) coefficients.

(** The constructor, for a host with [narg] arguments. *)
Definition new (o : Options) (narg : nat) : result t :=
  let coefficients := parseVector (COEFFICIENTS o) (repeat 1 narg) in
  _ <~ error_if (negb (length coefficients =? narg)%nat)
         "Size of COEFFICIENTS array should be the same as number for arguments" ;;
  let powers := parseVector (POWERS o) (repeat 1 narg) in
  _ <~ error_if (negb (length powers =? narg)%nat)
         "Size of POWERS array should be the same as number for arguments" ;;
  let coefficients :=
    if NORMALIZE o then normalized coefficients else coefficients in
  Ok (mk (NORMALIZE o) coefficients powers 0 (repeat 0 narg)).

Section Calculate.

Variable pow : R -> R -> R.

(** [calculate]: the loop runs over the coefficients; every index it visits
    gets its derivative written, and the sum is the value. *)
Definition calculate (f : t) (args : list R) : t :=
  let n := length (coefficients f) in
  let term i := nth i (coefficients f) 0
                * pow (getArgument args i) (nth i (powers f) 0) in
  let combine := fold_left (fun combine i => combine + term i) (seq 0 n) 0 in
  let derivative i :=
    nth i (coefficients f) 0 * nth i (powers f) 0
    * pow (getArgument args i) (nth i (powers f) 0 - 1) in
  let derivatives :=
    fold_left (fun ds i => upd ds i (derivative i)) (seq 0 n) (derivatives f) in
  mk (normalize f) (coefficients f) (powers f) combine derivatives.

End Calculate.

End TestContribFunction.

(** ** The host's driving loop *)

(** The host calls [calculate] once per step, each time with the values of
    the arguments, the step index and the exchange flag of that step. *)
Fixpoint run (m : Metainference) (steps : list (list R * Z * bool))
    (w : World) : option (Metainference * World) :=
  match steps with
  | [] => Some (m, w)
  | (args, step, exchange) :: rest =>
      match calculate m args step exchange w with
      | Some (m', w') => run m' rest w'
      | None => None
      end
  end.

(** Whether [calculate] runs the sampler at this step. *)
Definition sampler_step (m : Metainference) (step : Z) (exchange : bool)
    : bool :=
  (Z.rem step (MCstride_ m) =? 0)%Z && negb exchange.

(** ** Conditions on the environment and on the object *)

(** The C library's contract for [rand]: every value lies in
    [[0, RAND_MAX]], and [RAND_MAX] is positive. *)
Definition rand_ok (w : World) : Prop :=
  (0 < RAND_MAX w)%Z /\ forall n, (0 <= rand_seq w n <= RAND_MAX w)%Z.

(** A single rank in the replica and a single replica. *)
Definition alone_in (w : World) : Prop :=
  Get_rank (comm w) = 0%nat /\ Get_size (comm w) = 1%nat /\
  Get_rank (multi_sim_comm w) = 0%nat /\ Get_size (multi_sim_comm w) = 1%nat.

(** This process is the root of both broadcasts. *)
Definition broadcast_root (w : World) : Prop :=
  Get_rank (comm w) = 0%nat /\ Get_rank (multi_sim_comm w) = 0%nat.

(** The sizes the constructor gives to the vectors, for the arguments the
    host supplies: one reference value per argument, [ndata_] arguments, and
    one sigma per argument (MGAUSS) or a single one. *)
Definition sized (m : Metainference) (args : list R) : Prop :=
  length (parameters m) = length args /\
  ndata_ m = Z.of_nat (length args) /\
  length (sigma_ m) =
    (if noise_eqb (noise_type_ m) MGAUSS then length args else 1%nat).

(** The members that no member function assigns after construction. *)
Definition same_setup (m m' : Metainference) : Prop :=
  parameters m' = parameters m /\ noise_type_ m' = noise_type_ m /\
  doscale_ m' = doscale_ m /\ scale_min_ m' = scale_min_ m /\
  scale_max_ m' = scale_max_ m /\ Dscale_ m' = Dscale_ m /\
  sigma_min_ m' = sigma_min_ m /\ sigma_max_ m' = sigma_max_ m /\
  Dsigma_ m' = Dsigma_ m /\ sigma_mean_ m' = sigma_mean_ m /\
  kbt_ m' = kbt_ m /\ ndata_ m' = ndata_ m /\
  MCsteps_ m' = MCsteps_ m /\ MCstride_ m' = MCstride_ m /\
  nrep_ m' = nrep_ m /\ replica_ m' = replica_ m.

(** What the sampler leaves alone besides the setup. *)
Definition same_outputs (m m' : Metainference) : Prop :=
  MCfirst_ m' = MCfirst_ m /\ valueAccept m' = valueAccept m /\
  valueBias m' = valueBias m /\ outputForces m' = outputForces m.

(** The end-to-end scenario of the specification: GAUSS, one argument with
    reference value 0, a sigma [sg] inside its bounds and not moved by the
    sampler ([Dsigma = 0]), scale equal to 1 and either not sampled or
    sampled with [Dscale = 0] inside its bounds, and a usable stride. *)
Definition fixed_gauss (sg : R) (m : Metainference) : Prop :=
  noise_type_ m = GAUSS /\ parameters m = [0] /\
  sigma_ m = [sg] /\ sigma_min_ m <= sg <= sigma_max_ m /\ Dsigma_ m = 0 /\
  scale_ m = 1 /\
  (doscale_ m = false \/
   (Dscale_ m = 0 /\ scale_min_ m <= 1 <= scale_max_ m)) /\
  MCstride_ m <> 0%Z.

(** ** Formulas of the specification *)


(** The LTAIL energy in the words of the specification, in reduced units:
    one term per argument and its reference value, and the normalisation
    and prior correction once.  [c] is the constant that multiplies [s] in
    the correction. *)
Definition ltail_term (s sigma_mean scale : R) (p : R * R) : R :=
  let deviation := scale * fst p - snd p in
  let a2 := 0.5 * deviation ^ 2 + s ^ 2 in
  ln (2 * a2 / (1 - exp (- a2 / sigma_mean ^ 2))).

Definition ltail_energy (c : R) (args refs : list R)
    (sigma scale sigma_mean : R) : R :=
  let s := sqrt (sigma ^ 2 + sigma_mean ^ 2) in
  fold_right Rplus 0 (map (ltail_term s sigma_mean scale) (combine args refs))
  + (ln s - INR (length args) * ln (c * s)).

(** Bias of the fixed-sigma GAUSS scenario as a function of the argument
    [x]. *)
Definition gauss_bias (kbt sg sigma_mean x : R) : R :=
  kbt * (0.5 * x * x / (sg * sg + sigma_mean * sigma_mean)
         + ln ((sg * sg + sigma_mean * sigma_mean) * sqrt2pi)).

(** ** Concrete inputs *)

(** One process, one replica: nobody else takes part in the collectives. *)
Definition alone : Communicator := mkComm 0 1 (fun _ => 0) 0.

(** An environment with nobody else in either communicator and a generator
    that always returns [RAND_MAX] (so every draw is 1). *)
Definition world_alone : World :=
  mkWorld 2147483647 (fun _ => 2147483647%Z) 0 alone alone.

Definition topology_alone : Topology := mkTopology 0 1 1 0 0.

(** Rank 0 of a two-rank replica, second of four replicas. *)
Definition topology_four : Topology := mkTopology 0 2 4 1 0.

(** A host with a single argument, unit stride and [kB = kT = 1]. *)
Definition host_one_arg : Host := mkHost 1 1 1 1.

(** [ARG=d PARAMETERS=0 NOISETYPE=GAUSS SIGMA0=1 SIGMA_MIN=0 SIGMA_MAX=2
    DSIGMA=0 SIGMA_MEAN=1] *)
Definition options_gauss_one : Options :=
  mkOptions [0] [] "GAUSS" false 0 0 0 0 [1] 0 2 0 None None None 1.

(** GAUSS, one datum, [sigma = 1] sampled with zero step in [[0,2]], scale
    not sampled, [sigma_mean = 1], [kT = 1], one MC step every second step;
    nothing computed yet. *)
Definition gauss_state : Metainference :=
  mkMetainference [0] GAUSS false 1 0 0 0 [1] 0 2 0 1 1 1%Z
    0 1%Z 2%Z 0%Z (-1)%Z 0 0 0 [0] 1%Z 0%Z [0].

(** The same with [sigma = 1/2] in [[0,1]] and a step of half-width 10. *)
Definition wide_step_state : Metainference :=
  mkMetainference [0] GAUSS false 1 0 0 0 [1/2] 0 1 10 1 1 1%Z
    0 1%Z 1%Z 0%Z (-1)%Z 0 0 0 [0] 1%Z 0%Z [0].

(** LTAIL, one datum equal to its reference value, [sigma = 0],
    [sigma_mean = 1], [kT = 1]. *)
Definition ltail_state : Metainference :=
  mkMetainference [0] LTAIL false 1 0 0 0 [0] 0 2 0 1 1 1%Z
    0 1%Z 1%Z 0%Z (-1)%Z 0 0 0 [0] 1%Z 0%Z [0].

(** ** More conditions on the environment and on the object *)

(** What no operation of the code changes in the environment: the
    generator and its constant, and the place of this process in the two
    communicators. *)
Definition same_machine (w w' : World) : Prop :=
  RAND_MAX w' = RAND_MAX w /\ rand_seq w' = rand_seq w /\
  Get_rank (comm w') = Get_rank (comm w) /\
  Get_size (comm w') = Get_size (comm w) /\
  Get_rank (multi_sim_comm w') = Get_rank (multi_sim_comm w) /\
  Get_size (multi_sim_comm w') = Get_size (multi_sim_comm w).

(** An operation that keeps the machine, whatever it is given. *)
Definition keeps_machine {A : Type} (c : M A) : Prop :=
  forall w, same_machine w (snd (c w)).

(** Every sigma lies between [sigma_min_] and [sigma_max_]. *)
Definition sigma_in_bounds (m : Metainference) : Prop :=
  Forall (fun s => sigma_min_ m <= s <= sigma_max_ m) (sigma_ m).

(** The deviation of argument [i] from its reference value. *)
Definition deviation (m : Metainference) (args : list R) (i : nat) : R :=
  scale_ m * getArgument args i - nth i (parameters m) 0.

(** The effective variance that goes with argument [i]. *)
Definition variance (m : Metainference) (i : nat) : R :=
  let sigma_i :=
    nth (if noise_eqb (noise_type_ m) MGAUSS then i else O) (sigma_ m) 0 in
  sigma_i * sigma_i + sigma_mean_ m * sigma_mean_ m.

(** An operation that draws no random number. *)
Definition draws_nothing {A : Type} (c : M A) : Prop :=
  forall w, rand_calls (snd (c w)) = rand_calls w.

(** [gauss_state] configured with [MC_STEPS=0]. *)
Definition idle_state : Metainference :=
  mkMetainference [0] GAUSS false 1 0 0 0 [1] 0 2 0 1 1 1%Z
    0 0%Z 2%Z 0%Z (-1)%Z 0 0 0 [0] 1%Z 0%Z [0].

(** The quantity [a2] of the long-tailed variant for argument [i]: half the
    squared deviation plus the effective variance of the shared sigma. *)
Definition ltail_a2 (m : Metainference) (args : list R) (i : nat) : R :=
  0.5 * deviation m args i * deviation m args i
  + (nth 0 (sigma_ m) 0 * nth 0 (sigma_ m) 0
     + sigma_mean_ m * sigma_mean_ m).

(** The [switch(noise_type_)] of [calculate] that picks the force engine. *)
Definition getEnergyForce (m : Metainference) (args : list R)
    : M (R * Metainference) :=
  match noise_type_ m with
  | GAUSS | MGAUSS => getEnergyForceGJE m args
  | LTAIL => getEnergyForceSPE m args
  end.

(** ** Inputs for the contributed function *)

(** A reading of [pow] on the reals: [x^0 = 1] and [x^1 = x] for every
    base, [exp(y ln x)] otherwise (which is <cmath>'s value for a positive
    base). *)
Definition pow_model (x y : R) : R :=
  if Req_dec_T y 0 then 1 else if Req_dec_T y 1 then x else Rpower x y.

(** [ARG=a,b COEFFICIENTS=1,3 NORMALIZE] and the same without NORMALIZE. *)
Definition contrib_options (normalize : bool) : TestContribFunction.Options :=
  TestContribFunction.mkOptions (Some [1; 3]) None normalize.

(** The stored energy is the energy of the current sigma and scale for the
    arguments [args]. *)
Definition energy_in_step (m : Metainference) (args : list R) : Prop :=
  old_energy m = getEnergy m args (sigma_ m) (scale_ m).

(** ** The host's step sequence *)

(** The step indices of successive calls increase strictly, starting above
    [t]. *)
Fixpoint increasing (t : Z) (steps : list (list R * Z * bool)) : Prop :=
  match steps with
  | [] => True
  | (_, step, _) :: rest => (t < step)%Z /\ increasing step rest
  end.

(** The step index of the last call ([t] if there is none). *)
Fixpoint last_step (t : Z) (steps : list (list R * Z * bool)) : Z :=
  match steps with
  | [] => t
  | (_, step, _) :: rest => last_step step rest
  end.

(** How many multiples of the stride [s] lie in [[f, t]]. *)
Definition sampler_steps (s f t : Z) : Z := (t / s - (f - 1) / s)%Z.

(** ** Two data points, for comparing the Gaussian variants *)

(** GAUSS with two data points of reference values 0 and 1 and the shared
    [sigma = 1]. *)
Definition gauss_pair : Metainference :=
  mkMetainference [0; 1] GAUSS false 1 0 0 0 [1] 0 2 0 1 1 2%Z
    0 1%Z 1%Z 0%Z (-1)%Z 0 0 0 [0] 1%Z 0%Z [0; 0].

(** MGAUSS with the same data and [sigma = 1] for each point. *)
Definition mgauss_pair : Metainference :=
  mkMetainference [0; 1] MGAUSS false 1 0 0 0 [1; 1] 0 2 0 1 1 2%Z
    0 1%Z 1%Z 0%Z (-1)%Z 0 0 0 [0; 0] 1%Z 0%Z [0; 0].

(** ** A replica that is not the root of the scale broadcasts *)




(** * Properties *)

(** ** Construction *)

Lemma error_if_Ok : forall (c : bool) (msg : string) (u : unit),
  error_if c msg = Ok u -> c = false.
Proof. intros c msg u; unfold error_if; destruct c; congruence. Qed.

Lemma bindR_Ok : forall (A B : Type) (c : result A) (k : A -> result B) (b : B),
  bindR c k = Ok b -> exists a, c = Ok a /\ k a = Ok b.
Proof.
  intros A B c k b; destruct c as [a|msg]; simpl; intro H.
  - exists a; split; [reflexivity | exact H].
  - discriminate H.
Qed.

(** Only rank 0 brings a nonzero entry to the sums of the constructor. *)
Lemma leader_entries_zero : forall (x : Z) (n s : nat),
  fold_right Z.add 0%Z
    (map (fun k => if (k =? 0)%nat then x else 0%Z) (seq (S s) n)) = 0%Z.
Proof.
  intros x n; induction n as [|n IH]; intro s; simpl; [reflexivity|].
  rewrite IH; reflexivity.
Qed.

Lemma comm_Sum_unsigned_leader : forall (t : Topology) (x : Z),
  (1 <= comm_size t)%nat ->
  comm_Sum_unsigned t (fun k => if (k =? 0)%nat then x else 0%Z) = u32 x.
Proof.
  intros t x Hsz; unfold comm_Sum_unsigned.
  destruct (comm_size t) as [|n]; [lia|].
  simpl; rewrite leader_entries_zero, Z.add_0_r; reflexivity.
Qed.

Lemma u32_small : forall z : Z, (0 <= z < two32)%Z -> u32 z = z.
Proof. intros z Hz; unfold u32; apply Z.mod_small; exact Hz. Qed.

(** What a successful construction leaves in the members the properties
    below talk about. *)
Lemma Metainference_new_Ok : forall o h t m iseed,
  Metainference_new o h t = Ok (m, iseed) ->
  exists noise_type,
    parse_NOISETYPE (NOISETYPE o) = Ok noise_type /\
    noise_type_ m = noise_type /\
    (negb (noise_eqb noise_type MGAUSS) && (1 <? length (SIGMA0 o))%nat
       = false) /\
    init_sigma noise_type (getNumberOfArguments h) (SIGMA0 o)
       = Ok (sigma_ m) /\
    length (parameters m) = getNumberOfArguments h /\
    ndata_ m = Z.of_nat (getNumberOfArguments h) /\
    nrep_ m = comm_Sum_unsigned t
                (fun k => if (k =? 0)%nat then replicas t else 0%Z) /\
    sigma_mean_ m = SIGMA_MEAN o / sqrt (IZR (nrep_ m)).
Proof.
  intros o h t m iseed H; unfold Metainference_new in H.
  apply bindR_Ok in H; destruct H as [_ [_ H]].
  apply bindR_Ok in H; destruct H as [parameters [_ H]].
  apply bindR_Ok in H; destruct H as [u [Hpar H]].
  apply error_if_Ok in Hpar.
  apply bindR_Ok in H; destruct H as [noise_type [Hnoise H]].
  apply bindR_Ok in H; destruct H as [u' [Hmulti H]].
  apply error_if_Ok in Hmulti.
  apply bindR_Ok in H; destruct H as [sigma [Hsigma H]].
  inversion H; subst m iseed; clear H; simpl.
  exists noise_type; repeat split; try assumption; try reflexivity.
  apply Nat.eqb_eq; apply negb_false_iff; exact Hpar.
Qed.

Lemma noise_eqb_eq : forall a b : noise, noise_eqb a b = true <-> a = b.
Proof. intros a b; destruct a, b; simpl; split; congruence. Qed.

Lemma init_sigma_length : forall noise_type narg readsigma sigma,
  init_sigma noise_type narg readsigma = Ok sigma ->
  (length readsigma = narg /\ sigma = readsigma) \/
  (length readsigma = 1%nat /\ length readsigma <> narg /\
   length sigma = if noise_eqb noise_type MGAUSS then narg else 1%nat).
Proof.
  intros noise_type narg readsigma sigma; unfold init_sigma.
  destruct (length readsigma =? narg)%nat eqn:En.
  - intro H; inversion H; subst; left; split; [|reflexivity].
    apply Nat.eqb_eq; exact En.
  - apply Nat.eqb_neq in En.
    destruct (length readsigma =? 1)%nat eqn:E1; [|discriminate].
    apply Nat.eqb_eq in E1.
    destruct (noise_eqb noise_type MGAUSS); intro H; inversion H; subst;
      right; repeat split; auto; apply repeat_length.
Qed.

(** C8 (as amended).  After a successful construction with at least one
    argument, [sigma_] has length 1 or N_arg; its length is N_arg exactly
    when the variant is MGAUSS or there is a single argument. *)
Theorem sigma_size_after_construction : forall o h t m iseed,
  (1 <= getNumberOfArguments h)%nat ->
  Metainference_new o h t = Ok (m, iseed) ->
  (length (sigma_ m) = 1%nat \/ length (sigma_ m) = getNumberOfArguments h)
  /\ (length (sigma_ m) = getNumberOfArguments h <->
      noise_type_ m = MGAUSS \/ getNumberOfArguments h = 1%nat).
Proof.
  intros o h t m iseed Hn H.
  apply Metainference_new_Ok in H.
  destruct H as [nt [_ [Hnt [Hmulti [Hsigma _]]]]].
  rewrite Hnt; clear Hnt.
  apply init_sigma_length in Hsigma.
  apply andb_false_iff in Hmulti.
  destruct (noise_eqb nt MGAUSS) eqn:Emg.
  - apply noise_eqb_eq in Emg.
    destruct Hsigma as [[Hl Hs]|[_ [_ Hl]]]; [rewrite Hs|]; tauto.
  - assert (Hnt : nt <> MGAUSS).
    { intro Hc; apply noise_eqb_eq in Hc; congruence. }
    destruct Hmulti as [Hc|Hle]; [discriminate Hc|].
    apply Nat.ltb_ge in Hle.
    destruct Hsigma as [[Hl Hs]|[H1 [Hne Hl]]].
    + rewrite Hs; split; [right; exact Hl|].
      split; [intros _; right; lia | intros _; exact Hl].
    + split; [left; exact Hl|].
      rewrite Hl; split; [intro; right; lia|].
      intros [Hc|Hc]; [contradiction | congruence].
Qed.

Lemma options_gauss_one_constructs :
  exists m iseed,
    Metainference_new options_gauss_one host_one_arg topology_alone
      = Ok (m, iseed) /\
    sigma_ m = [1] /\ noise_type_ m = GAUSS.
Proof. eexists; eexists; split; [reflexivity|]; split; reflexivity. Qed.

Lemma sigma_size_after_construction_witness :
  exists m iseed,
    Metainference_new options_gauss_one host_one_arg topology_alone
      = Ok (m, iseed) /\
    (length (sigma_ m) = 1%nat \/ length (sigma_ m) = 1%nat) /\
    (length (sigma_ m) = 1%nat <->
     noise_type_ m = MGAUSS \/ 1%nat = 1%nat).
Proof.
  eexists; eexists; split; [reflexivity|].
  exact (sigma_size_after_construction options_gauss_one host_one_arg
           topology_alone _ _ (le_n 1) eq_refl).
Defined.

(** C8 as stated fails with a single argument: GAUSS then has a sigma vector
    of length N_arg = 1 although the multi-sigma variant is not selected. *)
Lemma sigma_size_iff_fails_single_argument :
  exists m iseed,
    (1 <= getNumberOfArguments host_one_arg)%nat /\
    Metainference_new options_gauss_one host_one_arg topology_alone
      = Ok (m, iseed) /\
    ~ (length (sigma_ m) = getNumberOfArguments host_one_arg <->
       noise_type_ m = MGAUSS).
Proof.
  eexists; eexists; split; [apply le_n|]; split; [reflexivity|].
  simpl; intros [H _]; specialize (H eq_refl); discriminate H.
Qed.

(** The constructor establishes the sizes the member functions rely on. *)
Lemma Metainference_new_sized : forall o h t m iseed args,
  (1 <= getNumberOfArguments h)%nat ->
  Metainference_new o h t = Ok (m, iseed) ->
  length args = getNumberOfArguments h ->
  sized m args.
Proof.
  intros o h t m iseed args Hn H Hargs.
  apply Metainference_new_Ok in H.
  destruct H as [nt [_ [Hnt [Hmulti [Hsigma [Hpar [Hnd _]]]]]]].
  unfold sized; rewrite Hargs, Hnt.
  split; [exact Hpar|]; split; [exact Hnd|].
  apply init_sigma_length in Hsigma.
  apply andb_false_iff in Hmulti.
  destruct (noise_eqb nt MGAUSS) eqn:Emg.
  - destruct Hsigma as [[Hl Hs]|[_ [_ Hl]]]; [rewrite Hs|]; assumption.
  - destruct Hmulti as [Hc|Hle]; [discriminate Hc|].
    apply Nat.ltb_ge in Hle.
    destruct Hsigma as [[Hl Hs]|[_ [_ Hl]]]; [rewrite Hs; lia | exact Hl].
Qed.

(** ** What each member function leaves unchanged *)

Lemma same_setup_refl : forall m, same_setup m m.
Proof. intro m; unfold same_setup; repeat split. Qed.

Lemma same_setup_trans : forall m1 m2 m3,
  same_setup m1 m2 -> same_setup m2 m3 -> same_setup m1 m3.
Proof.
  unfold same_setup; intros m1 m2 m3 H12 H23.
  repeat match goal with H : _ /\ _ |- _ => destruct H end.
  repeat split; congruence.
Qed.

Lemma same_outputs_refl : forall m, same_outputs m m.
Proof. intro m; unfold same_outputs; repeat split. Qed.

Lemma same_outputs_trans : forall m1 m2 m3,
  same_outputs m1 m2 -> same_outputs m2 m3 -> same_outputs m1 m3.
Proof.
  unfold same_outputs; intros m1 m2 m3 H12 H23.
  repeat match goal with H : _ /\ _ |- _ => destruct H end.
  repeat split; congruence.
Qed.

Create HintDb frame.
#[local] Hint Resolve same_setup_refl same_outputs_refl : frame.

(** Name the result of the next computation a [bind] runs. *)
Ltac run_next :=
  match goal with
  | |- context [let (_, _) := ?c in _] => destruct c as [? ?] eqn:?
  end.

Ltac frame_setters :=
  unfold same_setup, same_outputs; simpl; repeat split; reflexivity.

Lemma accept_move_frame : forall m e sc sg,
  same_setup m (accept_move m e sc sg) /\
  same_outputs m (accept_move m e sc sg).
Proof. intros; unfold accept_move; split; frame_setters. Qed.

Lemma metropolis_frame : forall m e sc sg w m' w',
  metropolis m e sc sg w = (m', w') ->
  same_setup m m' /\ same_outputs m m'.
Proof.
  intros m e sc sg w m' w'; unfold metropolis, bind, ret.
  destruct (Rle_dec _ 0).
  - intro H; inversion H; apply accept_move_frame.
  - destruct (rand_unit w) as [s w1].
    destruct (Rlt_dec s _); intro H; inversion H; subst.
    + apply accept_move_frame.
    + auto with frame.
Qed.

Lemma share_scale_frame : forall m w m' w',
  share_scale m w = (m', w') ->
  same_setup m m' /\ same_outputs m m' /\
  sigma_ m' = sigma_ m /\ old_energy m' = old_energy m /\
  MCaccept_ m' = MCaccept_ m.
Proof.
  intros m w m' w'; unfold share_scale, bind, ret.
  destruct (doscale_ m).
  - repeat run_next.
    intro H; inversion H; subst.
    repeat split; frame_setters.
  - intro H; inversion H; subst; repeat split; auto with frame.
Qed.

Lemma mc_step_frame : forall m args w m' w',
  mc_step m args w = (m', w') -> same_setup m m' /\ same_outputs m m'.
Proof.
  intros m args w m' w'; unfold mc_step, bind.
  destruct (propose_scale m w) as [new_scale w1].
  destruct (propose_sigma m w1) as [new_sigma w2].
  destruct (metropolis m _ new_scale new_sigma w2) as [m1 w3] eqn:Hm.
  intro Hs.
  apply metropolis_frame in Hm; apply share_scale_frame in Hs.
  destruct Hm as [Ha Hb], Hs as [Hc [Hd _]].
  split; [eapply same_setup_trans | eapply same_outputs_trans]; eassumption.
Qed.

Lemma mc_loop_frame : forall n m args w m' w',
  mc_loop n m args w = (m', w') -> same_setup m m' /\ same_outputs m m'.
Proof.
  induction n as [|n IH]; intros m args w m' w'; simpl.
  - unfold ret; intro H; inversion H; subst; auto with frame.
  - unfold bind; destruct (mc_step m args w) as [m1 w1] eqn:Hs.
    intro Hl; apply mc_step_frame in Hs; apply IH in Hl.
    destruct Hs, Hl.
    split; [eapply same_setup_trans | eapply same_outputs_trans]; eassumption.
Qed.

Lemma seed_old_energy_frame : forall m args,
  same_setup m (seed_old_energy m args) /\
  same_outputs m (seed_old_energy m args).
Proof.
  intros m args; unfold seed_old_energy.
  destruct (MCfirst_ m =? -1)%Z; split; auto with frame; frame_setters.
Qed.

Lemma save_sampling_frame : forall m,
  same_setup m (save_sampling m) /\ same_outputs m (save_sampling m) /\
  MCaccept_ (save_sampling m) = MCaccept_ m /\
  scale_ (save_sampling m) = scale_ m /\
  sigma_ (save_sampling m) = sigma_ m /\
  old_energy (save_sampling m) = old_energy m.
Proof.
  intro m; unfold save_sampling.
  destruct (doscale_ m); repeat split; frame_setters.
Qed.

Lemma doMonteCarlo_frame : forall m args w m' w',
  doMonteCarlo m args w = (m', w') -> same_setup m m' /\ same_outputs m m'.
Proof.
  intros m args w m' w'; unfold doMonteCarlo, bind, ret.
  destruct (mc_loop _ _ args w) as [m1 w1] eqn:Hl.
  intro H; inversion H; subst.
  apply mc_loop_frame in Hl.
  destruct Hl as [Ha Hb], (seed_old_energy_frame m args) as [Hc Hd],
    (save_sampling_frame m1) as [He [Hf _]].
  split.
  - eapply same_setup_trans; [exact Hc|].
    eapply same_setup_trans; eassumption.
  - eapply same_outputs_trans; [exact Hd|].
    eapply same_outputs_trans; eassumption.
Qed.

(** The force engine only writes the output forces. *)
Lemma getEnergyForceGJE_state : forall m args w,
  exists forces,
    snd (fst (getEnergyForceGJE m args w)) = set_outputForces m forces.
Proof.
  intros m args w; unfold getEnergyForceGJE, bind, ret, setOutputForces.
  repeat run_next; simpl; eexists; reflexivity.
Qed.

Lemma getEnergyForceSPE_state : forall m args w,
  exists forces,
    snd (fst (getEnergyForceSPE m args w)) = set_outputForces m forces.
Proof.
  intros m args w; unfold getEnergyForceSPE, bind, ret, setOutputForces.
  repeat run_next; simpl; eexists; reflexivity.
Qed.

(** ** The shape of one step *)

Lemma calculate_None : forall m args step exchange w,
  calculate m args step exchange w = None <-> MCstride_ m = 0%Z.
Proof.
  intros m args step exchange w; unfold calculate.
  destruct (MCstride_ m =? 0)%Z eqn:E.
  - apply Z.eqb_eq in E; tauto.
  - apply Z.eqb_neq in E.
    repeat run_next; split; [discriminate | contradiction].
Qed.

(** With a nonzero stride [calculate] returns; the state it returns is the
    state [m1] the sampler left (or the incoming state when the sampler did
    not run), with the first step recorded, and with the three outputs
    [accept], the forces and [bias] set. *)
Lemma calculate_shape : forall m args step exchange w,
  MCstride_ m <> 0%Z ->
  exists m1 w1 forces ene w',
    (if sampler_step m step exchange then doMonteCarlo m args w else (m, w))
      = (m1, w1) /\
    calculate m args step exchange w =
      Some (set_valueBias
              (set_outputForces
                 (set_valueAccept (record_first m1 step)
                    (accept (record_first m1 step) step)) forces)
              (kbt_ m1 * ene), w').
Proof.
  intros m args step exchange w Hs; unfold calculate, sampler_step.
  apply Z.eqb_neq in Hs; rewrite Hs.
  match goal with
  | |- context [let (_, _) := ?c in _] => destruct c as [m1 w1] eqn:Hmc
  end.
  exists m1, w1.
  set (m2 := set_valueAccept (record_first m1 step) _).
  assert (Hk : kbt_ m2 = kbt_ m1).
  { unfold m2, record_first; destruct (MCfirst_ m1 =? -1)%Z; reflexivity. }
  rewrite Hk.
  destruct (noise_type_ m2).
  - destruct (getEnergyForceGJE_state m2 args w1) as [forces Hf].
    destruct (getEnergyForceGJE m2 args w1) as [[ene m3] w3]; simpl in *.
    exists forces, ene, w3; subst m3; split; reflexivity.
  - destruct (getEnergyForceGJE_state m2 args w1) as [forces Hf].
    destruct (getEnergyForceGJE m2 args w1) as [[ene m3] w3]; simpl in *.
    exists forces, ene, w3; subst m3; split; reflexivity.
  - destruct (getEnergyForceSPE_state m2 args w1) as [forces Hf].
    destruct (getEnergyForceSPE m2 args w1) as [[ene m3] w3]; simpl in *.
    exists forces, ene, w3; subst m3; split; reflexivity.
Qed.

Lemma record_first_frame : forall m step,
  same_setup m (record_first m step) /\
  MCaccept_ (record_first m step) = MCaccept_ m /\
  MCfirst_ (record_first m step)
    = (if (MCfirst_ m =? -1)%Z then step else MCfirst_ m).
Proof.
  intros m step; unfold record_first.
  destruct (MCfirst_ m =? -1)%Z; repeat split; frame_setters.
Qed.

Lemma sampler_frame : forall m args step exchange w m1 w1,
  (if sampler_step m step exchange then doMonteCarlo m args w else (m, w))
    = (m1, w1) ->
  same_setup m m1 /\ same_outputs m m1.
Proof.
  intros m args step exchange w m1 w1.
  destruct (sampler_step m step exchange).
  - apply doMonteCarlo_frame.
  - intro H; inversion H; subst; auto with frame.
Qed.

Lemma calculate_frame : forall m args step exchange w m' w',
  calculate m args step exchange w = Some (m', w') -> same_setup m m'.
Proof.
  intros m args step exchange w m' w' H.
  assert (Hs : MCstride_ m <> 0%Z).
  { intro Hc; apply (calculate_None m args step exchange w) in Hc.
    congruence. }
  destruct (calculate_shape m args step exchange w Hs)
    as [m1 [w1 [forces [ene [w2 [Hmc Hcalc]]]]]].
  rewrite Hcalc in H; inversion H; subst; clear H.
  apply sampler_frame in Hmc; destruct Hmc as [Hmc _].
  eapply same_setup_trans; [exact Hmc|].
  destruct (record_first_frame m1 step) as [Hr _].
  eapply same_setup_trans; [exact Hr|].
  frame_setters.
Qed.

Lemma run_frame : forall steps m w m' w',
  run m steps w = Some (m', w') -> same_setup m m'.
Proof.
  induction steps as [|[[args step] exchange] rest IH]; intros m w m' w'; simpl.
  - intro H; inversion H; subst; apply same_setup_refl.
  - destruct (calculate m args step exchange w) as [[m1 w1]|] eqn:Hc;
      [|discriminate].
    intro H; apply IH in H; apply calculate_frame in Hc.
    eapply same_setup_trans; eassumption.
Qed.

Lemma sqrt_4 : sqrt 4 = 2.
Proof. replace 4 with (2 * 2) by lra; apply sqrt_square; lra. Qed.

(** C7.  After construction [sigma_mean_] is SIGMA_MEAN divided by the
    square root of the number of replicas (so by 1, [sqrt 2] and 2 for 1, 2
    and 4 replicas), on every rank of the replica; and no sequence of steps
    changes it afterwards. *)
Theorem sigma_mean_rescaled_once : forall o h t m iseed,
  (1 <= comm_size t)%nat ->
  (0 <= replicas t < two32)%Z ->
  Metainference_new o h t = Ok (m, iseed) ->
  sigma_mean_ m = SIGMA_MEAN o / sqrt (IZR (replicas t)) /\
  (replicas t = 1%Z -> sigma_mean_ m = SIGMA_MEAN o) /\
  (replicas t = 2%Z -> sigma_mean_ m = SIGMA_MEAN o / sqrt 2) /\
  (replicas t = 4%Z -> sigma_mean_ m = SIGMA_MEAN o / 2) /\
  (forall steps w m' w',
     run m steps w = Some (m', w') -> sigma_mean_ m' = sigma_mean_ m).
Proof.
  intros o h t m iseed Hsz Hrep H.
  apply Metainference_new_Ok in H.
  destruct H as [nt [_ [_ [_ [_ [_ [_ [Hn Hsm]]]]]]]].
  rewrite comm_Sum_unsigned_leader in Hn by exact Hsz.
  rewrite u32_small in Hn by exact Hrep.
  rewrite Hn in Hsm.
  split; [exact Hsm|].
  split; [|split; [|split]].
  - intro H1; rewrite Hsm, H1, sqrt_1; field.
  - intro H2; rewrite Hsm, H2; reflexivity.
  - intro H4; rewrite Hsm, H4, sqrt_4; reflexivity.
  - intros steps w m' w' Hrun; apply run_frame in Hrun.
    unfold same_setup in Hrun; tauto.
Qed.

Lemma sigma_mean_rescaled_once_witness :
  exists m iseed,
    Metainference_new options_gauss_one host_one_arg topology_four
      = Ok (m, iseed) /\
    sigma_mean_ m = 1 / sqrt 4 /\
    (4%Z = 1%Z -> sigma_mean_ m = 1) /\
    (4%Z = 2%Z -> sigma_mean_ m = 1 / sqrt 2) /\
    (4%Z = 4%Z -> sigma_mean_ m = 1 / 2) /\
    (forall steps w m' w',
       run m steps w = Some (m', w') -> sigma_mean_ m' = sigma_mean_ m).
Proof.
  eexists; eexists; split; [reflexivity|].
  refine (sigma_mean_rescaled_once options_gauss_one host_one_arg
            topology_four _ _ _ _ eq_refl).
  - simpl; lia.
  - unfold two32; simpl; lia.
Defined.

(** ** Acceptance ratio *)



(** On the reals [accept] is the double quotient, with R's value for a
    division by zero. *)
Lemma accept_real : forall m step,
  accept m step = IZR (MCaccept_ m) / IZR (MCsteps_ m) / MCtrials m step.
Proof.
  intros m step; unfold accept, accept_quotient, divide.
  destruct (Req_dec_T (IZR (MCsteps_ m)) 0) as [E|E].
  - rewrite E.
    destruct (Req_dec_T (IZR (MCaccept_ m)) 0); cbn [finite_part];
      unfold Rdiv; rewrite Rinv_0; ring.
  - destruct (Req_dec_T (MCtrials m step) 0) as [T|T].
    + rewrite T.
      destruct (Req_dec_T (IZR (MCaccept_ m) / IZR (MCsteps_ m)) 0);
        cbn [finite_part]; unfold Rdiv; rewrite Rinv_0; ring.
    + reflexivity.
Qed.



(** No accepted move and [MC_STEPS = 0]: the double is [0.0/0.0]. *)
Lemma accept_quotient_NaN : forall m step,
  MCsteps_ m = 0%Z -> MCaccept_ m = 0%Z -> accept_quotient m step = NaN.
Proof.
  intros m step Hs Ha; unfold accept_quotient, divide; rewrite Hs, Ha.
  destruct (Req_dec_T 0 0) as [_|H]; [reflexivity | contradiction H; reflexivity].
Qed.

(** The members [accept] is computed from, in the state [calculate]
    returns. *)
Lemma calculate_accept : forall m args step exchange w,
  MCstride_ m <> 0%Z ->
  exists m' w',
    calculate m args step exchange w = Some (m', w') /\
    MCsteps_ m' = MCsteps_ m /\ MCstride_ m' = MCstride_ m /\
    MCfirst_ m' = (if (MCfirst_ m =? -1)%Z then step else MCfirst_ m) /\
    valueAccept m' = accept m' step.
Proof.
  intros m args step exchange w Hs.
  destruct (calculate_shape m args step exchange w Hs)
    as [m1 [w1 [forces [ene [w2 [Hmc Hcalc]]]]]].
  eexists; eexists; split; [exact Hcalc|].
  apply sampler_frame in Hmc; destruct Hmc as [Hset Hout].
  destruct (record_first_frame m1 step) as [Hset' [_ Hfirst]].
  destruct Hout as [Hmf _]; rewrite Hmf in Hfirst.
  unfold same_setup in Hset, Hset'.
  repeat match goal with H : _ /\ _ |- _ => destruct H end.
  rewrite !accept_real; unfold MCtrials; simpl; repeat split; congruence.
Qed.

(** C5.  With a usable (nonzero) stride, every call of [calculate] returns
    and publishes [accept = accepted_count / MC_STEPS / trials] with
    [trials = floor((step - first_step)/stride) + 1], where [first_step] is
    the step of the first call (recorded when the member still held -1) and
    the accepted count is the one after this step's sampling. *)
Theorem accept_published : forall m args step exchange w,
  MCstride_ m <> 0%Z ->
  exists m' w',
    calculate m args step exchange w = Some (m', w') /\
    MCfirst_ m' = (if (MCfirst_ m =? -1)%Z then step else MCfirst_ m) /\
    valueAccept m' =
      IZR (MCaccept_ m') / IZR (MCsteps_ m')
      / (floor (IZR (step - MCfirst_ m') / IZR (MCstride_ m')) + 1).
Proof.
  intros m args step exchange w Hs.
  destruct (calculate_accept m args step exchange w Hs)
    as [m' [w' [Hc [_ [_ [Hf Ha]]]]]].
  exists m', w'; split; [exact Hc|]; split; [exact Hf|].
  exact (eq_trans Ha (accept_real m' step)).
Qed.


Lemma gauss_state_stride : MCstride_ gauss_state <> 0%Z.
Proof. discriminate. Qed.

Lemma accept_published_witness :
  MCstride_ gauss_state <> 0%Z /\
  exists m' w',
    calculate gauss_state [0] 4 false world_alone = Some (m', w') /\
    MCfirst_ m'
      = (if (MCfirst_ gauss_state =? -1)%Z then 4%Z
         else MCfirst_ gauss_state) /\
    valueAccept m' =
      IZR (MCaccept_ m') / IZR (MCsteps_ m')
      / (floor (IZR (4 - MCfirst_ m') / IZR (MCstride_ m')) + 1).
Proof.
  split; [exact gauss_state_stride|].
  exact (accept_published gauss_state [0] 4 false world_alone
           gauss_state_stride).
Defined.


(** ** The sampler: proposals and the Metropolis test *)

Lemma rand_unit_range : forall w,
  rand_ok w -> 0 <= fst (rand_unit w) <= 1.
Proof.
  intros w [Hmax Hseq]; unfold rand_unit; simpl.
  specialize (Hseq (rand_calls w)).
  assert (Hm : 0 < IZR (RAND_MAX w)) by (apply IZR_lt; exact Hmax).
  assert (H0 : 0 <= IZR (rand_seq w (rand_calls w))) by (apply IZR_le; lia).
  assert (H1 : IZR (rand_seq w (rand_calls w)) <= IZR (RAND_MAX w))
    by (apply IZR_le; lia).
  split.
  - apply Rmult_le_pos; [exact H0 | apply Rlt_le, Rinv_0_lt_compat; exact Hm].
  - apply (Rmult_le_reg_r (IZR (RAND_MAX w))); [exact Hm|].
    unfold Rdiv; rewrite Rmult_assoc, Rinv_l by lra; lra.
Qed.

Lemma rand_unit_keeps_ok : forall w, rand_ok w -> rand_ok (snd (rand_unit w)).
Proof. intros w H; exact H. Qed.

(** Settle the next comparison of reals the code branches on. *)
Ltac compare_R :=
  match goal with
  | |- context [Rle_dec ?a ?b] => destruct (Rle_dec a b)
  | |- context [Rlt_dec ?a ?b] => destruct (Rlt_dec a b)
  | |- context [Rgt_dec ?a ?b] => destruct (Rgt_dec a b)
  end.

Lemma world_alone_ok : rand_ok world_alone.
Proof. split; simpl; intros; lia. Qed.

(** Reflection of a proposal whose step is no wider than the interval. *)
Lemma reflect_in_bounds : forall lo hi cur D r,
  lo <= cur <= hi -> 0 <= D -> D <= hi - lo -> 0 <= r <= 1 ->
  lo <= reflect lo hi (walk cur D r) <= hi.
Proof.
  intros lo hi cur D r Hcur HD Hw Hr; unfold reflect, walk.
  assert (Hds : - D <= - D + r * 2 * D <= D) by nra.
  destruct (Rgt_dec _ hi) as [Hgt|Hle].
  - destruct (Rlt_dec _ lo); lra.
  - destruct (Rlt_dec _ lo); lra.
Qed.

Lemma reflect_inside : forall lo hi v, lo <= v <= hi -> reflect lo hi v = v.
Proof.
  intros lo hi v Hv; unfold reflect.
  destruct (Rgt_dec v hi); [lra|].
  destruct (Rlt_dec v lo); [lra | reflexivity].
Qed.

(** C2 (as amended).  From a value inside [[lo, hi]], with a half-width
    [0 <= D <= hi - lo] and a draw in the unit interval, the proposal after
    the two boundary checks lies in [[lo, hi]]; and a raw proposal that is
    already inside is returned unchanged, whatever the half-width. *)
Theorem reflection_keeps_bounds : forall lo hi cur D r,
  lo <= cur <= hi -> 0 <= D -> D <= hi - lo -> 0 <= r <= 1 ->
  lo <= reflect lo hi (walk cur D r) <= hi /\
  (forall D', lo <= walk cur D' r <= hi ->
     reflect lo hi (walk cur D' r) = walk cur D' r).
Proof.
  intros lo hi cur D r Hcur HD Hw Hr; split.
  - apply reflect_in_bounds; assumption.
  - intros D' Hin; apply reflect_inside; exact Hin.
Qed.

Lemma reflection_keeps_bounds_witness :
  0 <= 1/2 <= 1 /\ 0 <= 1 /\ 1 <= 1 - 0 /\ 0 <= 1 <= 1 /\
  0 <= reflect 0 1 (walk (1/2) 1 1) <= 1 /\
  (forall D', 0 <= walk (1/2) D' 1 <= 1 ->
     reflect 0 1 (walk (1/2) D' 1) = walk (1/2) D' 1).
Proof.
  assert (Hcur : 0 <= 1/2 <= 1) by lra.
  assert (HD : 0 <= 1) by lra.
  assert (Hw : 1 <= 1 - 0) by lra.
  assert (Hr : 0 <= 1 <= 1) by lra.
  repeat (split; [lra|]).
  exact (reflection_keeps_bounds 0 1 (1/2) 1 1 Hcur HD Hw Hr).
Defined.

(** C2 as stated fails for a step wider than the interval: from
    [sigma = 1/2] in [[0,1]] with [Dsigma = 10] and a draw of 1, the raw
    proposal is [21/2]; the first check mirrors it to [-17/2], the second to
    [17/2], and that is what [doMonteCarlo] proposes. *)
Lemma wide_step_leaves_bounds :
  let m := wide_step_state in
  let u := fst (rand_unit world_alone) in
  Forall (fun s => sigma_min_ m <= s <= sigma_max_ m) (sigma_ m) /\
  0 <= Dsigma_ m /\ 0 <= u <= 1 /\
  ~ (sigma_min_ m <= walk (1/2) (Dsigma_ m) u <= sigma_max_ m) /\
  fst (propose_sigma m world_alone) = [17/2] /\
  ~ (sigma_min_ m <= 17/2 <= sigma_max_ m).
Proof.
  assert (Hu : fst (rand_unit world_alone) = 1).
  { unfold rand_unit; simpl; unfold Rdiv.
    apply Rinv_r, eq_IZR_contrapositive; discriminate. }
  assert (Hprop : fst (propose_sigma wide_step_state world_alone)
                  = [reflect 0 1 (walk (1/2) 10 (fst (rand_unit world_alone)))])
    by reflexivity.
  cbv zeta; rewrite Hprop, Hu.
  change (sigma_min_ wide_step_state) with 0.
  change (sigma_max_ wide_step_state) with 1.
  change (Dsigma_ wide_step_state) with 10.
  change (sigma_ wide_step_state) with [1/2].
  assert (Hraw : walk (1/2) 10 1 = 21/2) by (unfold walk; lra).
  rewrite Hraw.
  split; [constructor; [lra | constructor]|].
  split; [lra|].
  split; [lra|].
  split; [lra|].
  split; [|lra].
  unfold reflect; repeat compare_R; try lra.
  f_equal; lra.
Qed.

(** Every component of the sigma proposal of [doMonteCarlo] is inside the
    bounds when the step is no wider than the interval. *)
Lemma propose_sigma_in_bounds : forall m w,
  rand_ok w ->
  Forall (fun s => sigma_min_ m <= s <= sigma_max_ m) (sigma_ m) ->
  0 <= Dsigma_ m <= sigma_max_ m - sigma_min_ m ->
  Forall (fun s => sigma_min_ m <= s <= sigma_max_ m)
    (fst (propose_sigma m w)).
Proof.
  intros m w Hok Hall HD; unfold propose_sigma.
  revert w Hok; induction Hall as [|s l Hs Hl IH]; intros w Hok; simpl.
  - constructor.
  - unfold bind, ret.
    pose proof (rand_unit_range w Hok) as Hr.
    pose proof (rand_unit_keeps_ok w Hok) as Hok1.
    destruct (rand_unit w) as [r2 w1]; cbn [fst snd] in Hr, Hok1.
    specialize (IH w1 Hok1).
    destruct (mapM _ l w1) as [ys w2]; cbn [fst] in *.
    constructor; [|exact IH].
    apply reflect_in_bounds; lra.
Qed.

(** The same for the scale proposal, before it is overwritten by the value
    broadcast from replica 0 (where it is computed by the same lines). *)
Lemma propose_scale_in_bounds : forall m w,
  rand_ok w -> broadcast_root w ->
  scale_min_ m <= scale_ m <= scale_max_ m ->
  0 <= Dscale_ m <= scale_max_ m - scale_min_ m ->
  scale_min_ m <= fst (propose_scale m w) <= scale_max_ m.
Proof.
  intros m w Hok [Hr Hmr] Hsc HD; unfold propose_scale.
  destruct (doscale_ m); [|exact Hsc].
  unfold bind, ret, comm_Get_rank, multi_sim_comm_Bcast, comm_Bcast, Bcast.
  pose proof (rand_unit_range w Hok) as Hu.
  unfold rand_unit in *; cbn [fst snd] in *; simpl.
  rewrite Hr; simpl; rewrite Hmr, ?Hr; simpl.
  apply reflect_in_bounds; lra.
Qed.

(** On the root of both broadcasts the re-broadcast that closes an inner
    step returns the object as the Metropolis test left it: there the whole
    step is the proposal followed by the test. *)
Lemma share_scale_on_root : forall m w,
  broadcast_root w -> fst (share_scale m w) = m.
Proof.
  intros m w [Hr Hmr]; unfold share_scale.
  destruct (doscale_ m) eqn:Ed; [|reflexivity].
  unfold bind, ret, comm_Get_rank, multi_sim_comm_Bcast, comm_Bcast, Bcast.
  rewrite Hr; simpl; rewrite Hmr, Hr; simpl.
  destruct m; reflexivity.
Qed.

Lemma broadcast_root_kept : forall (A : Type) (c : M A),
  (forall w, Get_rank (comm (snd (c w))) = Get_rank (comm w) /\
             Get_rank (multi_sim_comm (snd (c w)))
               = Get_rank (multi_sim_comm w)) ->
  forall w, broadcast_root w -> broadcast_root (snd (c w)).
Proof.
  intros A c Hc w [Hr Hmr]; destruct (Hc w) as [H1 H2].
  split; congruence.
Qed.

Lemma metropolis_keeps_ranks : forall m e sc sg w,
  Get_rank (comm (snd (metropolis m e sc sg w))) = Get_rank (comm w) /\
  Get_rank (multi_sim_comm (snd (metropolis m e sc sg w)))
    = Get_rank (multi_sim_comm w).
Proof.
  intros m e sc sg w; unfold metropolis, bind, ret, rand_unit.
  repeat compare_R; simpl; split; reflexivity.
Qed.

Lemma mc_step_on_root : forall m args w new_scale w1 new_sigma w2,
  broadcast_root w2 ->
  propose_scale m w = (new_scale, w1) ->
  propose_sigma m w1 = (new_sigma, w2) ->
  fst (mc_step m args w)
  = fst (metropolis m (getEnergy m args new_sigma new_scale)
           new_scale new_sigma w2).
Proof.
  intros m args w new_scale w1 new_sigma w2 Hroot Hsc Hsg.
  unfold mc_step, bind; rewrite Hsc, Hsg.
  pose proof (broadcast_root_kept _
                (metropolis m (getEnergy m args new_sigma new_scale)
                   new_scale new_sigma)
                (metropolis_keeps_ranks m _ new_scale new_sigma) w2 Hroot)
    as Hroot'.
  destruct (metropolis m _ new_scale new_sigma w2) as [m1 w3].
  cbn [fst snd] in *.
  apply share_scale_on_root; exact Hroot'.
Qed.

(** ** Energies *)

(** *** Loops over the arguments as sums *)

Lemma fold_left_Rplus : forall (g : nat -> R) (l : list nat) (a : R),
  fold_left (fun ene i => ene + g i) l a = a + fold_right Rplus 0 (map g l).
Proof.
  intros g l; induction l as [|i l IH]; intro a; simpl.
  - ring.
  - rewrite IH; ring.
Qed.

Lemma map_seq_combine : forall (f : R -> R -> R) (xs ys : list R),
  length ys = length xs ->
  map (fun i => f (nth i xs 0) (nth i ys 0)) (seq 0 (length xs))
  = map (fun p => f (fst p) (snd p)) (combine xs ys).
Proof.
  intros f xs; induction xs as [|x xs IH]; intros ys Hlen; simpl.
  - reflexivity.
  - destruct ys as [|y ys]; [discriminate Hlen|]; simpl.
    f_equal.
    rewrite <- seq_shift, map_map; simpl.
    apply IH; simpl in Hlen; lia.
Qed.

Lemma map_seq_pairs : forall (g : nat -> R) (h : R * R -> R) (xs ys : list R),
  length ys = length xs ->
  (forall i, g i = h (nth i xs 0, nth i ys 0)) ->
  map g (seq 0 (length xs)) = map h (combine xs ys).
Proof.
  intros g h xs ys Hlen Hg.
  rewrite (map_ext g (fun i => h (nth i xs 0, nth i ys 0)) Hg).
  rewrite (map_seq_combine (fun a p => h (a, p)) xs ys Hlen).
  apply map_ext; intros [a p]; reflexivity.
Qed.

(** *** Collectives with a single participant *)

Lemma alone_in_rand : forall w, alone_in w -> alone_in (snd (rand_unit w)).
Proof. intros w H; exact H. Qed.

Lemma comm_Sum_alone : forall x w,
  alone_in w -> fst (comm_Sum x w) = x /\ alone_in (snd (comm_Sum x w)).
Proof.
  intros x w [H1 [H2 [H3 H4]]]; unfold comm_Sum, Sum; simpl.
  rewrite H2; simpl; repeat split; assumption.
Qed.

Lemma multi_sim_comm_Sum_alone : forall x w,
  alone_in w ->
  fst (multi_sim_comm_Sum x w) = x /\
  alone_in (snd (multi_sim_comm_Sum x w)).
Proof.
  intros x w [H1 [H2 [H3 H4]]]; unfold multi_sim_comm_Sum, Sum; simpl.
  rewrite H4; simpl; repeat split; assumption.
Qed.

Lemma comm_Bcast_alone : forall x w,
  alone_in w -> fst (comm_Bcast x w) = x /\ alone_in (snd (comm_Bcast x w)).
Proof.
  intros x w [H1 [H2 [H3 H4]]]; unfold comm_Bcast, Bcast; simpl.
  rewrite H1; simpl; repeat split; assumption.
Qed.

Lemma multi_sim_comm_Bcast_alone : forall x w,
  alone_in w ->
  fst (multi_sim_comm_Bcast x w) = x /\
  alone_in (snd (multi_sim_comm_Bcast x w)).
Proof.
  intros x w [H1 [H2 [H3 H4]]]; unfold multi_sim_comm_Bcast, Bcast; simpl.
  rewrite H3; simpl; repeat split; assumption.
Qed.

(** A buffer reduced entry by entry by an operation that is the identity
    under an invariant of the environment comes back as it was. *)
Lemma mapM_identity : forall (P : World -> Prop) (f : R -> M R),
  (forall x w, P w -> fst (f x w) = x /\ P (snd (f x w))) ->
  forall l w, P w -> fst (mapM f l w) = l /\ P (snd (mapM f l w)).
Proof.
  intros P f Hf l; induction l as [|x l IH]; intros w Hw; simpl.
  - split; [reflexivity | exact Hw].
  - unfold bind, ret.
    destruct (Hf x w Hw) as [Hx Hw1].
    destruct (f x w) as [y w1]; simpl in Hx, Hw1.
    destruct (IH w1 Hw1) as [Hl Hw2].
    destruct (mapM f l w1) as [ys w2]; simpl in *.
    subst; split; [reflexivity | exact Hw2].
Qed.

(** Run the next collective of a process that is alone. *)
Ltac run_alone :=
  match goal with
  | Hw : alone_in ?w |- context [mapM multi_sim_comm_Sum ?l ?w] =>
      let H1 := fresh "Hbuf" in
      let H2 := fresh "Hw" in
      destruct (mapM_identity alone_in _ multi_sim_comm_Sum_alone l w Hw)
        as [H1 H2];
      destruct (mapM multi_sim_comm_Sum l w) as [? ?];
      cbn [fst snd] in H1, H2; subst
  | Hw : alone_in ?w |- context [mapM comm_Sum ?l ?w] =>
      let H1 := fresh "Hbuf" in
      let H2 := fresh "Hw" in
      destruct (mapM_identity alone_in _ comm_Sum_alone l w Hw) as [H1 H2];
      destruct (mapM comm_Sum l w) as [? ?];
      cbn [fst snd] in H1, H2; subst
  | Hw : alone_in ?w |- context [multi_sim_comm_Sum ?x ?w] =>
      let H1 := fresh "Hbuf" in
      let H2 := fresh "Hw" in
      destruct (multi_sim_comm_Sum_alone x w Hw) as [H1 H2];
      destruct (multi_sim_comm_Sum x w) as [? ?];
      cbn [fst snd] in H1, H2; subst
  | Hw : alone_in ?w |- context [comm_Sum ?x ?w] =>
      let H1 := fresh "Hbuf" in
      let H2 := fresh "Hw" in
      destruct (comm_Sum_alone x w Hw) as [H1 H2];
      destruct (comm_Sum x w) as [? ?];
      cbn [fst snd] in H1, H2; subst
  | Hw : alone_in ?w |- context [multi_sim_comm_Bcast ?x ?w] =>
      let H1 := fresh "Hbuf" in
      let H2 := fresh "Hw" in
      destruct (multi_sim_comm_Bcast_alone x w Hw) as [H1 H2];
      destruct (multi_sim_comm_Bcast x w) as [? ?];
      cbn [fst snd] in H1, H2; subst
  | Hw : alone_in ?w |- context [comm_Bcast ?x ?w] =>
      let H1 := fresh "Hbuf" in
      let H2 := fresh "Hw" in
      destruct (comm_Bcast_alone x w Hw) as [H1 H2];
      destruct (comm_Bcast x w) as [? ?];
      cbn [fst snd] in H1, H2; subst
  end.

(** *** LTAIL *)

Lemma getEnergySPE_sum : forall m args sigma scale,
  length (parameters m) = length args ->
  ndata_ m = Z.of_nat (length args) ->
  getEnergySPE m args sigma scale
  = kbt_ m * ltail_energy sqrt2_div_pi args (parameters m) sigma scale
               (sigma_mean_ m).
Proof.
  intros m args sigma scale Hlen Hn; unfold getEnergySPE, ltail_energy.
  rewrite fold_left_Rplus, Hn, <- INR_IZR_INZ, Rplus_0_l.
  replace (sigma ^ 2 + sigma_mean_ m ^ 2)
    with (sigma * sigma + sigma_mean_ m * sigma_mean_ m) by ring.
  set (s := sqrt _).
  do 3 f_equal.
  apply map_seq_pairs; [exact Hlen|].
  intro i; unfold ltail_term, getArgument; simpl.
  do 2 f_equal; [ring|].
  do 3 f_equal; [ring|].
  f_equal; ring.
Qed.

(** With one rank and one replica the two reductions of the SPE path add
    nothing: the energy is the local sum plus the correction. *)
Lemma getEnergyForceSPE_alone : forall m args w,
  alone_in w ->
  length (parameters m) = length args ->
  ndata_ m = Z.of_nat (length args) ->
  fst (fst (getEnergyForceSPE m args w))
  = ltail_energy sqrt2_div_pi args (parameters m) (nth 0 (sigma_ m) 0)
      (scale_ m) (sigma_mean_ m).
Proof.
  intros m args w Hw Hlen Hn.
  unfold getEnergyForceSPE, bind, ret, comm_Get_rank.
  destruct Hw as [Hr Hrest]; rewrite Hr.
  change (0 =? 0)%nat with true; cbv beta iota.
  assert (Hw : alone_in w) by (split; assumption).
  repeat run_alone.
  cbn [fst snd]; unfold ltail_energy.
  rewrite fold_left_Rplus, Hn, <- INR_IZR_INZ, Rplus_0_l.
  replace (nth 0 (sigma_ m) 0 ^ 2 + sigma_mean_ m ^ 2)
    with (nth 0 (sigma_ m) 0 * nth 0 (sigma_ m) 0
          + sigma_mean_ m * sigma_mean_ m) by ring.
  set (s := sqrt _).
  do 2 f_equal.
  apply map_seq_pairs; [exact Hlen|].
  intro i; unfold ltail_term, getArgument; cbn [fst snd].
  set (dev := scale_ m * nth i args 0 - nth i (parameters m) 0).
  replace (0.5 * dev ^ 2 + s ^ 2) with (0.5 * dev * dev + s * s) by ring.
  replace (sigma_mean_ m ^ 2) with (sigma_mean_ m * sigma_mean_ m) by ring.
  f_equal; unfold Rdiv; ring.
Qed.

(** C3 (as amended).  For LTAIL the sampler's [getEnergySPE] returns kT
    times, and the force engine's [getEnergyForceSPE] with one rank and one
    replica returns exactly, the sum over the arguments of
    [log(2*a2/(1 - exp(-a2/sigma_mean^2)))] plus the correction
    [log(s) - N_arg*log(c*s)] counted once, where the constant [c] is the
    member [sqrt2_div_pi = 0.45015815807855]. *)
Theorem ltail_energy_formula : forall m args w sigma scale,
  alone_in w ->
  length (parameters m) = length args ->
  ndata_ m = Z.of_nat (length args) ->
  getEnergySPE m args sigma scale
    = kbt_ m * ltail_energy sqrt2_div_pi args (parameters m) sigma scale
                 (sigma_mean_ m) /\
  fst (fst (getEnergyForceSPE m args w))
    = ltail_energy sqrt2_div_pi args (parameters m) (nth 0 (sigma_ m) 0)
        (scale_ m) (sigma_mean_ m).
Proof.
  intros m args w sigma scale Hw Hlen Hn; split.
  - apply getEnergySPE_sum; assumption.
  - apply getEnergyForceSPE_alone; assumption.
Qed.

Lemma world_alone_alone : alone_in world_alone.
Proof. repeat split. Qed.

Lemma ltail_energy_formula_witness :
  alone_in world_alone /\
  length (parameters ltail_state) = length [0] /\
  ndata_ ltail_state = Z.of_nat (length [0]) /\
  getEnergySPE ltail_state [0] 0 1
    = kbt_ ltail_state
      * ltail_energy sqrt2_div_pi [0] (parameters ltail_state) 0 1
          (sigma_mean_ ltail_state) /\
  fst (fst (getEnergyForceSPE ltail_state [0] world_alone))
    = ltail_energy sqrt2_div_pi [0] (parameters ltail_state)
        (nth 0 (sigma_ ltail_state) 0) (scale_ ltail_state)
        (sigma_mean_ ltail_state).
Proof.
  split; [exact world_alone_alone|].
  split; [reflexivity|].
  split; [reflexivity|].
  exact (ltail_energy_formula ltail_state [0] world_alone 0 1
           world_alone_alone eq_refl eq_refl).
Defined.

(** The constant of the correction term is not [sqrt(2/pi)]. *)
Lemma sqrt2_div_pi_below : sqrt2_div_pi < sqrt (2 / PI).
Proof.
  assert (Hpi : 0 < PI) by exact PI_RGT_0.
  assert (H4 : PI <= 4) by exact PI_4.
  assert (Hq : 1 / 4 <= 2 / PI).
  { apply (Rmult_le_reg_r PI); [exact Hpi|].
    replace (2 / PI * PI) with 2 by (field; lra); lra. }
  apply Rlt_le_trans with (sqrt (1 / 4)).
  - replace (1 / 4) with ((1 / 2) * (1 / 2)) by lra.
    rewrite sqrt_square by lra; unfold sqrt2_div_pi; lra.
  - apply sqrt_le_1_alt; exact Hq.
Qed.

(** C3 as stated fails: with the constant [sqrt(2/pi)] the formula is not
    the value of either function, already for one datum that equals its
    reference value at [sigma = 0], [sigma_mean = 1], [scale = 1],
    [kT = 1]. *)
Lemma ltail_energy_constant_differs :
  fst (fst (getEnergyForceSPE ltail_state [0] world_alone))
    <> ltail_energy (sqrt (2 / PI)) [0] (parameters ltail_state)
         (nth 0 (sigma_ ltail_state) 0) (scale_ ltail_state)
         (sigma_mean_ ltail_state) /\
  getEnergySPE ltail_state [0] 0 1
    <> ltail_energy (sqrt (2 / PI)) [0] (parameters ltail_state) 0 1
         (sigma_mean_ ltail_state).
Proof.
  rewrite (getEnergyForceSPE_alone ltail_state [0] world_alone
             world_alone_alone eq_refl eq_refl).
  rewrite (getEnergySPE_sum ltail_state [0] 0 1 eq_refl eq_refl).
  unfold ltail_energy; simpl.
  replace (0 * (0 * 1) + 1 * (1 * 1)) with 1 by ring.
  rewrite sqrt_1, !Rmult_1_r.
  assert (Hlt : ln sqrt2_div_pi < ln (sqrt (2 / PI))).
  { apply ln_increasing; [unfold sqrt2_div_pi; lra | exact sqrt2_div_pi_below]. }
  split; intro Heq; lra.
Qed.

(** *** GAUSS and MGAUSS *)

Lemma nth_map_inside : forall (f : R -> R) (l : list R) (k : nat),
  (k < length l)%nat -> nth k (map f l) 0 = f (nth k l 0).
Proof.
  intros f l k Hk.
  rewrite (nth_indep (map f l) 0 (f 0)) by (rewrite length_map; exact Hk).
  apply map_nth.
Qed.

(** The index [sel_sigma] of the force engine stays inside [sigma_]. *)
Lemma sel_sigma_inside : forall m args i,
  sized m args -> (i < length args)%nat ->
  ((if noise_eqb (noise_type_ m) MGAUSS then i else O) < length (sigma_ m))%nat.
Proof.
  intros m args i [_ [_ Hs]] Hi; rewrite Hs.
  destruct (noise_eqb (noise_type_ m) MGAUSS); lia.
Qed.

(** With one rank and one replica the GJE path of the force engine uses
    [inv_s2 = 1/ss] as computed locally. *)
Lemma getEnergyForceGJE_alone : forall m args w,
  alone_in w ->
  let smean2 := sigma_mean_ m * sigma_mean_ m in
  let ss := map (fun sigma_i => sigma_i * sigma_i + smean2) (sigma_ m) in
  let inv_s2 := map (fun ss_i => 1 / ss_i) ss in
  let dev i := scale_ m * getArgument args i - nth i (parameters m) 0 in
  let sel_sigma i := if noise_eqb (noise_type_ m) MGAUSS then i else O in
  fst (getEnergyForceGJE m args w) =
    (fold_left (fun ene i =>
        ene + (0.5 * dev i * dev i * nth (sel_sigma i) inv_s2 0
               + ln (nth (sel_sigma i) ss 0 * sqrt2pi)))
       (seq 0 (length args)) 0,
     setOutputForces m (length args) (fun i =>
        - kbt_ m * dev i * scale_ m * nth (sel_sigma i) inv_s2 0))
  /\ alone_in (snd (getEnergyForceGJE m args w)).
Proof.
  intros m args w Hw; cbv zeta.
  unfold getEnergyForceGJE, bind, ret, comm_Get_rank.
  destruct Hw as [Hr Hrest]; rewrite Hr.
  change (0 =? 0)%nat with true; cbv beta iota.
  assert (Hw : alone_in w) by (split; assumption).
  repeat run_alone.
  split; [reflexivity | assumption].
Qed.

Lemma GJE_energies_agree : forall m args w,
  alone_in w -> sized m args ->
  fst (fst (getEnergyForceGJE m args w)) * kbt_ m
  = getEnergyGJE m args (sigma_ m) (scale_ m).
Proof.
  intros m args w Hw Hsz.
  rewrite (proj1 (getEnergyForceGJE_alone m args w Hw)); cbn [fst].
  unfold getEnergyGJE.
  rewrite Rmult_comm; f_equal.
  rewrite !fold_left_Rplus; do 2 f_equal.
  apply map_ext_in; intros i Hi.
  apply in_seq in Hi.
  assert (Hsel := sel_sigma_inside m args i Hsz (proj2 Hi)).
  rewrite nth_map_inside by (rewrite length_map; exact Hsel).
  rewrite nth_map_inside by exact Hsel.
  destruct (noise_eqb (noise_type_ m) MGAUSS); unfold Rdiv; ring.
Qed.

(** C9.  With one rank per replica and one replica, for every state whose
    vectors have the sizes the constructor gives them (GAUSS, MGAUSS alike),
    the energy the force engine [getEnergyForceGJE] returns, times kT, is
    the sampler's [getEnergyGJE] at the current sigma and scale. *)
Theorem GJE_force_energy_is_sampler_energy : forall m args w,
  alone_in w -> sized m args ->
  fst (fst (getEnergyForceGJE m args w)) * kbt_ m
  = getEnergyGJE m args (sigma_ m) (scale_ m).
Proof. exact GJE_energies_agree. Qed.

Lemma gauss_state_sized : sized gauss_state [0].
Proof. repeat split. Qed.

Lemma GJE_force_energy_is_sampler_energy_witness :
  alone_in world_alone /\ sized gauss_state [0] /\
  fst (fst (getEnergyForceGJE gauss_state [0] world_alone))
  * kbt_ gauss_state
  = getEnergyGJE gauss_state [0] (sigma_ gauss_state) (scale_ gauss_state).
Proof.
  split; [exact world_alone_alone|].
  split; [exact gauss_state_sized|].
  exact (GJE_force_energy_is_sampler_energy gauss_state [0] world_alone
           world_alone_alone gauss_state_sized).
Defined.

(** ** The fixed-sigma GAUSS scenario *)

Lemma walk_zero : forall cur r, walk cur 0 r = cur.
Proof. intros cur r; unfold walk; ring. Qed.

Lemma mapM_invariant : forall (A B : Type) (P : World -> Prop) (f : A -> M B),
  (forall x w, P w -> P (snd (f x w))) ->
  forall l w, P w -> P (snd (mapM f l w)).
Proof.
  intros A B P f Hf l; induction l as [|x l IH]; intros w Hw; simpl.
  - exact Hw.
  - unfold bind, ret.
    pose proof (Hf x w Hw) as Hw1.
    destruct (f x w) as [y w1]; simpl in Hw1.
    pose proof (IH w1 Hw1) as Hw2.
    destruct (mapM f l w1) as [ys w2]; exact Hw2.
Qed.

Section FixedGauss.

(** The sigma of the scenario. *)
Variable sg : R.

Lemma fixed_gauss_transfer : forall m m',
  same_setup m m' -> sigma_ m' = sigma_ m -> scale_ m' = scale_ m ->
  fixed_gauss sg m -> fixed_gauss sg m'.
Proof.
  unfold same_setup, fixed_gauss; intros m m' Hs Hsig Hsc Hf.
  repeat match goal with H : _ /\ _ |- _ => destruct H end.
  repeat match goal with H : _ = _ |- _ => rewrite H end.
  repeat split; try assumption; try reflexivity.
Qed.

Lemma propose_scale_fixed : forall m w,
  alone_in w -> fixed_gauss sg m ->
  fst (propose_scale m w) = scale_ m /\ alone_in (snd (propose_scale m w)).
Proof.
  intros m w Hw [_ [_ [_ [_ [_ [Hsc [Hdo _]]]]]]].
  unfold propose_scale.
  destruct (doscale_ m) eqn:Ed.
  - destruct Hdo as [Hc|[HD Hb]]; [discriminate Hc|].
    unfold bind, ret, comm_Get_rank.
    pose proof (alone_in_rand w Hw) as Hw1.
    destruct (rand_unit w) as [r1 w1]; cbn [snd] in Hw1.
    destruct Hw1 as [Hr Hrest]; rewrite Hr.
    change (0 =? 0)%nat with true; cbv beta iota.
    assert (Hw1 : alone_in w1) by (split; assumption).
    repeat run_alone; cbn [fst snd].
    split; [|assumption].
    rewrite HD, walk_zero, Hsc; apply reflect_inside; exact Hb.
  - unfold ret; simpl; split; [reflexivity | exact Hw].
Qed.

Lemma propose_sigma_fixed : forall m w,
  alone_in w -> fixed_gauss sg m ->
  fst (propose_sigma m w) = sigma_ m /\ alone_in (snd (propose_sigma m w)).
Proof.
  intros m w Hw [_ [_ [Hsig [Hb [HD _]]]]].
  unfold propose_sigma; rewrite Hsig, HD; simpl.
  unfold bind, ret; simpl.
  split; [|exact Hw].
  rewrite walk_zero, reflect_inside by exact Hb; reflexivity.
Qed.

Lemma metropolis_same_proposal : forall m e w,
  alone_in w ->
  let r := metropolis m e (scale_ m) (sigma_ m) w in
  sigma_ (fst r) = sigma_ m /\ scale_ (fst r) = scale_ m /\
  alone_in (snd r).
Proof.
  intros m e w Hw; unfold metropolis, bind, ret, rand_unit; cbv zeta.
  repeat compare_R; simpl; repeat split; apply Hw.
Qed.

Lemma share_scale_alone : forall m w,
  alone_in w ->
  sigma_ (fst (share_scale m w)) = sigma_ m /\
  scale_ (fst (share_scale m w)) = scale_ m /\
  alone_in (snd (share_scale m w)).
Proof.
  intros m w Hw; unfold share_scale.
  destruct (doscale_ m).
  - unfold bind, ret, comm_Get_rank.
    destruct Hw as [Hr Hrest]; rewrite Hr.
    change (0 =? 0)%nat with true; cbv beta iota.
    assert (Hw : alone_in w) by (split; assumption).
    repeat run_alone; cbn [fst snd]; simpl.
    split; [reflexivity | split; [reflexivity | assumption]].
  - unfold ret; simpl; repeat split; apply Hw.
Qed.

Lemma mc_step_fixed : forall m args w m' w',
  alone_in w -> fixed_gauss sg m ->
  mc_step m args w = (m', w') ->
  fixed_gauss sg m' /\ alone_in w'.
Proof.
  intros m args w m' w' Hw Hf Hstep.
  pose proof (mc_step_frame m args w m' w' Hstep) as [Hset _].
  unfold mc_step, bind in Hstep.
  destruct (propose_scale_fixed m w Hw Hf) as [Hsc Hw1].
  destruct (propose_scale m w) as [new_scale w1]; cbn [fst snd] in Hsc, Hw1.
  destruct (propose_sigma_fixed m w1 Hw1 Hf) as [Hsg Hw2].
  destruct (propose_sigma m w1) as [new_sigma w2]; cbn [fst snd] in Hsg, Hw2.
  subst new_scale new_sigma.
  pose proof (metropolis_same_proposal m
                (getEnergy m args (sigma_ m) (scale_ m)) w2 Hw2) as Hm.
  cbv zeta in Hm.
  destruct (metropolis m _ (scale_ m) (sigma_ m) w2) as [m1 w3].
  cbn [fst snd] in Hm; destruct Hm as [Hsg1 [Hsc1 Hw3]].
  pose proof (share_scale_alone m1 w3 Hw3) as Hs.
  rewrite Hstep in Hs; cbn [fst snd] in Hs; destruct Hs as [Hsg2 [Hsc2 Hw4]].
  split; [|exact Hw4].
  apply (fixed_gauss_transfer m m' Hset); [congruence | congruence | exact Hf].
Qed.

Lemma mc_loop_fixed : forall n m args w m' w',
  alone_in w -> fixed_gauss sg m ->
  mc_loop n m args w = (m', w') ->
  fixed_gauss sg m' /\ alone_in w'.
Proof.
  intro n; induction n as [|n IH]; intros m args w m' w' Hw Hf; simpl.
  - unfold ret; intro H; inversion H; subst; split; assumption.
  - unfold bind; destruct (mc_step m args w) as [m1 w1] eqn:Hs.
    apply mc_step_fixed in Hs; [|assumption|assumption].
    destruct Hs as [Hf1 Hw1]; apply IH; assumption.
Qed.

Lemma doMonteCarlo_fixed : forall m args w m' w',
  alone_in w -> fixed_gauss sg m ->
  doMonteCarlo m args w = (m', w') ->
  fixed_gauss sg m' /\ alone_in w'.
Proof.
  intros m args w m' w' Hw Hf; unfold doMonteCarlo, bind, ret.
  destruct (mc_loop _ _ args w) as [m1 w1] eqn:Hl.
  intro H; inversion H; subst; clear H.
  apply mc_loop_fixed in Hl; [| exact Hw |].
  - destruct Hl as [Hf1 Hw1]; split; [|exact Hw1].
    destruct (save_sampling_frame m1) as [Hs [_ [_ [Hsc [Hsg _]]]]].
    apply (fixed_gauss_transfer m1 _ Hs Hsg Hsc Hf1).
  - destruct (seed_old_energy_frame m args) as [Hs _].
    apply (fixed_gauss_transfer m _ Hs); [| | exact Hf];
      unfold seed_old_energy; destruct (MCfirst_ m =? -1)%Z; reflexivity.
Qed.

(** C4.  In the fixed-sigma GAUSS scenario with one rank and one replica,
    whatever the step, the exchange flag and the random draws, [calculate]
    publishes the bias [gauss_bias kT sigma sigma_mean x], a function of the
    argument [x] alone, and writes the force
    [-kT * x / (sigma^2 + sigma_mean^2)]; it leaves the scenario in place, so
    the same holds at every later step. *)
Theorem gauss_scenario_bias_and_force : forall m x step exchange w,
  alone_in w -> fixed_gauss sg m ->
  exists m' w',
    calculate m [x] step exchange w = Some (m', w') /\
    valueBias m' = gauss_bias (kbt_ m) sg (sigma_mean_ m) x /\
    outputForces m'
      = [- kbt_ m * x / (sg * sg + sigma_mean_ m * sigma_mean_ m)] /\
    fixed_gauss sg m' /\ kbt_ m' = kbt_ m /\
    sigma_mean_ m' = sigma_mean_ m /\ alone_in w'.
Proof.
  intros m x step exchange w Hw Hf.
  assert (Hstride : MCstride_ m <> 0%Z) by apply Hf.
  unfold calculate.
  apply Z.eqb_neq in Hstride; rewrite Hstride.
  (* the sampler, when it runs, keeps the scenario *)
  assert (Hmc : forall m1 w1,
            (if (Z.rem step (MCstride_ m) =? 0)%Z && negb exchange
             then doMonteCarlo m [x] w else (m, w)) = (m1, w1) ->
            fixed_gauss sg m1 /\ alone_in w1 /\ same_setup m m1).
  { intros m1 w1 H.
    pose proof (sampler_frame m [x] step exchange w m1 w1 H) as [Hs _].
    destruct ((Z.rem step (MCstride_ m) =? 0)%Z && negb exchange).
    - destruct (doMonteCarlo_fixed m [x] w m1 w1 Hw Hf H); auto.
    - inversion H; subst; auto. }
  destruct (if (Z.rem step (MCstride_ m) =? 0)%Z && negb exchange
            then doMonteCarlo m [x] w else (m, w)) as [m1 w1].
  destruct (Hmc m1 w1 eq_refl) as [Hf1 [Hw1 Hs1]]; clear Hmc.
  cbv zeta.
  remember (set_valueAccept (record_first m1 step)
              (accept (record_first m1 step) step)) as m2 eqn:Em2.
  assert (Hs2 : same_setup m1 m2).
  { destruct (record_first_frame m1 step) as [Hr _].
    eapply same_setup_trans; [exact Hr | subst m2; frame_setters]. }
  assert (Hf2 : fixed_gauss sg m2).
  { apply (fixed_gauss_transfer m1 m2 Hs2); [| | exact Hf1];
      subst m2; unfold record_first; destruct (MCfirst_ m1 =? -1)%Z;
      reflexivity. }
  pose proof (same_setup_trans m m1 m2 Hs1 Hs2) as Hs.
  pose proof Hf2 as [Hnoise [Hpar [Hsig [_ [_ [Hsc _]]]]]].
  rewrite Hnoise.
  destruct (getEnergyForceGJE_alone m2 [x] w1 Hw1) as [Hval Hw2].
  destruct (getEnergyForceGJE m2 [x] w1) as [em w2].
  cbn [fst snd] in Hval, Hw2; subst em.
  eexists; eexists; split; [reflexivity|].
  unfold same_setup in Hs.
  destruct Hs as [_ [_ [_ [_ [_ [_ [_ [_ [_ [Hsm [Hk _]]]]]]]]]]].
  cbn [fst snd]; unfold setOutputForces.
  split; [|split; [|split; [|split; [|split]]]].
  - simpl; rewrite Hnoise, Hpar, Hsig, Hsc, Hk, Hsm; simpl.
    unfold gauss_bias, getArgument; simpl.
    f_equal; unfold Rdiv; ring.
  - simpl; rewrite Hnoise, Hpar, Hsig, Hsc, Hk, Hsm; simpl.
    unfold getArgument; simpl.
    f_equal; unfold Rdiv; ring.
  - apply (fixed_gauss_transfer m2); [frame_setters | | | exact Hf2];
      reflexivity.
  - exact Hk.
  - exact Hsm.
  - exact Hw2.
Qed.

End FixedGauss.

Lemma gauss_state_fixed : fixed_gauss 1 gauss_state.
Proof.
  unfold fixed_gauss, gauss_state; simpl.
  repeat split; try reflexivity; try lra; try (left; reflexivity).
  discriminate.
Qed.

Lemma gauss_scenario_bias_and_force_witness :
  alone_in world_alone /\ fixed_gauss 1 gauss_state /\
  exists m' w',
    calculate gauss_state [3] 0 false world_alone = Some (m', w') /\
    valueBias m'
      = gauss_bias (kbt_ gauss_state) 1 (sigma_mean_ gauss_state) 3 /\
    outputForces m'
      = [- kbt_ gauss_state * 3
         / (1 * 1 + sigma_mean_ gauss_state * sigma_mean_ gauss_state)] /\
    fixed_gauss 1 m' /\ kbt_ m' = kbt_ gauss_state /\
    sigma_mean_ m' = sigma_mean_ gauss_state /\ alone_in w'.
Proof.
  split; [exact world_alone_alone|].
  split; [exact gauss_state_fixed|].
  exact (gauss_scenario_bias_and_force 1 gauss_state 3 0 false world_alone
           world_alone_alone gauss_state_fixed).
Defined.

(** ** Seeding of [old_energy] *)

(** On a fresh object the sampler's first act is to store the energy of the
    current state; that changes neither the acceptance counter nor the
    members the trial count is computed from. *)
Lemma seed_old_energy_fresh : forall m args,
  MCfirst_ m = (-1)%Z ->
  old_energy (seed_old_energy m args)
    = getEnergy m args (sigma_ m) (scale_ m) /\
  MCaccept_ (seed_old_energy m args) = MCaccept_ m /\
  MCfirst_ (seed_old_energy m args) = MCfirst_ m /\
  MCstride_ (seed_old_energy m args) = MCstride_ m.
Proof.
  intros m args H; unfold seed_old_energy; rewrite H; simpl.
  repeat split; exact H.
Qed.

(** Once [MCfirst_] holds a step the sampler never seeds. *)
Lemma seed_old_energy_recorded : forall m args,
  MCfirst_ m <> (-1)%Z -> seed_old_energy m args = m.
Proof.
  intros m args H; unfold seed_old_energy.
  apply Z.eqb_neq in H; rewrite H; reflexivity.
Qed.

Lemma ln_2_sqrt2pi_pos : 0 < ln ((1 * 1 + 1 * 1) * sqrt2pi).
Proof.
  rewrite <- ln_1; apply ln_increasing; unfold sqrt2pi; lra.
Qed.

Lemma exp_neg_lt_1 : forall d, 0 < d -> exp (- d) < 1.
Proof.
  intros d Hd; rewrite <- exp_0; apply exp_increasing; lra.
Qed.

(** C6, evaluated on a restart.  The state is fresh ([MCfirst_ = -1],
    [old_energy = 0]), the stride is 2 and the run resumes at step 1, which
    is not a sampler step.  That call does not run the sampler (no draw is
    consumed) but records [MCfirst_ = 1].  Step 2 is then the first call of
    [doMonteCarlo]: its seeding test finds [MCfirst_ <> -1] and leaves
    [old_energy] at 0, which is not the energy of the current state; the
    proposal, equal to the current state since [Dsigma = 0], is compared
    with that 0 and, the draw being 1, rejected. *)
Theorem restart_skips_seeding :
  exists m1 w1,
    calculate gauss_state [0] 1 false world_alone = Some (m1, w1) /\
    rand_calls w1 = rand_calls world_alone /\
    MCfirst_ m1 = 1%Z /\ old_energy m1 = 0 /\
    sampler_step m1 2 false = true /\
    seed_old_energy m1 [0] = m1 /\
    old_energy (seed_old_energy m1 [0])
      <> getEnergy m1 [0] (sigma_ m1) (scale_ m1) /\
    MCaccept_ (fst (doMonteCarlo m1 [0] w1)) = 0%Z.
Proof.
  eexists; eexists; split; [reflexivity|].
  pose proof ln_2_sqrt2pi_pos as Hpos.
  do 5 (split; [reflexivity|]).
  split.
  - unfold getEnergy, getEnergyGJE, getArgument; simpl.
    set (L := ln _) in *.
    replace (1 * (0 + (0.5 * (1 * 0 - 0) * (1 * 0 - 0) / (1 * 1 + 1 * 1) + L)))
      with L by (unfold Rdiv; ring).
    lra.
  - unfold doMonteCarlo, seed_old_energy; simpl.
    unfold bind, ret, mc_step, propose_scale, propose_sigma, bind, ret; simpl.
    unfold bind, ret, rand_unit; simpl.
    rewrite walk_zero, reflect_inside by lra.
    unfold metropolis, getEnergy, getEnergyGJE, getArgument, bind, ret,
      rand_unit; simpl.
    set (L := ln _) in *.
    replace (1 * (0 + (0.5 * (1 * 0 - 0) * (1 * 0 - 0) / (1 * 1 + 1 * 1) + L)))
      with L by (unfold Rdiv; ring).
    replace ((L - 0) / 1) with L by (unfold Rdiv; rewrite Rinv_1; ring).
    pose proof (exp_neg_lt_1 L Hpos) as Hexp.
    compare_R; [lra|].
    match goal with
    | |- context [Rlt_dec ?a ?b] => destruct (Rlt_dec a b) as [Hr|Hr]
    end; [simpl in Hr; lra | reflexivity].
Qed.

(** The same object driven from step 0: the sampler runs at once, seeds
    [old_energy] with the energy of the current state, and the same
    proposal is accepted without a draw. *)
Lemma fresh_start_accepts :
  MCaccept_ (fst (doMonteCarlo gauss_state [0] world_alone)) = 1%Z /\
  rand_calls (snd (doMonteCarlo gauss_state [0] world_alone)) = 1%nat.
Proof.
  unfold doMonteCarlo, seed_old_energy; simpl.
  unfold bind, ret, mc_step, propose_scale, propose_sigma, bind, ret; simpl.
  unfold bind, ret, rand_unit; simpl.
  rewrite walk_zero, reflect_inside by lra.
  unfold metropolis, getEnergy, getEnergyGJE, getArgument, bind, ret,
    rand_unit; simpl.
  set (E := 1 * _).
  replace ((E - E) / 1) with 0 by (unfold Rdiv; ring).
  compare_R; [|lra].
  split; reflexivity.
Qed.

(** * Further properties of the restraint *)

(** ** The environment across the member functions *)

Lemma same_machine_refl : forall w, same_machine w w.
Proof. intro w; unfold same_machine; repeat split. Qed.

Lemma same_machine_trans : forall w1 w2 w3,
  same_machine w1 w2 -> same_machine w2 w3 -> same_machine w1 w3.
Proof.
  unfold same_machine; intros w1 w2 w3 H12 H23.
  repeat match goal with H : _ /\ _ |- _ => destruct H end.
  repeat split; congruence.
Qed.

Lemma keeps_ret : forall (A : Type) (a : A), keeps_machine (ret a).
Proof. intros A a w; apply same_machine_refl. Qed.

Lemma keeps_bind : forall (A B : Type) (c : M A) (k : A -> M B),
  keeps_machine c -> (forall a, keeps_machine (k a)) ->
  keeps_machine (bind c k).
Proof.
  intros A B c k Hc Hk w; unfold bind.
  specialize (Hc w); destruct (c w) as [a w1]; cbn [snd] in Hc.
  eapply same_machine_trans; [exact Hc | apply Hk].
Qed.

Lemma keeps_rand_unit : keeps_machine rand_unit.
Proof. intro w; unfold same_machine; repeat split. Qed.

Lemma keeps_comm_Get_rank : keeps_machine comm_Get_rank.
Proof. intro w; apply same_machine_refl. Qed.

Lemma keeps_comm_Sum : forall x, keeps_machine (comm_Sum x).
Proof. intros x w; unfold same_machine; repeat split. Qed.

Lemma keeps_comm_Bcast : forall x, keeps_machine (comm_Bcast x).
Proof. intros x w; unfold same_machine; repeat split. Qed.

Lemma keeps_multi_sim_comm_Sum : forall x, keeps_machine (multi_sim_comm_Sum x).
Proof. intros x w; unfold same_machine; repeat split. Qed.

Lemma keeps_multi_sim_comm_Bcast : forall x,
  keeps_machine (multi_sim_comm_Bcast x).
Proof. intros x w; unfold same_machine; repeat split. Qed.

Lemma keeps_mapM : forall (A B : Type) (f : A -> M B) (l : list A),
  (forall x, keeps_machine (f x)) -> keeps_machine (mapM f l).
Proof.
  intros A B f l Hf; induction l as [|x l IH]; simpl.
  - apply keeps_ret.
  - apply keeps_bind; [apply Hf|]; intro y.
    apply keeps_bind; [exact IH|]; intro ys; apply keeps_ret.
Qed.

Lemma keeps_if : forall (A : Type) (b : bool) (c1 c2 : M A),
  keeps_machine c1 -> keeps_machine c2 ->
  keeps_machine (if b then c1 else c2).
Proof. intros A b c1 c2 H1 H2; destruct b; assumption. Qed.

Create HintDb machine.
#[local] Hint Resolve keeps_ret keeps_rand_unit keeps_comm_Get_rank
  keeps_comm_Sum keeps_comm_Bcast keeps_multi_sim_comm_Sum
  keeps_multi_sim_comm_Bcast keeps_mapM keeps_if : machine.

Ltac keeps :=
  repeat first
    [ apply keeps_bind; [|intro]
    | apply keeps_if
    | apply keeps_mapM; intro
    | solve [auto with machine] ].

Lemma keeps_propose_scale : forall m, keeps_machine (propose_scale m).
Proof. intro m; unfold propose_scale; keeps. Qed.

Lemma keeps_propose_sigma : forall m, keeps_machine (propose_sigma m).
Proof. intro m; unfold propose_sigma; keeps. Qed.

Lemma keeps_metropolis : forall m e sc sg,
  keeps_machine (metropolis m e sc sg).
Proof.
  intros m e sc sg; unfold metropolis; cbv zeta.
  destruct (Rle_dec _ 0); [apply keeps_ret|].
  apply keeps_bind; [apply keeps_rand_unit|]; intro s.
  destruct (Rlt_dec s _); apply keeps_ret.
Qed.

Lemma keeps_share_scale : forall m, keeps_machine (share_scale m).
Proof. intro m; unfold share_scale; keeps. Qed.

#[local] Hint Resolve keeps_propose_scale keeps_propose_sigma
  keeps_metropolis keeps_share_scale : machine.

Lemma keeps_mc_step : forall m args, keeps_machine (mc_step m args).
Proof. intros m args; unfold mc_step; keeps. Qed.

Lemma keeps_mc_loop : forall n m args, keeps_machine (mc_loop n m args).
Proof.
  induction n as [|n IH]; intros m args; simpl.
  - apply keeps_ret.
  - apply keeps_bind; [apply keeps_mc_step | intro m'; apply IH].
Qed.

Lemma keeps_doMonteCarlo : forall m args, keeps_machine (doMonteCarlo m args).
Proof.
  intros m args; unfold doMonteCarlo.
  apply keeps_bind; [apply keeps_mc_loop | intro; apply keeps_ret].
Qed.

Lemma keeps_getEnergyForceGJE : forall m args,
  keeps_machine (getEnergyForceGJE m args).
Proof. intros m args; unfold getEnergyForceGJE; keeps. Qed.

Lemma keeps_getEnergyForceSPE : forall m args,
  keeps_machine (getEnergyForceSPE m args).
Proof. intros m args; unfold getEnergyForceSPE; keeps. Qed.

Lemma rand_ok_same_machine : forall w w',
  same_machine w w' -> rand_ok w -> rand_ok w'.
Proof.
  intros w w' [H1 [H2 _]] [Hm Hs]; unfold rand_ok; rewrite H1, H2.
  split; assumption.
Qed.

Lemma calculate_machine : forall m args step exchange w m' w',
  calculate m args step exchange w = Some (m', w') -> same_machine w w'.
Proof.
  intros m args step exchange w m' w'; unfold calculate.
  destruct (MCstride_ m =? 0)%Z; [discriminate|].
  assert (Hmc : same_machine w
            (snd (if (Z.rem step (MCstride_ m) =? 0)%Z && negb exchange
                  then doMonteCarlo m args w else (m, w)))).
  { destruct ((Z.rem step (MCstride_ m) =? 0)%Z && negb exchange).
    - apply keeps_doMonteCarlo.
    - apply same_machine_refl. }
  destruct (if (Z.rem step (MCstride_ m) =? 0)%Z && negb exchange
            then doMonteCarlo m args w else (m, w)) as [m1 w1].
  cbn [snd] in Hmc; cbv zeta.
  set (m2 := set_valueAccept _ _).
  assert (Hf : same_machine w1
            (snd (match noise_type_ m2 with
                  | LTAIL => getEnergyForceSPE m2 args w1
                  | _ => getEnergyForceGJE m2 args w1
                  end))).
  { destruct (noise_type_ m2);
      [apply keeps_getEnergyForceGJE | apply keeps_getEnergyForceGJE
      | apply keeps_getEnergyForceSPE]. }
  destruct (match noise_type_ m2 with
            | LTAIL => getEnergyForceSPE m2 args w1
            | _ => getEnergyForceGJE m2 args w1
            end) as [em w2].
  cbn [snd] in Hf.
  intro H; inversion H; subst.
  eapply same_machine_trans; eassumption.
Qed.

Lemma run_machine : forall steps m w m' w',
  run m steps w = Some (m', w') -> same_machine w w'.
Proof.
  induction steps as [|[[args step] exchange] rest IH]; intros m w m' w'; simpl.
  - intro H; inversion H; subst; apply same_machine_refl.
  - destruct (calculate m args step exchange w) as [[m1 w1]|] eqn:Hc;
      [|discriminate].
    intro H; apply IH in H; apply calculate_machine in Hc.
    eapply same_machine_trans; eassumption.
Qed.

(** ** The sampler across steps *)

Lemma metropolis_cases : forall m e sc sg w m' w',
  metropolis m e sc sg w = (m', w') ->
  m' = accept_move m e sc sg \/ m' = m.
Proof.
  intros m e sc sg w m' w'; unfold metropolis, bind, ret; cbv zeta.
  destruct (Rle_dec _ 0).
  - intro H; inversion H; auto.
  - destruct (rand_unit w) as [s w1].
    destruct (Rlt_dec s _); intro H; inversion H; auto.
Qed.

(** One inner step, cut into its four parts. *)
Lemma mc_step_parts : forall m args w m' w',
  mc_step m args w = (m', w') ->
  exists new_scale w1 new_sigma w2 m1 w3,
    propose_scale m w = (new_scale, w1) /\
    propose_sigma m w1 = (new_sigma, w2) /\
    metropolis m (getEnergy m args new_sigma new_scale) new_scale new_sigma w2
      = (m1, w3) /\
    share_scale m1 w3 = (m', w').
Proof.
  intros m args w m' w'; unfold mc_step, bind.
  destruct (propose_scale m w) as [new_scale w1] eqn:Hsc.
  destruct (propose_sigma m w1) as [new_sigma w2] eqn:Hsg.
  destruct (metropolis m _ new_scale new_sigma w2) as [m1 w3] eqn:Hm.
  intro Hs; exists new_scale, w1, new_sigma, w2, m1, w3.
  repeat split; try reflexivity; assumption.
Qed.

Lemma mapM_length : forall (A B : Type) (f : A -> M B) (l : list A) w,
  length (fst (mapM f l w)) = length l.
Proof.
  intros A B f l; induction l as [|x l IH]; intro w; simpl.
  - reflexivity.
  - unfold bind, ret; destruct (f x w) as [y w1].
    specialize (IH w1); destruct (mapM f l w1) as [ys w2]; simpl in *.
    congruence.
Qed.

(** What an inner step can do to sigma: keep it or install a proposal of
    the same length. *)
Lemma mc_step_sigma : forall m args w m' w',
  mc_step m args w = (m', w') ->
  exists w1, sigma_ m' = sigma_ m \/ sigma_ m' = fst (propose_sigma m w1) /\
             same_machine w w1.
Proof.
  intros m args w m' w' H.
  destruct (mc_step_parts m args w m' w' H)
    as [new_scale [w1 [new_sigma [w2 [m1 [w3 [Hsc [Hsg [Hm Hs]]]]]]]]].
  apply share_scale_frame in Hs; destruct Hs as [_ [_ [Hs _]]].
  exists w1.
  apply metropolis_cases in Hm; destruct Hm as [Hm|Hm]; subst m1.
  - right; split.
    + rewrite Hs, Hsg; reflexivity.
    + pose proof (keeps_propose_scale m w) as Hk; rewrite Hsc in Hk; exact Hk.
  - left; exact Hs.
Qed.

Lemma sigma_in_bounds_transfer : forall m m',
  same_setup m m' -> sigma_ m' = sigma_ m ->
  sigma_in_bounds m -> sigma_in_bounds m'.
Proof.
  unfold sigma_in_bounds, same_setup; intros m m' Hs Hsig H.
  destruct Hs as [_ [_ [_ [_ [_ [_ [Hmin [Hmax _]]]]]]]].
  rewrite Hsig, Hmin, Hmax; exact H.
Qed.

Lemma step_width_transfer : forall m m',
  same_setup m m' ->
  0 <= Dsigma_ m <= sigma_max_ m - sigma_min_ m ->
  0 <= Dsigma_ m' <= sigma_max_ m' - sigma_min_ m'.
Proof.
  unfold same_setup; intros m m' H HD.
  destruct H as [_ [_ [_ [_ [_ [_ [Hmin [Hmax [HDs _]]]]]]]]].
  rewrite Hmin, Hmax, HDs; exact HD.
Qed.

Lemma mc_step_in_bounds : forall m args w m' w',
  rand_ok w -> sigma_in_bounds m ->
  0 <= Dsigma_ m <= sigma_max_ m - sigma_min_ m ->
  mc_step m args w = (m', w') ->
  sigma_in_bounds m'.
Proof.
  intros m args w m' w' Hok Hin HD H.
  pose proof (mc_step_frame m args w m' w' H) as [Hset _].
  destruct (mc_step_sigma m args w m' w' H) as [w1 [Hs|[Hs Hw1]]].
  - apply (sigma_in_bounds_transfer m m' Hset Hs Hin).
  - pose proof (propose_sigma_in_bounds m w1
                  (rand_ok_same_machine w w1 Hw1 Hok) Hin HD) as Hnew.
    unfold sigma_in_bounds in *; unfold same_setup in Hset.
    destruct Hset as [_ [_ [_ [_ [_ [_ [Hmin [Hmax _]]]]]]]].
    rewrite Hs, Hmin, Hmax; exact Hnew.
Qed.

Lemma mc_loop_in_bounds : forall n m args w m' w',
  rand_ok w -> sigma_in_bounds m ->
  0 <= Dsigma_ m <= sigma_max_ m - sigma_min_ m ->
  mc_loop n m args w = (m', w') ->
  sigma_in_bounds m'.
Proof.
  induction n as [|n IH]; intros m args w m' w' Hok Hin HD; simpl.
  - unfold ret; intro H; inversion H; subst; exact Hin.
  - unfold bind; destruct (mc_step m args w) as [m1 w1] eqn:Hs.
    intro Hl.
    pose proof (mc_step_in_bounds m args w m1 w1 Hok Hin HD Hs) as Hin1.
    pose proof (mc_step_frame m args w m1 w1 Hs) as [Hset _].
    pose proof (keeps_mc_step m args w) as Hk; rewrite Hs in Hk.
    apply (IH m1 args w1 m' w'); try assumption.
    + apply (rand_ok_same_machine w w1 Hk Hok).
    + apply (step_width_transfer m m1 Hset HD).
Qed.

Lemma doMonteCarlo_in_bounds : forall m args w m' w',
  rand_ok w -> sigma_in_bounds m ->
  0 <= Dsigma_ m <= sigma_max_ m - sigma_min_ m ->
  doMonteCarlo m args w = (m', w') ->
  sigma_in_bounds m'.
Proof.
  intros m args w m' w' Hok Hin HD; unfold doMonteCarlo, bind, ret.
  destruct (mc_loop _ _ args w) as [m1 w1] eqn:Hl.
  intro H; inversion H; subst; clear H.
  destruct (seed_old_energy_frame m args) as [Hs0 _].
  assert (Hsig0 : sigma_ (seed_old_energy m args) = sigma_ m).
  { unfold seed_old_energy; destruct (MCfirst_ m =? -1)%Z; reflexivity. }
  apply mc_loop_in_bounds in Hl; try assumption.
  - destruct (save_sampling_frame m1) as [Hs1 [_ [_ [_ [Hsig1 _]]]]].
    apply (sigma_in_bounds_transfer m1 _ Hs1 Hsig1 Hl).
  - apply (sigma_in_bounds_transfer m _ Hs0 Hsig0 Hin).
  - apply (step_width_transfer m _ Hs0 HD).
Qed.

(** After the sampler, [calculate] only records the first step and sets
    the three outputs: the sampled members are as the sampler left them. *)
Lemma calculate_sampled : forall m args step exchange w m' w',
  calculate m args step exchange w = Some (m', w') ->
  exists m1 w1,
    (if sampler_step m step exchange then doMonteCarlo m args w else (m, w))
      = (m1, w1) /\
    sigma_ m' = sigma_ m1 /\ scale_ m' = scale_ m1 /\
    old_energy m' = old_energy m1 /\ MCaccept_ m' = MCaccept_ m1 /\
    valueSigma m' = valueSigma m1 /\ valueScale m' = valueScale m1.
Proof.
  intros m args step exchange w m' w' H.
  assert (Hs : MCstride_ m <> 0%Z).
  { intro Hc; apply (calculate_None m args step exchange w) in Hc.
    congruence. }
  destruct (calculate_shape m args step exchange w Hs)
    as [m1 [w1 [forces [ene [w2 [Hmc Hcalc]]]]]].
  rewrite Hcalc in H; inversion H; subst; clear H.
  exists m1, w1; split; [exact Hmc|].
  unfold record_first; destruct (MCfirst_ m1 =? -1)%Z; simpl;
    repeat split; reflexivity.
Qed.

(** X1.  Sigma never leaves its interval: if every sigma starts inside
    [[sigma_min_, sigma_max_]], the step half-width satisfies
    [0 <= Dsigma_ <= sigma_max_ - sigma_min_] and [rand] honours its range,
    then after any sequence of steps every sigma is still inside, in any
    communicator topology. *)
Theorem sigma_stays_in_bounds : forall steps m w m' w',
  rand_ok w -> sigma_in_bounds m ->
  0 <= Dsigma_ m <= sigma_max_ m - sigma_min_ m ->
  run m steps w = Some (m', w') ->
  sigma_in_bounds m'.
Proof.
  induction steps as [|[[args step] exchange] rest IH];
    intros m w m' w' Hok Hin HD; simpl.
  - intro H; inversion H; subst; exact Hin.
  - destruct (calculate m args step exchange w) as [[m1 w1]|] eqn:Hc;
      [|discriminate].
    intro Hrun.
    pose proof (calculate_frame _ _ _ _ _ _ _ Hc) as Hset.
    pose proof (calculate_machine _ _ _ _ _ _ _ Hc) as Hmach.
    destruct (calculate_sampled _ _ _ _ _ _ _ Hc)
      as [ms [ws [Hmc [Hsig _]]]].
    apply (IH m1 w1 m' w'); try assumption.
    + apply (rand_ok_same_machine w w1 Hmach Hok).
    + assert (Hms : sigma_in_bounds ms).
      { destruct (sampler_step m step exchange).
        - apply (doMonteCarlo_in_bounds m args w ms ws Hok Hin HD Hmc).
        - inversion Hmc; subst; exact Hin. }
      pose proof (sampler_frame _ _ _ _ _ _ _ Hmc) as [Hset1 _].
      unfold sigma_in_bounds in *; unfold same_setup in Hset, Hset1.
      destruct Hset as [_ [_ [_ [_ [_ [_ [Hmin [Hmax _]]]]]]]].
      destruct Hset1 as [_ [_ [_ [_ [_ [_ [Hmin1 [Hmax1 _]]]]]]]].
      rewrite Hsig, Hmin, Hmax, <- Hmin1, <- Hmax1; exact Hms.
    + apply (step_width_transfer m m1 Hset HD).
Qed.

Lemma alone_in_same_machine : forall w w',
  same_machine w w' -> alone_in w -> alone_in w'.
Proof.
  unfold same_machine, alone_in; intros w w' H Ha.
  repeat match goal with H : _ /\ _ |- _ => destruct H end.
  repeat split; congruence.
Qed.

(** One step of the fixed-sigma GAUSS scenario leads to the scenario. *)
Lemma gauss_scenario_step : forall m sg x step exchange w,
  alone_in w -> fixed_gauss sg m ->
  exists m' w',
    calculate m [x] step exchange w = Some (m', w') /\
    fixed_gauss sg m' /\ alone_in w'.
Proof.
  intros m sg x step exchange w Hw Hf.
  assert (Hs : MCstride_ m <> 0%Z) by apply Hf.
  destruct (calculate_shape m [x] step exchange w Hs)
    as [m1 [w1 [forces [ene [w2 [Hmc Hcalc]]]]]].
  eexists; eexists; split; [exact Hcalc|].
  split; [|exact (alone_in_same_machine w w2
                    (calculate_machine _ _ _ _ _ _ _ Hcalc) Hw)].
  assert (Hf1 : fixed_gauss sg m1).
  { destruct (sampler_step m step exchange).
    - exact (proj1 (doMonteCarlo_fixed sg m [x] w m1 w1 Hw Hf Hmc)).
    - inversion Hmc; subst; exact Hf. }
  destruct (record_first_frame m1 step) as [Hr _].
  apply (fixed_gauss_transfer sg m1); [| | | exact Hf1].
  - eapply same_setup_trans; [exact Hr | frame_setters].
  - unfold record_first; destruct (MCfirst_ m1 =? -1)%Z; reflexivity.
  - unfold record_first; destruct (MCfirst_ m1 =? -1)%Z; reflexivity.
Qed.

Lemma gauss_state_in_bounds : sigma_in_bounds gauss_state.
Proof.
  unfold sigma_in_bounds; simpl; constructor; [lra | constructor].
Qed.

Lemma gauss_state_step_width :
  0 <= Dsigma_ gauss_state
    <= sigma_max_ gauss_state - sigma_min_ gauss_state.
Proof. simpl; lra. Qed.

Lemma sigma_stays_in_bounds_witness :
  exists m' w',
    run gauss_state [([0], 0%Z, false); ([0], 1%Z, false)] world_alone
      = Some (m', w') /\
    sigma_in_bounds m'.
Proof.
  destruct (gauss_scenario_step gauss_state 1 0 0%Z false world_alone)
    as [m1 [w1 [Hc1 [Hf1 Hw1]]]];
    [exact world_alone_alone | exact gauss_state_fixed |].
  destruct (gauss_scenario_step m1 1 0 1%Z false w1 Hw1 Hf1)
    as [m2 [w2 [Hc2 _]]].
  assert (Hrun : run gauss_state [([0], 0%Z, false); ([0], 1%Z, false)]
                   world_alone = Some (m2, w2)).
  { simpl; rewrite Hc1, Hc2; reflexivity. }
  exists m2, w2; split; [exact Hrun|].
  exact (sigma_stays_in_bounds _ gauss_state world_alone m2 w2
           world_alone_ok gauss_state_in_bounds gauss_state_step_width Hrun).
Defined.

Lemma mc_step_scale_off : forall m args w m' w',
  doscale_ m = false -> mc_step m args w = (m', w') -> scale_ m' = scale_ m.
Proof.
  intros m args w m' w' Hoff H.
  destruct (mc_step_parts m args w m' w' H)
    as [new_scale [w1 [new_sigma [w2 [m1 [w3 [Hsc [Hsg [Hm Hs]]]]]]]]].
  unfold propose_scale in Hsc; rewrite Hoff in Hsc.
  unfold ret in Hsc; inversion Hsc; subst new_scale w1; clear Hsc.
  pose proof (metropolis_frame _ _ _ _ _ _ _ Hm) as [Hset _].
  assert (Hoff1 : doscale_ m1 = false).
  { unfold same_setup in Hset; destruct Hset as [_ [_ [Hd _]]]; congruence. }
  unfold share_scale in Hs; rewrite Hoff1 in Hs.
  unfold ret in Hs; inversion Hs; subst m' w'; clear Hs.
  apply metropolis_cases in Hm; destruct Hm as [Hm|Hm]; subst m1; reflexivity.
Qed.

Lemma mc_loop_scale_off : forall n m args w m' w',
  doscale_ m = false -> mc_loop n m args w = (m', w') -> scale_ m' = scale_ m.
Proof.
  induction n as [|n IH]; intros m args w m' w' Hoff; simpl.
  - unfold ret; intro H; inversion H; reflexivity.
  - unfold bind; destruct (mc_step m args w) as [m1 w1] eqn:Hs.
    intro Hl.
    pose proof (mc_step_scale_off _ _ _ _ _ Hoff Hs) as Hsc.
    pose proof (mc_step_frame _ _ _ _ _ Hs) as [Hset _].
    assert (Hoff1 : doscale_ m1 = false).
    { unfold same_setup in Hset; destruct Hset as [_ [_ [Hd _]]]; congruence. }
    rewrite (IH m1 args w1 m' w' Hoff1 Hl); exact Hsc.
Qed.

Lemma doMonteCarlo_scale_off : forall m args w m' w',
  doscale_ m = false -> doMonteCarlo m args w = (m', w') ->
  scale_ m' = scale_ m.
Proof.
  intros m args w m' w' Hoff; unfold doMonteCarlo, bind, ret.
  destruct (mc_loop _ _ args w) as [m1 w1] eqn:Hl.
  intro H; inversion H; subst; clear H.
  destruct (save_sampling_frame m1) as [_ [_ [_ [Hsc _]]]]; rewrite Hsc.
  apply mc_loop_scale_off in Hl.
  - rewrite Hl; unfold seed_old_energy;
      destruct (MCfirst_ m =? -1)%Z; reflexivity.
  - unfold seed_old_energy; destruct (MCfirst_ m =? -1)%Z; exact Hoff.
Qed.

(** X2.  Without SCALEDATA the scale is never touched: whatever the steps,
    the draws and the communicators, [scale_] keeps the value it had. *)
Theorem scale_fixed_without_SCALEDATA : forall steps m w m' w',
  doscale_ m = false ->
  run m steps w = Some (m', w') ->
  scale_ m' = scale_ m.
Proof.
  induction steps as [|[[args step] exchange] rest IH];
    intros m w m' w' Hoff; simpl.
  - intro H; inversion H; reflexivity.
  - destruct (calculate m args step exchange w) as [[m1 w1]|] eqn:Hc;
      [|discriminate].
    intro Hrun.
    pose proof (calculate_frame _ _ _ _ _ _ _ Hc) as Hset.
    assert (Hoff1 : doscale_ m1 = false).
    { unfold same_setup in Hset; destruct Hset as [_ [_ [Hd _]]]; congruence. }
    rewrite (IH m1 w1 m' w' Hoff1 Hrun).
    destruct (calculate_sampled _ _ _ _ _ _ _ Hc)
      as [ms [ws [Hmc [_ [Hsc _]]]]].
    rewrite Hsc.
    destruct (sampler_step m step exchange).
    + apply (doMonteCarlo_scale_off m args w ms ws Hoff Hmc).
    + inversion Hmc; reflexivity.
Qed.

(** Two steps of the fixed-sigma GAUSS example. *)
Lemma gauss_state_two_steps :
  exists m' w',
    run gauss_state [([0], 0%Z, false); ([0], 1%Z, false)] world_alone
      = Some (m', w').
Proof.
  destruct (gauss_scenario_step gauss_state 1 0 0%Z false world_alone)
    as [m1 [w1 [Hc1 [Hf1 Hw1]]]];
    [exact world_alone_alone | exact gauss_state_fixed |].
  destruct (gauss_scenario_step m1 1 0 1%Z false w1 Hw1 Hf1)
    as [m2 [w2 [Hc2 _]]].
  exists m2, w2; simpl; rewrite Hc1, Hc2; reflexivity.
Defined.

Lemma scale_fixed_without_SCALEDATA_witness :
  exists m' w',
    run gauss_state [([0], 0%Z, false); ([0], 1%Z, false)] world_alone
      = Some (m', w') /\
    scale_ m' = scale_ gauss_state.
Proof.
  destruct gauss_state_two_steps as [m' [w' Hrun]].
  exists m', w'; split; [exact Hrun|].
  exact (scale_fixed_without_SCALEDATA _ gauss_state world_alone m' w'
           eq_refl Hrun).
Defined.

Lemma mc_step_sigma_length : forall m args w m' w',
  mc_step m args w = (m', w') -> length (sigma_ m') = length (sigma_ m).
Proof.
  intros m args w m' w' H.
  destruct (mc_step_sigma m args w m' w' H) as [w1 [Hs|[Hs _]]]; rewrite Hs.
  - reflexivity.
  - unfold propose_sigma; apply mapM_length.
Qed.

Lemma mc_loop_sigma_length : forall n m args w m' w',
  mc_loop n m args w = (m', w') -> length (sigma_ m') = length (sigma_ m).
Proof.
  induction n as [|n IH]; intros m args w m' w'; simpl.
  - unfold ret; intro H; inversion H; reflexivity.
  - unfold bind; destruct (mc_step m args w) as [m1 w1] eqn:Hs.
    intro Hl; rewrite (IH _ _ _ _ _ Hl).
    apply (mc_step_sigma_length _ _ _ _ _ Hs).
Qed.

Lemma doMonteCarlo_sigma_length : forall m args w m' w',
  doMonteCarlo m args w = (m', w') -> length (sigma_ m') = length (sigma_ m).
Proof.
  intros m args w m' w'; unfold doMonteCarlo, bind, ret.
  destruct (mc_loop _ _ args w) as [m1 w1] eqn:Hl.
  intro H; inversion H; subst; clear H.
  destruct (save_sampling_frame m1) as [_ [_ [_ [_ [Hsg _]]]]]; rewrite Hsg.
  rewrite (mc_loop_sigma_length _ _ _ _ _ _ Hl).
  unfold seed_old_energy; destruct (MCfirst_ m =? -1)%Z; reflexivity.
Qed.

Lemma calculate_sized : forall m args' step exchange w m' w' args,
  calculate m args' step exchange w = Some (m', w') ->
  sized m args -> sized m' args.
Proof.
  intros m args' step exchange w m' w' args Hc [Hp [Hn Hs]].
  pose proof (calculate_frame _ _ _ _ _ _ _ Hc) as Hset.
  destruct (calculate_sampled _ _ _ _ _ _ _ Hc) as [ms [ws [Hmc [Hsig _]]]].
  assert (Hlen : length (sigma_ ms) = length (sigma_ m)).
  { destruct (sampler_step m step exchange).
    - apply (doMonteCarlo_sigma_length _ _ _ _ _ Hmc).
    - inversion Hmc; reflexivity. }
  unfold same_setup in Hset.
  destruct Hset as [Hpar [Hnoise [_ [_ [_ [_ [_ [_ [_ [_ [_ [Hnd _]]]]]]]]]]]].
  unfold sized; rewrite Hpar, Hnoise, Hnd, Hsig, Hlen; auto.
Qed.

(** X3.  The sizes the constructor gave to [parameters] and [sigma_] are
    kept by every step, so the loops of later steps index these vectors
    inside their bounds as long as the host supplies the same number of
    arguments. *)
Theorem sizes_kept : forall steps m w m' w' args,
  sized m args ->
  run m steps w = Some (m', w') ->
  sized m' args /\ length (sigma_ m') = length (sigma_ m).
Proof.
  induction steps as [|[[args' step] exchange] rest IH];
    intros m w m' w' args Hsz; simpl.
  - intro H; inversion H; subst; auto.
  - destruct (calculate m args' step exchange w) as [[m1 w1]|] eqn:Hc;
      [|discriminate].
    intro Hrun.
    pose proof (calculate_sized _ _ _ _ _ _ _ args Hc Hsz) as Hsz1.
    destruct (IH m1 w1 m' w' args Hsz1 Hrun) as [Hsz' Hlen].
    split; [exact Hsz'|].
    rewrite Hlen.
    destruct Hsz as [_ [_ Hs]], Hsz1 as [_ [_ Hs1]].
    pose proof (calculate_frame _ _ _ _ _ _ _ Hc) as Hset.
    unfold same_setup in Hset; destruct Hset as [_ [Hnoise _]].
    rewrite Hs1, Hs, Hnoise; reflexivity.
Qed.

Lemma sizes_kept_witness :
  exists m' w',
    run gauss_state [([0], 0%Z, false); ([0], 1%Z, false)] world_alone
      = Some (m', w') /\
    sized m' [0] /\ length (sigma_ m') = length (sigma_ gauss_state).
Proof.
  destruct gauss_state_two_steps as [m' [w' Hrun]].
  exists m', w'; split; [exact Hrun|].
  exact (sizes_kept _ gauss_state world_alone m' w' [0]
           gauss_state_sized Hrun).
Defined.

(** ** When the sampler does nothing *)

Lemma draws_nothing_ret : forall (A : Type) (a : A), draws_nothing (ret a).
Proof. intros A a w; reflexivity. Qed.

Lemma draws_nothing_bind : forall (A B : Type) (c : M A) (k : A -> M B),
  draws_nothing c -> (forall a, draws_nothing (k a)) ->
  draws_nothing (bind c k).
Proof.
  intros A B c k Hc Hk w; unfold bind.
  specialize (Hc w); destruct (c w) as [a w1]; cbn [snd] in Hc.
  rewrite (Hk a w1); exact Hc.
Qed.

Lemma draws_nothing_mapM : forall (A B : Type) (f : A -> M B) (l : list A),
  (forall x, draws_nothing (f x)) -> draws_nothing (mapM f l).
Proof.
  intros A B f l Hf; induction l as [|x l IH]; simpl.
  - apply draws_nothing_ret.
  - apply draws_nothing_bind; [apply Hf|]; intro y.
    apply draws_nothing_bind; [exact IH|]; intro ys; apply draws_nothing_ret.
Qed.

Lemma draws_nothing_if : forall (A : Type) (b : bool) (c1 c2 : M A),
  draws_nothing c1 -> draws_nothing c2 ->
  draws_nothing (if b then c1 else c2).
Proof. intros A b c1 c2 H1 H2; destruct b; assumption. Qed.

Lemma draws_nothing_collectives :
  draws_nothing comm_Get_rank /\
  (forall x, draws_nothing (comm_Sum x)) /\
  (forall x, draws_nothing (comm_Bcast x)) /\
  (forall x, draws_nothing (multi_sim_comm_Sum x)) /\
  (forall x, draws_nothing (multi_sim_comm_Bcast x)).
Proof. repeat split. Qed.

Ltac no_draw :=
  repeat first
    [ apply draws_nothing_bind; [|intro]
    | apply draws_nothing_if
    | apply draws_nothing_mapM; intro
    | apply draws_nothing_ret
    | apply draws_nothing_collectives ].

(** The force engine does not touch the generator. *)
Lemma getEnergyForceGJE_no_draw : forall m args,
  draws_nothing (getEnergyForceGJE m args).
Proof. intros m args; unfold getEnergyForceGJE; no_draw. Qed.

Lemma getEnergyForceSPE_no_draw : forall m args,
  draws_nothing (getEnergyForceSPE m args).
Proof. intros m args; unfold getEnergyForceSPE; no_draw. Qed.

(** The draws of a step are those of its sampler call. *)
Lemma calculate_draws : forall m args step exchange w m' w',
  calculate m args step exchange w = Some (m', w') ->
  rand_calls w' =
  rand_calls (snd (if sampler_step m step exchange
                   then doMonteCarlo m args w else (m, w))).
Proof.
  intros m args step exchange w m' w'; unfold calculate, sampler_step.
  destruct (MCstride_ m =? 0)%Z; [discriminate|].
  destruct (if (Z.rem step (MCstride_ m) =? 0)%Z && negb exchange
            then doMonteCarlo m args w else (m, w)) as [m1 w1].
  cbn [snd]; cbv zeta.
  set (m2 := set_valueAccept _ _).
  assert (Hf : rand_calls
            (snd (match noise_type_ m2 with
                  | LTAIL => getEnergyForceSPE m2 args w1
                  | _ => getEnergyForceGJE m2 args w1
                  end)) = rand_calls w1).
  { destruct (noise_type_ m2);
      [apply getEnergyForceGJE_no_draw | apply getEnergyForceGJE_no_draw
      | apply getEnergyForceSPE_no_draw]. }
  destruct (match noise_type_ m2 with
            | LTAIL => getEnergyForceSPE m2 args w1
            | _ => getEnergyForceGJE m2 args w1
            end) as [em w2].
  cbn [snd] in Hf.
  intro H; inversion H; subst; exact Hf.
Qed.

(** X4.  On a step that is an exchange step, or whose index is not a
    multiple of the stride, [calculate] leaves scale, sigma, the stored
    energy, the acceptance counter and the published scale and sigma as they
    were, and draws no random number. *)
Theorem skipped_step_keeps_sampler_state : forall m args step exchange w m' w',
  exchange = true \/ Z.rem step (MCstride_ m) <> 0%Z ->
  calculate m args step exchange w = Some (m', w') ->
  sigma_ m' = sigma_ m /\ scale_ m' = scale_ m /\
  old_energy m' = old_energy m /\ MCaccept_ m' = MCaccept_ m /\
  valueSigma m' = valueSigma m /\ valueScale m' = valueScale m /\
  rand_calls w' = rand_calls w.
Proof.
  intros m args step exchange w m' w' Hskip Hc.
  assert (Hs : sampler_step m step exchange = false).
  { unfold sampler_step; destruct Hskip as [He|Hr].
    - rewrite He; apply andb_false_r.
    - apply Z.eqb_neq in Hr; rewrite Hr; reflexivity. }
  pose proof (calculate_draws _ _ _ _ _ _ _ Hc) as Hd.
  destruct (calculate_sampled _ _ _ _ _ _ _ Hc)
    as [m1 [w1 [Hmc [H1 [H2 [H3 [H4 [H5 H6]]]]]]]].
  rewrite Hs in Hmc, Hd; inversion Hmc; subst m1 w1.
  repeat split; assumption.
Qed.

Lemma skipped_step_keeps_sampler_state_witness :
  exists m' w',
    calculate gauss_state [0] 4 true world_alone = Some (m', w') /\
    sigma_ m' = sigma_ gauss_state /\ scale_ m' = scale_ gauss_state /\
    old_energy m' = old_energy gauss_state /\
    MCaccept_ m' = MCaccept_ gauss_state /\
    valueSigma m' = valueSigma gauss_state /\
    valueScale m' = valueScale gauss_state /\
    rand_calls w' = rand_calls world_alone.
Proof.
  eexists; eexists; split; [reflexivity|].
  refine (skipped_step_keeps_sampler_state gauss_state [0] 4 true world_alone
            _ _ (or_introl eq_refl) eq_refl).
Defined.

(** X5.  With [MC_STEPS = 0] a sampler call proposes nothing: scale, sigma
    and the acceptance counter are unchanged and the environment is not
    touched (no draw, no collective); only the stored energy may be
    seeded. *)
Theorem no_inner_step_no_change : forall m args w,
  MCsteps_ m = 0%Z ->
  snd (doMonteCarlo m args w) = w /\
  sigma_ (fst (doMonteCarlo m args w)) = sigma_ m /\
  scale_ (fst (doMonteCarlo m args w)) = scale_ m /\
  MCaccept_ (fst (doMonteCarlo m args w)) = MCaccept_ m.
Proof.
  intros m args w H0; unfold doMonteCarlo.
  assert (Hn : Z.to_nat (MCsteps_ (seed_old_energy m args)) = 0%nat).
  { unfold seed_old_energy; destruct (MCfirst_ m =? -1)%Z; simpl;
      rewrite H0; reflexivity. }
  rewrite Hn; unfold mc_loop, bind, ret; cbn [fst snd].
  destruct (save_sampling_frame (seed_old_energy m args))
    as [_ [_ [Ha [Hsc [Hsg _]]]]].
  rewrite Ha, Hsc, Hsg.
  unfold seed_old_energy; destruct (MCfirst_ m =? -1)%Z; repeat split.
Qed.

Lemma no_inner_step_no_change_witness :
  snd (doMonteCarlo idle_state [0] world_alone) = world_alone /\
  sigma_ (fst (doMonteCarlo idle_state [0] world_alone)) = sigma_ idle_state /\
  scale_ (fst (doMonteCarlo idle_state [0] world_alone)) = scale_ idle_state /\
  MCaccept_ (fst (doMonteCarlo idle_state [0] world_alone))
    = MCaccept_ idle_state.
Proof.
  exact (no_inner_step_no_change idle_state [0] world_alone eq_refl).
Defined.

(** ** What the sampler publishes *)

Lemma upd_length : forall l i x, length (upd l i x) = length l.
Proof.
  induction l as [|y l IH]; intros [|i] x; simpl; try reflexivity.
  rewrite IH; reflexivity.
Qed.

Lemma nth_upd : forall l i j x,
  nth j (upd l i x) 0 =
  if (j =? i)%nat && (i <? length l)%nat then x else nth j l 0.
Proof.
  induction l as [|y l IH]; intros i j x.
  - destruct i; simpl; rewrite andb_false_r; reflexivity.
  - destruct i as [|i], j as [|j]; simpl; try reflexivity.
    rewrite IH; reflexivity.
Qed.

(** Writing entries [0 .. n-1] of [src] over [dst], one index at a time. *)
Lemma copy_loop_nth : forall (src : list R) n dst j,
  (n <= length dst)%nat ->
  nth j (fold_left (fun vs i => upd vs i (nth i src 0)) (seq 0 n) dst) 0
  = if (j <? n)%nat then nth j src 0 else nth j dst 0.
Proof.
  intros src n; induction n as [|n IH]; intros dst j Hn.
  - reflexivity.
  - rewrite seq_S, fold_left_app; simpl.
    rewrite nth_upd.
    assert (Hlen : forall k,
              length (fold_left (fun vs i => upd vs i (nth i src 0))
                        (seq 0 k) dst) = length dst).
    { intro k; induction k as [|k IHk]; [reflexivity|].
      rewrite seq_S, fold_left_app; simpl; rewrite upd_length; exact IHk. }
    rewrite Hlen, IH by lia.
    destruct (Nat.eqb_spec j n) as [->|Hne].
    + assert (Hlt : (n <? length dst)%nat = true) by (apply Nat.ltb_lt; lia).
      rewrite Hlt; simpl.
      assert (Hs : (n <? S n)%nat = true) by (apply Nat.ltb_lt; lia).
      rewrite Hs; reflexivity.
    + simpl.
      destruct (Nat.ltb_spec j n); destruct (Nat.ltb_spec j (S n));
        try reflexivity; lia.
Qed.

Lemma copy_loop_all : forall (src dst : list R),
  length dst = length src ->
  fold_left (fun vs i => upd vs i (nth i src 0)) (seq 0 (length src)) dst
  = src.
Proof.
  intros src dst Hlen.
  apply (nth_ext _ _ 0 0).
  - assert (H : forall k l,
              length (fold_left (fun vs i => upd vs i (nth i src 0))
                        (seq 0 k) l) = length l).
    { intro k; induction k as [|k IHk]; intro l; [reflexivity|].
      rewrite seq_S, fold_left_app; simpl; rewrite upd_length; apply IHk. }
    rewrite H; exact Hlen.
  - intros j Hj; rewrite copy_loop_nth by lia.
    destruct (Nat.ltb_spec j (length src)) as [_|Hge]; [reflexivity|].
    rewrite !nth_overflow by lia; reflexivity.
Qed.

Lemma share_scale_published : forall m w m' w',
  share_scale m w = (m', w') ->
  valueSigma m' = valueSigma m /\ valueScale m' = valueScale m.
Proof.
  intros m w m' w'; unfold share_scale, bind, ret.
  destruct (doscale_ m).
  - repeat run_next; intro H; inversion H; subst; split; reflexivity.
  - intro H; inversion H; subst; split; reflexivity.
Qed.

Lemma mc_step_published : forall m args w m' w',
  mc_step m args w = (m', w') ->
  valueSigma m' = valueSigma m /\ valueScale m' = valueScale m.
Proof.
  intros m args w m' w' H.
  destruct (mc_step_parts m args w m' w' H)
    as [new_scale [w1 [new_sigma [w2 [m1 [w3 [_ [_ [Hm Hs]]]]]]]]].
  apply share_scale_published in Hs; destruct Hs as [Hs1 Hs2].
  rewrite Hs1, Hs2.
  apply metropolis_cases in Hm; destruct Hm as [Hm|Hm]; subst m1;
    split; reflexivity.
Qed.

Lemma mc_loop_published : forall n m args w m' w',
  mc_loop n m args w = (m', w') ->
  valueSigma m' = valueSigma m /\ valueScale m' = valueScale m.
Proof.
  induction n as [|n IH]; intros m args w m' w'; simpl.
  - unfold ret; intro H; inversion H; split; reflexivity.
  - unfold bind; destruct (mc_step m args w) as [m1 w1] eqn:Hs.
    intro Hl; apply IH in Hl; apply mc_step_published in Hs.
    destruct Hl, Hs; split; congruence.
Qed.

(** X6.  When the object has one output component per sigma (as the
    constructor sets it up), a sampler call ends with the published sigma
    values equal to the sigma it leaves, and, if the scale is sampled, with
    the published scale equal to the scale it leaves. *)
Theorem sampler_publishes_state : forall m args w m' w',
  length (valueSigma m) = length (sigma_ m) ->
  doMonteCarlo m args w = (m', w') ->
  valueSigma m' = sigma_ m' /\
  (doscale_ m = true -> valueScale m' = scale_ m').
Proof.
  intros m args w m' w' Hlen H.
  unfold doMonteCarlo, bind, ret in H.
  destruct (mc_loop _ _ args w) as [m1 w1] eqn:Hl.
  inversion H; subst m' w'; clear H.
  pose proof (mc_loop_published _ _ _ _ _ _ Hl) as [Hvs _].
  pose proof (mc_loop_sigma_length _ _ _ _ _ _ Hl) as Hsl.
  pose proof (mc_loop_frame _ _ _ _ _ _ Hl) as [Hset _].
  assert (Hlen1 : length (valueSigma m1) = length (sigma_ m1)).
  { rewrite Hvs, Hsl; unfold seed_old_energy;
      destruct (MCfirst_ m =? -1)%Z; exact Hlen. }
  assert (Hdo : doscale_ m1 = doscale_ m).
  { unfold same_setup in Hset; destruct Hset as [_ [_ [Hd _]]].
    rewrite Hd; unfold seed_old_energy;
      destruct (MCfirst_ m =? -1)%Z; reflexivity. }
  unfold save_sampling; rewrite Hdo.
  destruct (doscale_ m); simpl; split;
    try (apply copy_loop_all; exact Hlen1); try reflexivity; discriminate.
Qed.

Lemma sampler_publishes_state_witness :
  valueSigma (fst (doMonteCarlo gauss_state [0] world_alone))
    = sigma_ (fst (doMonteCarlo gauss_state [0] world_alone)) /\
  (doscale_ gauss_state = true ->
   valueScale (fst (doMonteCarlo gauss_state [0] world_alone))
     = scale_ (fst (doMonteCarlo gauss_state [0] world_alone))).
Proof.
  exact (sampler_publishes_state gauss_state [0] world_alone _ _ eq_refl
           (surjective_pairing _)).
Defined.

(** ** More on construction *)

Lemma read_PARARG_Ok : forall arg2 parameters ps,
  read_PARARG parameters arg2 = Ok ps ->
  ps = parameters ++ map fst arg2 /\
  Forall (fun p => snd p = false) arg2.
Proof.
  induction arg2 as [|[v d] rest IH]; intros parameters ps; simpl.
  - intro H; inversion H; subst; rewrite app_nil_r; split; constructor.
  - intro H; apply bindR_Ok in H; destruct H as [u [Hd H]].
    apply error_if_Ok in Hd.
    apply IH in H; destruct H as [Hps Hall].
    rewrite <- app_assoc in Hps; simpl in Hps.
    split; [exact Hps | constructor; [exact Hd | exact Hall]].
Qed.

Lemma parse_NOISETYPE_Ok : forall s n,
  parse_NOISETYPE s = Ok n ->
  (s = "GAUSS"%string /\ n = GAUSS) \/
  (s = "MGAUSS"%string /\ n = MGAUSS) \/
  (s = "LTAIL"%string /\ n = LTAIL).
Proof.
  intros s n; unfold parse_NOISETYPE.
  destruct (String.eqb_spec s "GAUSS");
    [intro H; inversion H; auto|].
  destruct (String.eqb_spec s "MGAUSS");
    [intro H; inversion H; auto|].
  destruct (String.eqb_spec s "LTAIL");
    [intro H; inversion H; auto | discriminate].
Qed.

(** What a successful construction leaves in the other members. *)
Lemma Metainference_new_members : forall o h t m iseed,
  Metainference_new o h t = Ok (m, iseed) ->
  (if negb (is_empty (PARARG o)) then
     _ <~ error_if (0 <? length (PARAMETERS o))%nat
            "It is not possible to use PARARG and PARAMETERS together" ;;
     _ <~ error_if (negb (length (PARARG o) =? getNumberOfArguments h)%nat)
            "Size of PARARG array should be the same as number for arguments in ARG" ;;
     read_PARARG (PARAMETERS o) (PARARG o)
   else Ok (PARAMETERS o)) = Ok (parameters m) /\
  doscale_ m = SCALEDATA o /\
  scale_ m = (if SCALEDATA o then SCALE0 o else 1) /\
  kbt_ m = (if Rgt_dec (match TEMP o with Some x => x | None => 0 end) 0
            then getKBoltzmann h
                 * match TEMP o with Some x => x | None => 0 end
            else getKbT h) /\
  MCsteps_ m = match MC_STEPS o with Some n => n | None => 1%Z end /\
  MCstride_ m
    = u32 (match MC_STRIDE o with Some n => n | None => 1%Z end
           * getStride h) /\
  MCaccept_ m = 0%Z /\ MCfirst_ m = (-1)%Z /\ old_energy m = 0 /\
  valueSigma m = (if noise_eqb (noise_type_ m) MGAUSS
                  then repeat 0 (length (sigma_ m)) else [0]) /\
  replica_ m = comm_Sum_unsigned t
                 (fun k => if (k =? 0)%nat then replica_index t else 0%Z) /\
  iseed = comm_Sum_unsigned t
            (fun k => if (k =? 0)%nat then u32 (time_NULL t + replica_ m)
                      else 0%Z).
Proof.
  intros o h t m iseed H; unfold Metainference_new in H.
  apply bindR_Ok in H; destruct H as [_ [_ H]].
  apply bindR_Ok in H; destruct H as [ps [Hps H]].
  apply bindR_Ok in H; destruct H as [u [_ H]].
  apply bindR_Ok in H; destruct H as [noise_type [_ H]].
  apply bindR_Ok in H; destruct H as [u' [_ H]].
  apply bindR_Ok in H; destruct H as [sigma [_ H]].
  inversion H; subst m iseed; clear H; simpl.
  repeat split; try reflexivity.
  exact Hps.
Qed.

(** X7.  The reference values of a constructed object come from exactly
    one keyword: from PARAMETERS when PARARG is absent, otherwise from the
    values of PARARG, in order, and then PARAMETERS must be absent and no
    PARARG entry may carry derivatives.  Either way there is one per
    argument. *)
Theorem constructed_parameters : forall o h t m iseed,
  Metainference_new o h t = Ok (m, iseed) ->
  length (parameters m) = getNumberOfArguments h /\
  ((PARARG o = [] /\ parameters m = PARAMETERS o) \/
   (PARARG o <> [] /\ PARAMETERS o = [] /\
    parameters m = map fst (PARARG o) /\
    Forall (fun p => snd p = false) (PARARG o))).
Proof.
  intros o h t m iseed H.
  pose proof (Metainference_new_Ok _ _ _ _ _ H)
    as [nt [_ [_ [_ [_ [Hlen _]]]]]].
  split; [exact Hlen|].
  apply Metainference_new_members in H; destruct H as [Hps _].
  destruct (PARARG o) as [|a rest] eqn:Earg; cbn [is_empty negb] in Hps.
  - left; split; [reflexivity | inversion Hps; reflexivity].
  - right; split; [discriminate|].
    apply bindR_Ok in Hps; destruct Hps as [u [Hboth Hps]].
    apply error_if_Ok in Hboth.
    apply bindR_Ok in Hps; destruct Hps as [u' [_ Hps]].
    apply read_PARARG_Ok in Hps; destruct Hps as [Hps Hall].
    apply Nat.ltb_ge in Hboth.
    assert (Hnil : PARAMETERS o = []).
    { destruct (PARAMETERS o); [reflexivity | simpl in Hboth; lia]. }
    rewrite Hnil in Hps; simpl in Hps.
    repeat split; assumption.
Qed.

Lemma constructed_parameters_witness :
  exists m iseed,
    Metainference_new options_gauss_one host_one_arg topology_alone
      = Ok (m, iseed) /\
    length (parameters m) = getNumberOfArguments host_one_arg /\
    ((PARARG options_gauss_one = [] /\
      parameters m = PARAMETERS options_gauss_one) \/
     (PARARG options_gauss_one <> [] /\ PARAMETERS options_gauss_one = [] /\
      parameters m = map fst (PARARG options_gauss_one) /\
      Forall (fun p => snd p = false) (PARARG options_gauss_one))).
Proof.
  eexists; eexists; split; [reflexivity|].
  exact (constructed_parameters options_gauss_one host_one_arg
           topology_alone _ _ eq_refl).
Defined.

(** X8.  A constructed object has one of the three noise types, the one
    NOISETYPE names in capitals; any other string is refused. *)
Theorem constructed_noise_type : forall o h t m iseed,
  Metainference_new o h t = Ok (m, iseed) ->
  (NOISETYPE o = "GAUSS"%string /\ noise_type_ m = GAUSS) \/
  (NOISETYPE o = "MGAUSS"%string /\ noise_type_ m = MGAUSS) \/
  (NOISETYPE o = "LTAIL"%string /\ noise_type_ m = LTAIL).
Proof.
  intros o h t m iseed H.
  apply Metainference_new_Ok in H.
  destruct H as [nt [Hparse [Hnt _]]].
  rewrite Hnt; apply parse_NOISETYPE_Ok; exact Hparse.
Qed.

Lemma constructed_noise_type_witness :
  exists m iseed,
    Metainference_new options_gauss_one host_one_arg topology_alone
      = Ok (m, iseed) /\
    ((NOISETYPE options_gauss_one = "GAUSS"%string /\ noise_type_ m = GAUSS)
     \/ (NOISETYPE options_gauss_one = "MGAUSS"%string
         /\ noise_type_ m = MGAUSS)
     \/ (NOISETYPE options_gauss_one = "LTAIL"%string
         /\ noise_type_ m = LTAIL)).
Proof.
  eexists; eexists; split; [reflexivity|].
  exact (constructed_noise_type options_gauss_one host_one_arg
           topology_alone _ _ eq_refl).
Defined.

(** X9.  The temperature: a TEMP that is present and positive gives
    [kbt_ = kB * TEMP]; an absent, zero or negative TEMP is ignored and the
    host's kT is used. *)
Theorem constructed_temperature : forall o h t m iseed,
  Metainference_new o h t = Ok (m, iseed) ->
  (forall temp, TEMP o = Some temp -> 0 < temp ->
     kbt_ m = getKBoltzmann h * temp) /\
  (forall temp, TEMP o = Some temp -> temp <= 0 -> kbt_ m = getKbT h) /\
  (TEMP o = None -> kbt_ m = getKbT h).
Proof.
  intros o h t m iseed H.
  apply Metainference_new_members in H.
  destruct H as [_ [_ [_ [Hk _]]]].
  rewrite Hk; repeat split.
  - intros temp Ht Hpos; rewrite Ht.
    destruct (Rgt_dec temp 0); [reflexivity | lra].
  - intros temp Ht Hneg; rewrite Ht.
    destruct (Rgt_dec temp 0); [lra | reflexivity].
  - intro Ht; rewrite Ht.
    destruct (Rgt_dec 0 0); [lra | reflexivity].
Qed.

Lemma constructed_temperature_witness :
  exists m iseed,
    Metainference_new options_gauss_one host_one_arg topology_alone
      = Ok (m, iseed) /\
    (forall temp, TEMP options_gauss_one = Some temp -> 0 < temp ->
       kbt_ m = getKBoltzmann host_one_arg * temp) /\
    (forall temp, TEMP options_gauss_one = Some temp -> temp <= 0 ->
       kbt_ m = getKbT host_one_arg) /\
    (TEMP options_gauss_one = None -> kbt_ m = getKbT host_one_arg).
Proof.
  eexists; eexists; split; [reflexivity|].
  exact (constructed_temperature options_gauss_one host_one_arg
           topology_alone _ _ eq_refl).
Defined.

Lemma length_one : forall (l : list R),
  length l = 1%nat -> l = [nth 0 l 0].
Proof.
  intros [|x [|y l]] H; simpl in H; try discriminate; reflexivity.
Qed.

(** X10.  The initial sigma vector is SIGMA0 itself, except for MGAUSS given
    a single value: that value is then used for every argument. *)
Theorem constructed_sigma : forall o h t m iseed,
  Metainference_new o h t = Ok (m, iseed) ->
  (noise_type_ m = MGAUSS -> forall v, SIGMA0 o = [v] ->
     sigma_ m = repeat v (getNumberOfArguments h)) /\
  (noise_type_ m <> MGAUSS \/ length (SIGMA0 o) = getNumberOfArguments h ->
     sigma_ m = SIGMA0 o).
Proof.
  intros o h t m iseed H.
  apply Metainference_new_Ok in H.
  destruct H as [nt [_ [Hnt [Hmulti [Hsigma _]]]]].
  rewrite Hnt; clear Hnt.
  unfold init_sigma in Hsigma.
  split.
  - intros Hmg v Hv; rewrite Hv in Hsigma.
    change (length [v]) with 1%nat in Hsigma.
    destruct (1 =? getNumberOfArguments h)%nat eqn:E1.
    + apply Nat.eqb_eq in E1; rewrite <- E1.
      inversion Hsigma; reflexivity.
    + rewrite Hmg in Hsigma; cbn [Nat.eqb noise_eqb nth] in Hsigma.
      inversion Hsigma; reflexivity.
  - intros Hcase.
    destruct (length (SIGMA0 o) =? getNumberOfArguments h)%nat eqn:En.
    + inversion Hsigma; reflexivity.
    + apply Nat.eqb_neq in En.
      destruct Hcase as [Hnm|Hlen]; [|contradiction].
      destruct (length (SIGMA0 o) =? 1)%nat eqn:E1; [|discriminate].
      apply Nat.eqb_eq in E1.
      assert (Hf : noise_eqb nt MGAUSS = false).
      { destruct (noise_eqb nt MGAUSS) eqn:E; [|reflexivity].
        apply noise_eqb_eq in E; contradiction. }
      rewrite Hf in Hsigma; inversion Hsigma; simpl.
      symmetry; apply length_one; exact E1.
Qed.

Lemma constructed_sigma_witness :
  exists m iseed,
    Metainference_new options_gauss_one host_one_arg topology_alone
      = Ok (m, iseed) /\
    (noise_type_ m = MGAUSS -> forall v, SIGMA0 options_gauss_one = [v] ->
       sigma_ m = repeat v (getNumberOfArguments host_one_arg)) /\
    (noise_type_ m <> MGAUSS \/
     length (SIGMA0 options_gauss_one) = getNumberOfArguments host_one_arg ->
       sigma_ m = SIGMA0 options_gauss_one).
Proof.
  eexists; eexists; split; [reflexivity|].
  exact (constructed_sigma options_gauss_one host_one_arg
           topology_alone _ _ eq_refl).
Defined.

Lemma u32_idem : forall z, u32 (u32 z) = u32 z.
Proof. intro z; unfold u32; apply Z.mod_mod; discriminate. Qed.

Lemma u32_add_l : forall a b, u32 (a + u32 b) = u32 (a + b).
Proof. intros a b; unfold u32; apply Zplus_mod_idemp_r. Qed.

(** X11.  On every rank of a replica the two reductions of the constructor
    deliver the replica count and the replica index seen by the replica's
    rank 0, and the seed handed to [srand] is the leader's clock plus the
    replica index, as an [unsigned]: the ranks of a replica share their
    seed, and replicas started in the same second get different ones. *)
Theorem constructed_topology : forall o h t m iseed,
  (1 <= comm_size t)%nat ->
  (0 <= replicas t < two32)%Z ->
  (0 <= replica_index t < two32)%Z ->
  Metainference_new o h t = Ok (m, iseed) ->
  nrep_ m = replicas t /\ replica_ m = replica_index t /\
  iseed = u32 (time_NULL t + replica_index t) /\
  (forall o' h' t' m' iseed',
     (1 <= comm_size t')%nat ->
     (0 <= replica_index t' < two32)%Z ->
     Metainference_new o' h' t' = Ok (m', iseed') ->
     time_NULL t' = time_NULL t ->
     replica_index t' <> replica_index t ->
     iseed' <> iseed).
Proof.
  intros o h t m iseed Hsz Hrep Hidx H.
  pose proof (Metainference_new_Ok _ _ _ _ _ H)
    as [nt [_ [_ [_ [_ [_ [_ [Hn _]]]]]]]].
  pose proof (Metainference_new_members _ _ _ _ _ H)
    as [_ [_ [_ [_ [_ [_ [_ [_ [_ [_ [Hr Hseed]]]]]]]]]]].
  rewrite comm_Sum_unsigned_leader in Hn, Hr, Hseed by exact Hsz.
  rewrite u32_small in Hn by exact Hrep.
  rewrite u32_small in Hr by exact Hidx.
  rewrite Hr, u32_idem in Hseed.
  repeat split; try assumption.
  intros o' h' t' m' iseed' Hsz' Hidx' H' Htime Hne.
  pose proof (Metainference_new_members _ _ _ _ _ H')
    as [_ [_ [_ [_ [_ [_ [_ [_ [_ [_ [Hr' Hseed']]]]]]]]]]].
  rewrite comm_Sum_unsigned_leader in Hr', Hseed' by exact Hsz'.
  rewrite u32_small in Hr' by exact Hidx'.
  rewrite Hr', u32_idem, Htime in Hseed'.
  rewrite Hseed, Hseed'; unfold u32, two32 in *.
  intro Heq.
  assert (Hd : ((time_NULL t + replica_index t'
                 - (time_NULL t + replica_index t)) mod 4294967296 = 0)%Z).
  { rewrite Zminus_mod, Heq, Z.sub_diag; reflexivity. }
  replace (time_NULL t + replica_index t' - (time_NULL t + replica_index t))%Z
    with (replica_index t' - replica_index t)%Z in Hd by ring.
  apply Z.mod_divide in Hd; [|discriminate].
  destruct Hd as [k Hk].
  assert (k = 0%Z) by lia.
  subst k; lia.
Qed.

Lemma constructed_topology_witness :
  exists m iseed,
    Metainference_new options_gauss_one host_one_arg topology_four
      = Ok (m, iseed) /\
    nrep_ m = 4%Z /\ replica_ m = 1%Z /\ iseed = u32 (0 + 1) /\
    (forall o' h' t' m' iseed',
       (1 <= comm_size t')%nat ->
       (0 <= replica_index t' < two32)%Z ->
       Metainference_new o' h' t' = Ok (m', iseed') ->
       time_NULL t' = time_NULL topology_four ->
       replica_index t' <> replica_index topology_four ->
       iseed' <> iseed).
Proof.
  eexists; eexists; split; [reflexivity|].
  refine (constructed_topology options_gauss_one host_one_arg
            topology_four _ _ _ _ _ eq_refl).
  - simpl; lia.
  - unfold two32; simpl; lia.
  - unfold two32; simpl; lia.
Defined.

(** The constructor creates one output component per sigma. *)
Lemma Metainference_new_components : forall o h t m iseed,
  (1 <= getNumberOfArguments h)%nat ->
  Metainference_new o h t = Ok (m, iseed) ->
  length (valueSigma m) = length (sigma_ m).
Proof.
  intros o h t m iseed Hn H.
  pose proof (Metainference_new_sized o h t m iseed
                (repeat 0 (getNumberOfArguments h)) Hn H
                (repeat_length _ _)) as [_ [_ Hs]].
  apply Metainference_new_members in H.
  destruct H as [_ [_ [_ [_ [_ [_ [_ [_ [_ [Hv _]]]]]]]]]].
  rewrite Hv.
  destruct (noise_eqb (noise_type_ m) MGAUSS).
  - apply repeat_length.
  - rewrite Hs; reflexivity.
Qed.

(** ** Forces *)

Lemma nth_map_seq : forall (f : nat -> R) n i,
  (i < n)%nat -> nth i (map f (seq 0 n)) 0 = f i.
Proof.
  intros f n i Hi.
  rewrite (nth_indep _ 0 (f 0%nat)) by (rewrite length_map, length_seq; exact Hi).
  rewrite map_nth, seq_nth by exact Hi; reflexivity.
Qed.

(** In any topology the GJE force on argument [i] is the deviation times
    [-kT * scale] times the reduced inverse variance. *)
Lemma getEnergyForceGJE_forces : forall m args w,
  exists inv_s2,
    outputForces (snd (fst (getEnergyForceGJE m args w)))
    = map (fun i =>
             - kbt_ m * deviation m args i * scale_ m
             * nth (if noise_eqb (noise_type_ m) MGAUSS then i else O)
                 inv_s2 0)
        (seq 0 (length args)).
Proof.
  intros m args w; unfold getEnergyForceGJE, bind, ret, setOutputForces.
  repeat run_next; simpl; eexists; reflexivity.
Qed.

(** X12.  An argument whose scaled value equals its reference value gets
    no force from the Gaussian variants, in any communicator topology and
    whatever the other replicas contribute. *)
Theorem GJE_no_force_without_deviation : forall m args w i,
  (i < length args)%nat ->
  scale_ m * getArgument args i = nth i (parameters m) 0 ->
  nth i (outputForces (snd (fst (getEnergyForceGJE m args w)))) 0 = 0.
Proof.
  intros m args w i Hi Hdev.
  destruct (getEnergyForceGJE_forces m args w) as [inv_s2 Hf].
  rewrite Hf, nth_map_seq by exact Hi.
  unfold deviation; rewrite Hdev; ring.
Qed.

Lemma GJE_no_force_without_deviation_witness :
  nth 0 (outputForces
           (snd (fst (getEnergyForceGJE gauss_state [0] world_alone)))) 0 = 0.
Proof.
  refine (GJE_no_force_without_deviation gauss_state [0] world_alone 0 _ _).
  - simpl; lia.
  - simpl; unfold getArgument; simpl; ring.
Defined.

Lemma getEnergyForceGJE_alone_forces : forall m args w,
  alone_in w -> sized m args ->
  outputForces (snd (fst (getEnergyForceGJE m args w)))
  = map (fun i => - kbt_ m * scale_ m * deviation m args i / variance m i)
      (seq 0 (length args)).
Proof.
  intros m args w Hw Hsz.
  rewrite (proj1 (getEnergyForceGJE_alone m args w Hw)).
  cbn [fst snd]; unfold setOutputForces; simpl.
  apply map_ext_in; intros i Hi; apply in_seq in Hi.
  assert (Hsel := sel_sigma_inside m args i Hsz (proj2 Hi)).
  rewrite nth_map_inside by (rewrite length_map; exact Hsel).
  rewrite nth_map_inside by exact Hsel.
  unfold deviation, variance, Rdiv; ring.
Qed.

(** X13.  With one rank and one replica the force the Gaussian variants
    write for argument [i] is [-kT * scale * deviation_i / (sigma_i^2 +
    sigma_mean^2)], for any number of arguments, with the shared sigma
    (GAUSS) or the argument's own (MGAUSS). *)
Theorem GJE_force_formula : forall m args w,
  alone_in w -> sized m args ->
  outputForces (snd (fst (getEnergyForceGJE m args w)))
  = map (fun i => - kbt_ m * scale_ m * deviation m args i / variance m i)
      (seq 0 (length args)).
Proof. exact getEnergyForceGJE_alone_forces. Qed.

Lemma GJE_force_formula_witness :
  outputForces (snd (fst (getEnergyForceGJE gauss_state [3] world_alone)))
  = map (fun i => - kbt_ gauss_state * scale_ gauss_state
                  * deviation gauss_state [3] i / variance gauss_state i)
      (seq 0 (length [3])).
Proof.
  exact (GJE_force_formula gauss_state [3] world_alone world_alone_alone
           gauss_state_sized).
Defined.

Lemma variance_pos : forall m i, sigma_mean_ m <> 0 -> 0 < variance m i.
Proof.
  intros m i Hsm; unfold variance; cbv zeta.
  set (s := nth _ _ _).
  assert (0 <= s * s) by nra.
  assert (0 < sigma_mean_ m * sigma_mean_ m) by nra.
  lra.
Qed.

(** X14.  The Gaussian bias pulls the scaled argument toward its reference
    value: with [kT > 0], [scale > 0] and a nonzero [sigma_mean], the force
    on an argument is negative when the scaled argument is above the
    reference value and positive when it is below (one rank, one
    replica). *)
Theorem GJE_force_restores : forall m args w i,
  alone_in w -> sized m args ->
  0 < kbt_ m -> 0 < scale_ m -> sigma_mean_ m <> 0 ->
  (i < length args)%nat ->
  let force := nth i (outputForces (snd (fst (getEnergyForceGJE m args w)))) 0 in
  (0 < deviation m args i -> force < 0) /\
  (deviation m args i < 0 -> 0 < force).
Proof.
  intros m args w i Hw Hsz Hk Hsc Hsm Hi force; unfold force.
  rewrite (getEnergyForceGJE_alone_forces m args w Hw Hsz).
  rewrite nth_map_seq by exact Hi.
  pose proof (variance_pos m i Hsm) as Hv.
  assert (Hinv : 0 < / variance m i) by (apply Rinv_0_lt_compat; exact Hv).
  assert (Hks : 0 < kbt_ m * scale_ m) by (apply Rmult_lt_0_compat; assumption).
  unfold Rdiv; split; intro Hd.
  - assert (0 < kbt_ m * scale_ m * deviation m args i * / variance m i).
    { repeat apply Rmult_lt_0_compat; assumption. }
    lra.
  - assert (0 < kbt_ m * scale_ m * (- deviation m args i) * / variance m i).
    { repeat apply Rmult_lt_0_compat; try assumption; lra. }
    lra.
Qed.

Lemma GJE_force_restores_witness :
  let force :=
    nth 0 (outputForces
             (snd (fst (getEnergyForceGJE gauss_state [3] world_alone)))) 0 in
  (0 < deviation gauss_state [3] 0 -> force < 0) /\
  (deviation gauss_state [3] 0 < 0 -> 0 < force).
Proof.
  refine (GJE_force_restores gauss_state [3] world_alone 0
            world_alone_alone gauss_state_sized _ _ _ _); simpl; try lra; lia.
Defined.

Lemma inv_exp_neg : forall x, 1 / exp (- x) = exp x.
Proof.
  intro x; rewrite exp_Ropp; unfold Rdiv.
  rewrite Rinv_inv, Rmult_1_l; reflexivity.
Qed.

Lemma getEnergyForceSPE_alone_forces : forall m args w,
  alone_in w ->
  outputForces (snd (fst (getEnergyForceSPE m args w)))
  = map (fun i =>
           - kbt_ m * scale_ m * deviation m args i
           * (1 / (1 - exp (ltail_a2 m args i
                            / (sigma_mean_ m * sigma_mean_ m)))
              / (sigma_mean_ m * sigma_mean_ m)
              + 1 / ltail_a2 m args i))
      (seq 0 (length args)).
Proof.
  intros m args w Hw.
  unfold getEnergyForceSPE, bind, ret, comm_Get_rank.
  destruct Hw as [Hr Hrest]; rewrite Hr.
  change (0 =? 0)%nat with true; cbv beta iota.
  assert (Hw : alone_in w) by (split; assumption).
  repeat run_alone.
  cbn [fst snd]; unfold setOutputForces; simpl.
  apply map_ext_in; intros i Hi; apply in_seq in Hi.
  rewrite nth_map_seq by lia.
  assert (Hss : sqrt (nth 0 (sigma_ m) 0 * nth 0 (sigma_ m) 0
                      + sigma_mean_ m * sigma_mean_ m)
                * sqrt (nth 0 (sigma_ m) 0 * nth 0 (sigma_ m) 0
                        + sigma_mean_ m * sigma_mean_ m)
                = nth 0 (sigma_ m) 0 * nth 0 (sigma_ m) 0
                  + sigma_mean_ m * sigma_mean_ m).
  { apply sqrt_sqrt.
    assert (0 <= nth 0 (sigma_ m) 0 * nth 0 (sigma_ m) 0) by nra.
    assert (0 <= sigma_mean_ m * sigma_mean_ m) by nra.
    lra. }
  rewrite Hss; fold (deviation m args i); fold (ltail_a2 m args i).
  replace (- ltail_a2 m args i / (sigma_mean_ m * sigma_mean_ m))
    with (- (ltail_a2 m args i / (sigma_mean_ m * sigma_mean_ m)))
    by (unfold Rdiv; ring).
  rewrite inv_exp_neg.
  unfold Rdiv; ring.
Qed.

(** X15.  With one rank and one replica the force the long-tailed variant
    writes for argument [i] is
    [-kT * scale * deviation_i * (1/(1 - exp(a2_i/sigma_mean^2)) / sigma_mean^2
    + 1/a2_i)] with [a2_i = deviation_i^2/2 + sigma^2 + sigma_mean^2]. *)
Theorem SPE_force_formula : forall m args w,
  alone_in w ->
  outputForces (snd (fst (getEnergyForceSPE m args w)))
  = map (fun i =>
           - kbt_ m * scale_ m * deviation m args i
           * (1 / (1 - exp (ltail_a2 m args i
                            / (sigma_mean_ m * sigma_mean_ m)))
              / (sigma_mean_ m * sigma_mean_ m)
              + 1 / ltail_a2 m args i))
      (seq 0 (length args)).
Proof. exact getEnergyForceSPE_alone_forces. Qed.

Lemma SPE_force_formula_witness :
  outputForces (snd (fst (getEnergyForceSPE ltail_state [3] world_alone)))
  = map (fun i =>
           - kbt_ ltail_state * scale_ ltail_state
           * deviation ltail_state [3] i
           * (1 / (1 - exp (ltail_a2 ltail_state [3] i
                            / (sigma_mean_ ltail_state
                               * sigma_mean_ ltail_state)))
              / (sigma_mean_ ltail_state * sigma_mean_ ltail_state)
              + 1 / ltail_a2 ltail_state [3] i))
      (seq 0 (length [3])).
Proof.
  exact (SPE_force_formula ltail_state [3] world_alone world_alone_alone).
Defined.

(** ** The published bias *)

(** [calculate] as the sampler (when due), the bookkeeping, then the force
    engine on the resulting state. *)
Lemma calculate_engine : forall m args step exchange w,
  MCstride_ m <> 0%Z ->
  exists m1 w1,
    (if sampler_step m step exchange then doMonteCarlo m args w else (m, w))
      = (m1, w1) /\
    let m2 := set_valueAccept (record_first m1 step)
                (accept (record_first m1 step) step) in
    calculate m args step exchange w
    = Some (set_valueBias (snd (fst (getEnergyForce m2 args w1)))
              (kbt_ m2 * fst (fst (getEnergyForce m2 args w1))),
            snd (getEnergyForce m2 args w1)).
Proof.
  intros m args step exchange w Hs; unfold calculate, sampler_step.
  apply Z.eqb_neq in Hs; rewrite Hs.
  destruct (if (Z.rem step (MCstride_ m) =? 0)%Z && negb exchange
            then doMonteCarlo m args w else (m, w)) as [m1 w1].
  exists m1, w1; split; [reflexivity|].
  cbv zeta; unfold getEnergyForce.
  set (m2 := set_valueAccept _ _).
  destruct (noise_type_ m2).
  - destruct (getEnergyForceGJE m2 args w1) as [em w2]; reflexivity.
  - destruct (getEnergyForceGJE m2 args w1) as [em w2]; reflexivity.
  - destruct (getEnergyForceSPE m2 args w1) as [em w2]; reflexivity.
Qed.

(** The sampler's energy reads the setup only. *)
Lemma getEnergy_setup : forall m m' args sigma scale,
  same_setup m m' ->
  getEnergy m' args sigma scale = getEnergy m args sigma scale.
Proof.
  unfold same_setup; intros m m' args sigma scale H.
  destruct H as [Hp [Hn [_ [_ [_ [_ [_ [_ [_ [Hsm [Hk [Hnd _]]]]]]]]]]]].
  unfold getEnergy, getEnergyGJE, getEnergySPE.
  rewrite Hp, Hn, Hsm, Hk, Hnd; reflexivity.
Qed.

Lemma getEnergyForce_state : forall m args w,
  exists forces,
    snd (fst (getEnergyForce m args w)) = set_outputForces m forces.
Proof.
  intros m args w; unfold getEnergyForce.
  destruct (noise_type_ m);
    [apply getEnergyForceGJE_state | apply getEnergyForceGJE_state
    | apply getEnergyForceSPE_state].
Qed.

(** With one rank and one replica the force engine's energy times kT is
    the sampler's energy of the same state, for the three variants. *)
Lemma getEnergyForce_alone : forall m args w,
  alone_in w -> sized m args ->
  kbt_ m * fst (fst (getEnergyForce m args w))
  = getEnergy m args (sigma_ m) (scale_ m).
Proof.
  intros m args w Hw Hsz; unfold getEnergyForce, getEnergy.
  destruct (noise_type_ m) eqn:En.
  - rewrite Rmult_comm; apply GJE_energies_agree; assumption.
  - rewrite Rmult_comm; apply GJE_energies_agree; assumption.
  - destruct Hsz as [Hp [Hn _]].
    rewrite getEnergyForceSPE_alone, getEnergySPE_sum by assumption.
    reflexivity.
Qed.

(** X16.  With one rank and one replica the bias [calculate] publishes is
    the energy the sampler assigns to the state [calculate] returns: the
    force engine and the Metropolis test see the same energy surface, for
    GAUSS, MGAUSS and LTAIL. *)
Theorem bias_is_sampler_energy : forall m args step exchange w m' w',
  alone_in w -> sized m args ->
  calculate m args step exchange w = Some (m', w') ->
  valueBias m' = getEnergy m' args (sigma_ m') (scale_ m').
Proof.
  intros m args step exchange w m' w' Hw Hsz Hc.
  pose proof (calculate_sized _ _ _ _ _ _ _ args Hc Hsz) as Hsz'.
  pose proof (calculate_frame _ _ _ _ _ _ _ Hc) as Hset.
  assert (Hs : MCstride_ m <> 0%Z).
  { intro H0; apply (calculate_None m args step exchange w) in H0.
    congruence. }
  destruct (calculate_engine m args step exchange w Hs)
    as [m1 [w1 [Hmc Hcalc]]].
  cbv zeta in Hcalc; rewrite Hcalc in Hc; clear Hcalc.
  remember (set_valueAccept (record_first m1 step)
              (accept (record_first m1 step) step)) as m2 eqn:Em2.
  assert (Hw1 : alone_in w1).
  { assert (Hk : same_machine w w1).
    { destruct (sampler_step m step exchange).
      - pose proof (keeps_doMonteCarlo m args w) as Hk.
        rewrite Hmc in Hk; exact Hk.
      - inversion Hmc; subst; apply same_machine_refl. }
    apply (alone_in_same_machine w w1 Hk Hw). }
  destruct (getEnergyForce_state m2 args w1) as [forces Hst].
  rewrite Hst in Hc; inversion Hc; subst m'; clear Hc.
  assert (Hsz2 : sized m2 args).
  { destruct Hsz' as [Hp [Hn Hsg]]; split; [|split]; assumption. }
  simpl.
  rewrite (getEnergyForce_alone m2 args w1 Hw1 Hsz2).
  apply eq_sym, getEnergy_setup.
  frame_setters.
Qed.

Lemma bias_is_sampler_energy_witness :
  exists m' w',
    calculate gauss_state [3] 0 false world_alone = Some (m', w') /\
    valueBias m' = getEnergy m' [3] (sigma_ m') (scale_ m').
Proof.
  destruct (gauss_scenario_step gauss_state 1 3 0%Z false world_alone
              world_alone_alone gauss_state_fixed) as [m' [w' [Hc _]]].
  exists m', w'; split; [exact Hc|].
  exact (bias_is_sampler_energy gauss_state [3] 0 false world_alone m' w'
           world_alone_alone gauss_state_sized Hc).
Defined.

(** ** The stored energy within a sampler call *)

Lemma broadcast_root_same_machine : forall w w',
  same_machine w w' -> broadcast_root w -> broadcast_root w'.
Proof.
  unfold same_machine, broadcast_root; intros w w' H [Hr Hm].
  destruct H as [_ [_ [H1 [_ [H2 _]]]]]; split; congruence.
Qed.

Lemma energy_in_step_transfer : forall m m' args,
  same_setup m m' -> old_energy m' = old_energy m ->
  sigma_ m' = sigma_ m -> scale_ m' = scale_ m ->
  energy_in_step m args -> energy_in_step m' args.
Proof.
  unfold energy_in_step; intros m m' args Hs Ho Hsg Hsc H.
  rewrite Ho, Hsg, Hsc, (getEnergy_setup m m' args _ _ Hs); exact H.
Qed.

Lemma mc_step_energy_in_step : forall m args w m' w',
  broadcast_root w -> energy_in_step m args ->
  mc_step m args w = (m', w') -> energy_in_step m' args.
Proof.
  intros m args w m' w' Hroot Hin H.
  destruct (mc_step_parts m args w m' w' H)
    as [new_scale [w1 [new_sigma [w2 [m1 [w3 [Hsc [Hsg [Hm Hs]]]]]]]]].
  assert (Hroot3 : broadcast_root w3).
  { apply (broadcast_root_same_machine w w3); [|exact Hroot].
    pose proof (keeps_propose_scale m w) as K1; rewrite Hsc in K1.
    pose proof (keeps_propose_sigma m w1) as K2; rewrite Hsg in K2.
    pose proof (keeps_metropolis m
                  (getEnergy m args new_sigma new_scale)
                  new_scale new_sigma w2) as K3; rewrite Hm in K3.
    eapply same_machine_trans; [exact K1|].
    eapply same_machine_trans; [exact K2 | exact K3]. }
  pose proof (share_scale_on_root m1 w3 Hroot3) as Hid.
  rewrite Hs in Hid; cbn [fst] in Hid; subst m'.
  apply metropolis_cases in Hm; destruct Hm as [Hm|Hm]; subst m1.
  - unfold energy_in_step, accept_move; simpl.
    apply eq_sym, getEnergy_setup; frame_setters.
  - exact Hin.
Qed.

Lemma mc_loop_energy_in_step : forall n m args w m' w',
  broadcast_root w -> energy_in_step m args ->
  mc_loop n m args w = (m', w') -> energy_in_step m' args.
Proof.
  induction n as [|n IH]; intros m args w m' w' Hroot Hin; simpl.
  - unfold ret; intro H; inversion H; subst; exact Hin.
  - unfold bind; destruct (mc_step m args w) as [m1 w1] eqn:Hs.
    intro Hl.
    pose proof (mc_step_energy_in_step _ _ _ _ _ Hroot Hin Hs) as Hin1.
    pose proof (keeps_mc_step m args w) as K; rewrite Hs in K.
    apply (IH m1 args w1 m' w'
             (broadcast_root_same_machine w w1 K Hroot) Hin1 Hl).
Qed.

(** X17.  On the root of the broadcasts, a sampler call that starts with a
    fresh object, or with a stored energy that is the energy of the current
    state for this step's arguments, ends with a stored energy that is the
    energy of the state it leaves for the same arguments: within a call
    every Metropolis test compares the proposal with the true energy of the
    current state. *)
Theorem stored_energy_follows_state : forall m args w m' w',
  broadcast_root w ->
  MCfirst_ m = (-1)%Z \/ energy_in_step m args ->
  doMonteCarlo m args w = (m', w') ->
  energy_in_step m' args.
Proof.
  intros m args w m' w' Hroot Hstart; unfold doMonteCarlo, bind, ret.
  destruct (mc_loop _ _ args w) as [m1 w1] eqn:Hl.
  intro H; inversion H; subst; clear H.
  assert (H0 : energy_in_step (seed_old_energy m args) args).
  { unfold seed_old_energy.
    destruct (MCfirst_ m =? -1)%Z eqn:E.
    - unfold energy_in_step; simpl.
      apply eq_sym, getEnergy_setup; frame_setters.
    - apply Z.eqb_neq in E; destruct Hstart as [Hc|Hin];
        [contradiction | exact Hin]. }
  pose proof (mc_loop_energy_in_step _ _ _ _ _ _ Hroot H0 Hl) as H1.
  destruct (save_sampling_frame m1) as [Hs [_ [_ [Hsc [Hsg Ho]]]]].
  apply (energy_in_step_transfer m1 _ args Hs Ho Hsg Hsc H1).
Qed.

Lemma world_alone_root : broadcast_root world_alone.
Proof. split; reflexivity. Qed.

Lemma stored_energy_follows_state_witness :
  energy_in_step (fst (doMonteCarlo gauss_state [3] world_alone)) [3].
Proof.
  exact (stored_energy_follows_state gauss_state [3] world_alone _ _
           world_alone_root (or_introl eq_refl) (surjective_pairing _)).
Defined.

(** ** The acceptance ratio as a ratio *)

Lemma div_step : forall s t t',
  (0 < s)%Z -> (t < t')%Z -> Z.rem t' s = 0%Z -> (t / s + 1 <= t' / s)%Z.
Proof.
  intros s t t' Hs Hlt Hrem.
  apply Z.rem_divide in Hrem; [|lia].
  destruct Hrem as [q Hq]; subst t'.
  rewrite Z.div_mul by lia.
  assert ((t / s < q)%Z); [|lia].
  apply Z.div_lt_upper_bound; lia.
Qed.

Lemma sampler_steps_mono : forall s f t t',
  (0 < s)%Z -> (t <= t')%Z -> (sampler_steps s f t <= sampler_steps s f t')%Z.
Proof.
  intros s f t t' Hs Hle; unfold sampler_steps.
  pose proof (Z.div_le_mono t t' s Hs Hle); lia.
Qed.

Lemma sampler_steps_le_trials : forall s f t,
  (0 < s)%Z -> (f <= t)%Z -> (sampler_steps s f t <= (t - f) / s + 1)%Z.
Proof.
  intros s f t Hs Hft; unfold sampler_steps.
  pose proof (Z.div_mod t s ltac:(lia)) as H1.
  pose proof (Z.mod_pos_bound t s Hs) as B1.
  pose proof (Z.div_mod (f - 1) s ltac:(lia)) as H2.
  pose proof (Z.mod_pos_bound (f - 1) s Hs) as B2.
  pose proof (Z.div_mod (t - f) s ltac:(lia)) as H3.
  pose proof (Z.mod_pos_bound (t - f) s Hs) as B3.
  nia.
Qed.

Lemma floor_div : forall a b : Z,
  (0 < b)%Z -> floor (IZR a / IZR b) = IZR (a / b).
Proof.
  intros a b Hb; unfold floor; f_equal.
  symmetry; apply Int_part_spec.
  pose proof (Z.div_mod a b ltac:(lia)) as H1.
  pose proof (Z.mod_pos_bound a b Hb) as B1.
  assert (Hbr : 0 < IZR b) by (apply IZR_lt; lia).
  assert (Ha : IZR a = IZR b * IZR (a / b) + IZR (a mod b)).
  { rewrite <- mult_IZR, <- plus_IZR; f_equal; exact H1. }
  assert (Hm0 : 0 <= IZR (a mod b)) by (apply IZR_le; lia).
  assert (Hm1 : IZR (a mod b) < IZR b) by (apply IZR_lt; lia).
  assert (Hq : IZR a / IZR b = IZR (a / b) + IZR (a mod b) / IZR b).
  { rewrite Ha at 1; field; lra. }
  assert (0 <= IZR (a mod b) / IZR b < 1).
  { split.
    - apply Rmult_le_pos; [lra | apply Rlt_le, Rinv_0_lt_compat; lra].
    - apply (Rmult_lt_reg_r (IZR b)); [lra|].
      unfold Rdiv; rewrite Rmult_assoc, Rinv_l by lra; lra. }
  lra.
Qed.

(** An inner step accepts at most once. *)
Lemma mc_step_counter : forall m args w m' w',
  mc_step m args w = (m', w') ->
  MCaccept_ m' = MCaccept_ m \/ MCaccept_ m' = u32 (MCaccept_ m + 1).
Proof.
  intros m args w m' w' H.
  destruct (mc_step_parts m args w m' w' H)
    as [new_scale [w1 [new_sigma [w2 [m1 [w3 [_ [_ [Hm Hs]]]]]]]]].
  apply share_scale_frame in Hs; destruct Hs as [_ [_ [_ [_ Hs]]]].
  rewrite Hs.
  apply metropolis_cases in Hm; destruct Hm as [Hm|Hm]; subst m1;
    [right | left]; reflexivity.
Qed.

Lemma mc_loop_counter : forall n m args w m' w',
  (0 <= MCaccept_ m)%Z -> (MCaccept_ m + Z.of_nat n < two32)%Z ->
  mc_loop n m args w = (m', w') ->
  (MCaccept_ m <= MCaccept_ m' <= MCaccept_ m + Z.of_nat n)%Z.
Proof.
  induction n as [|n IH]; intros m args w m' w' H0 Hb; simpl.
  - unfold ret; intro H; inversion H; subst; lia.
  - unfold bind; destruct (mc_step m args w) as [m1 w1] eqn:Hs.
    intro Hl.
    assert (H1 : (MCaccept_ m <= MCaccept_ m1 <= MCaccept_ m + 1)%Z).
    { destruct (mc_step_counter _ _ _ _ _ Hs) as [He|He]; rewrite He.
      - lia.
      - rewrite u32_small by lia; lia. }
    pose proof (IH m1 args w1 m' w' ltac:(lia) ltac:(lia) Hl); lia.
Qed.

Lemma doMonteCarlo_counter : forall m args w m' w',
  (0 <= MCaccept_ m)%Z -> (0 <= MCsteps_ m)%Z ->
  (MCaccept_ m + MCsteps_ m < two32)%Z ->
  doMonteCarlo m args w = (m', w') ->
  (MCaccept_ m <= MCaccept_ m' <= MCaccept_ m + MCsteps_ m)%Z.
Proof.
  intros m args w m' w' H0 HN Hb; unfold doMonteCarlo, bind, ret.
  destruct (mc_loop _ _ args w) as [m1 w1] eqn:Hl.
  intro H; inversion H; subst; clear H.
  destruct (save_sampling_frame m1) as [_ [_ [Ha _]]]; rewrite Ha.
  assert (Hs : MCsteps_ (seed_old_energy m args) = MCsteps_ m
               /\ MCaccept_ (seed_old_energy m args) = MCaccept_ m).
  { unfold seed_old_energy; destruct (MCfirst_ m =? -1)%Z; split; reflexivity. }
  destruct Hs as [Hs1 Hs2]; rewrite Hs1 in Hl.
  apply mc_loop_counter in Hl; rewrite Hs2, ?Z2Nat.id in *; lia.
Qed.

(** One call of [calculate], seen from the bookkeeping: [f] is the first
    step (already recorded, or this very step), [t] the step of the previous
    call ([f - 1] before the first call). *)
Lemma calculate_ratio : forall m args t' exchange w m' w' f t,
  (1 <= MCsteps_ m)%Z -> (1 <= MCstride_ m)%Z ->
  (0 <= f)%Z -> (f - 1 <= t < t')%Z ->
  MCfirst_ m = f \/ (MCfirst_ m = (-1)%Z /\ f = t') ->
  (0 <= MCaccept_ m
   <= MCsteps_ m * sampler_steps (MCstride_ m) f t)%Z ->
  (MCsteps_ m * sampler_steps (MCstride_ m) f t' < two32)%Z ->
  calculate m args t' exchange w = Some (m', w') ->
  MCfirst_ m' = f /\
  (0 <= MCaccept_ m'
   <= MCsteps_ m * sampler_steps (MCstride_ m) f t')%Z /\
  0 <= valueAccept m' <= 1.
Proof.
  intros m args t' exchange w m' w' f t HN Hs Hf Ht Hfirst Hacc Hb Hc.
  set (N := MCsteps_ m) in *; set (s := MCstride_ m) in *.
  assert (Hs0 : s <> 0%Z) by lia.
  destruct (calculate_accept m args t' exchange w Hs0)
    as [m'' [w'' [Hc' [HN' [Hs' [Hf' Ha']]]]]].
  rewrite Hc in Hc'; inversion Hc'; subst m'' w''; clear Hc'.
  destruct (calculate_sampled _ _ _ _ _ _ _ Hc)
    as [m1 [w1 [Hmc [_ [_ [_ [Hacc1 _]]]]]]].
  assert (Hfm : MCfirst_ m' = f).
  { rewrite Hf'; destruct Hfirst as [H1|[H1 H2]]; rewrite H1.
    - destruct (f =? -1)%Z eqn:E; [apply Z.eqb_eq in E; lia | reflexivity].
    - simpl; symmetry; exact H2. }
  assert (Hmono : (sampler_steps s f t <= sampler_steps s f t')%Z)
    by (apply sampler_steps_mono; lia).
  assert (Hbound : (0 <= MCaccept_ m' <= N * sampler_steps s f t')%Z).
  { rewrite Hacc1; unfold sampler_step in Hmc; fold s in Hmc.
    destruct ((Z.rem t' s =? 0)%Z && negb exchange) eqn:Erun.
    - apply andb_true_iff in Erun; destruct Erun as [Erem _].
      apply Z.eqb_eq in Erem.
      pose proof (div_step s t t' ltac:(lia) ltac:(lia) Erem) as Hstep.
      assert (Hinc : (sampler_steps s f t + 1 <= sampler_steps s f t')%Z)
        by (unfold sampler_steps; lia).
      assert (Hroom : (MCaccept_ m + N <= N * sampler_steps s f t')%Z) by nia.
      pose proof (doMonteCarlo_counter m args w m1 w1 ltac:(lia)
                    ltac:(fold N; lia) ltac:(fold N; lia) Hmc) as Hk.
      fold N in Hk; lia.
    - inversion Hmc; subst m1; nia. }
  split; [exact Hfm|]; split; [exact Hbound|].
  rewrite Ha', accept_real; unfold MCtrials; rewrite HN', Hs', Hfm.
  fold N; fold s.
  rewrite floor_div by lia.
  pose proof (sampler_steps_le_trials s f t' ltac:(lia) ltac:(lia)) as Htr.
  assert (Hq : (0 <= (t' - f) / s)%Z) by (apply Z.div_pos; lia).
  assert (HNr : 1 <= IZR N) by (apply IZR_le; lia).
  assert (Hqr : 0 <= IZR ((t' - f) / s)) by (apply IZR_le; lia).
  assert (Har : 0 <= IZR (MCaccept_ m')) by (apply IZR_le; lia).
  assert (Hle : IZR (MCaccept_ m') <= IZR N * (IZR ((t' - f) / s) + 1)).
  { rewrite <- (plus_IZR _ 1), <- mult_IZR; apply IZR_le; nia. }
  set (T := IZR ((t' - f) / s) + 1) in *.
  assert (HT : 0 < T) by (unfold T; lra).
  assert (HNT : 0 < IZR N * T) by (apply Rmult_lt_0_compat; lra).
  replace (IZR (MCaccept_ m') / IZR N / T)
    with (IZR (MCaccept_ m') / (IZR N * T)) by (field; lra).
  split.
  - apply Rmult_le_pos; [exact Har | apply Rlt_le, Rinv_0_lt_compat; exact HNT].
  - apply (Rmult_le_reg_r (IZR N * T)); [exact HNT|].
    unfold Rdiv; rewrite Rmult_assoc, Rinv_l by lra; lra.
Qed.

Lemma last_step_ge : forall steps t, increasing t steps -> (t <= last_step t steps)%Z.
Proof.
  induction steps as [|[[args step] exchange] rest IH]; intros t H; simpl.
  - lia.
  - destruct H as [Hlt Hinc]; specialize (IH step Hinc); lia.
Qed.

Lemma run_ratio : forall rest m w m' w' f t,
  (1 <= MCsteps_ m)%Z -> (1 <= MCstride_ m)%Z ->
  (0 <= f)%Z -> (f - 1 <= t)%Z -> MCfirst_ m = f ->
  (0 <= MCaccept_ m <= MCsteps_ m * sampler_steps (MCstride_ m) f t)%Z ->
  increasing t rest ->
  (MCsteps_ m * sampler_steps (MCstride_ m) f (last_step t rest) < two32)%Z ->
  0 <= valueAccept m <= 1 ->
  run m rest w = Some (m', w') ->
  0 <= valueAccept m' <= 1.
Proof.
  induction rest as [|[[args step] exchange] rest IH];
    intros m w m' w' f t HN Hs Hf Ht Hfirst Hacc Hinc Hb Hv; simpl.
  - intro H; inversion H; subst; exact Hv.
  - destruct (calculate m args step exchange w) as [[m1 w1]|] eqn:Hc;
      [|discriminate].
    intro Hrun.
    destruct Hinc as [Hlt Hinc].
    simpl in Hb.
    pose proof (last_step_ge rest step Hinc) as Hlast.
    pose proof (sampler_steps_mono (MCstride_ m) f step (last_step step rest)
                  ltac:(lia) Hlast) as Hmono.
    assert (Hb1 : (MCsteps_ m * sampler_steps (MCstride_ m) f step < two32)%Z)
      by nia.
    destruct (calculate_ratio m args step exchange w m1 w1 f t HN Hs Hf
                ltac:(lia) (or_introl Hfirst) Hacc Hb1 Hc)
      as [Hf1 [Hacc1 Hv1]].
    pose proof (calculate_frame _ _ _ _ _ _ _ Hc) as Hset.
    unfold same_setup in Hset.
    destruct Hset as [_ [_ [_ [_ [_ [_ [_ [_ [_ [_ [_ [_ [HN1 [Hs1 _]]]]]]]]]]]]]].
    apply (IH m1 w1 m' w' f step); rewrite ?HN1, ?Hs1; try assumption; lia.
Qed.

(** X18.  The published acceptance is a ratio: starting from a fresh object
    with [MC_STEPS >= 1] and a stride [>= 1], driven at strictly increasing
    nonnegative steps, with or without exchange steps and from any first
    step, every call leaves [0 <= accept <= 1], as long as the number of
    trials stays below the range of the 32-bit counter. *)
Theorem accept_between_0_and_1 : forall args0 f exchange0 rest m w m' w',
  MCaccept_ m = 0%Z -> MCfirst_ m = (-1)%Z ->
  (1 <= MCsteps_ m)%Z -> (1 <= MCstride_ m)%Z ->
  (0 <= f)%Z -> increasing f rest ->
  (MCsteps_ m * ((last_step f rest - f) / MCstride_ m + 1) < two32)%Z ->
  run m ((args0, f, exchange0) :: rest) w = Some (m', w') ->
  0 <= valueAccept m' <= 1.
Proof.
  intros args0 f exchange0 rest m w m' w' Ha Hfirst HN Hs Hf Hinc Hb; simpl.
  destruct (calculate m args0 f exchange0 w) as [[m1 w1]|] eqn:Hc;
    [|discriminate].
  intro Hrun.
  pose proof (last_step_ge rest f Hinc) as Hlast.
  pose proof (sampler_steps_le_trials (MCstride_ m) f (last_step f rest)
                ltac:(lia) Hlast) as Htr.
  assert (Hb' : (MCsteps_ m
                 * sampler_steps (MCstride_ m) f (last_step f rest)
                 < two32)%Z) by nia.
  pose proof (sampler_steps_mono (MCstride_ m) f f (last_step f rest)
                ltac:(lia) Hlast) as Hmono.
  assert (Hb1 : (MCsteps_ m * sampler_steps (MCstride_ m) f f < two32)%Z)
    by nia.
  assert (H0 : (0 <= MCaccept_ m
                <= MCsteps_ m * sampler_steps (MCstride_ m) f (f - 1))%Z).
  { rewrite Ha; unfold sampler_steps; nia. }
  destruct (calculate_ratio m args0 f exchange0 w m1 w1 f (f - 1) HN Hs Hf
              ltac:(lia) (or_intror (conj Hfirst eq_refl)) H0 Hb1 Hc)
    as [Hf1 [Hacc1 Hv1]].
  pose proof (calculate_frame _ _ _ _ _ _ _ Hc) as Hset.
  unfold same_setup in Hset.
  destruct Hset as [_ [_ [_ [_ [_ [_ [_ [_ [_ [_ [_ [_ [HN1 [Hs1 _]]]]]]]]]]]]]].
  apply (run_ratio rest m1 w1 m' w' f f); rewrite ?HN1, ?Hs1;
    try assumption; lia.
Qed.

Lemma accept_between_0_and_1_witness :
  exists m' w',
    run gauss_state [([0], 0%Z, false); ([0], 1%Z, false)] world_alone
      = Some (m', w') /\
    0 <= valueAccept m' <= 1.
Proof.
  destruct gauss_state_two_steps as [m' [w' Hrun]].
  exists m', w'; split; [exact Hrun|].
  refine (accept_between_0_and_1 [0] 0 false [([0], 1%Z, false)]
            gauss_state world_alone m' w' eq_refl eq_refl _ _ _ _ _ Hrun).
  - simpl; lia.
  - simpl; lia.
  - lia.
  - simpl; split; [lia | exact I].
  - unfold two32; simpl; lia.
Defined.

(** * Properties of the contributed function *)

Lemma contrib_new_Ok : forall o narg f,
  TestContribFunction.new o narg = Ok f ->
  let c := TestContribFunction.parseVector
             (TestContribFunction.COEFFICIENTS o) (repeat 1 narg) in
  let p := TestContribFunction.parseVector
             (TestContribFunction.POWERS o) (repeat 1 narg) in
  length c = narg /\ length p = narg /\
  f = TestContribFunction.mk (TestContribFunction.NORMALIZE o)
        (if TestContribFunction.NORMALIZE o
         then TestContribFunction.normalized c else c)
        p 0 (repeat 0 narg).
Proof.
  intros o narg f H; unfold TestContribFunction.new in H.
  apply bindR_Ok in H; destruct H as [u [Hc H]].
  apply bindR_Ok in H; destruct H as [u' [Hp H]].
  apply error_if_Ok in Hc; apply error_if_Ok in Hp.
  apply negb_false_iff, Nat.eqb_eq in Hc.
  apply negb_false_iff, Nat.eqb_eq in Hp.
  inversion H; subst f; cbv zeta; repeat split; assumption.
Qed.

Lemma normalized_length : forall c,
  length (TestContribFunction.normalized c) = length c.
Proof. intro c; unfold TestContribFunction.normalized; apply length_map. Qed.


Lemma fold_left_sum : forall (l : list R) (a : R),
  fold_left (fun n c => n + c) l a = a + fold_right Rplus 0 l.
Proof.
  induction l as [|c l IH]; intro a; simpl; [ring|].
  rewrite IH; ring.
Qed.

Lemma sum_map_scale : forall (l : list R) (k : R),
  fold_right Rplus 0 (map (fun c => c * k) l) = fold_right Rplus 0 l * k.
Proof.
  induction l as [|c l IH]; intro k; simpl; [ring|].
  rewrite IH; ring.
Qed.

(** X20.  NORMALIZE makes the coefficients sum to one, provided the given
    coefficients do not sum to zero. *)
Theorem contrib_normalized_sum : forall o narg f,
  TestContribFunction.NORMALIZE o = true ->
  fold_right Rplus 0
    (TestContribFunction.parseVector
       (TestContribFunction.COEFFICIENTS o) (repeat 1 narg)) <> 0 ->
  TestContribFunction.new o narg = Ok f ->
  fold_right Rplus 0 (TestContribFunction.coefficients f) = 1.
Proof.
  intros o narg f Hn Hsum H.
  apply contrib_new_Ok in H; cbv zeta in H.
  destruct H as [_ [_ Hf]]; subst f; simpl; rewrite Hn.
  unfold TestContribFunction.normalized.
  rewrite sum_map_scale, fold_left_sum, Rplus_0_l.
  field; exact Hsum.
Qed.

Lemma contrib_normalized_sum_witness :
  exists f,
    TestContribFunction.new (contrib_options true) 2 = Ok f /\
    fold_right Rplus 0 (TestContribFunction.coefficients f) = 1.
Proof.
  eexists; split; [reflexivity|].
  refine (contrib_normalized_sum (contrib_options true) 2 _ eq_refl _ eq_refl).
  simpl; lra.
Defined.

(** A loop that writes [g i] at every index [i < n] of a vector. *)
Lemma write_loop_length : forall (g : nat -> R) n dst,
  length (fold_left (fun vs i => upd vs i (g i)) (seq 0 n) dst) = length dst.
Proof.
  intros g n; induction n as [|n IH]; intro dst; [reflexivity|].
  rewrite seq_S, fold_left_app; simpl; rewrite upd_length; apply IH.
Qed.

Lemma write_loop_nth : forall (g : nat -> R) n dst j,
  (n <= length dst)%nat ->
  nth j (fold_left (fun vs i => upd vs i (g i)) (seq 0 n) dst) 0
  = if (j <? n)%nat then g j else nth j dst 0.
Proof.
  intros g n; induction n as [|n IH]; intros dst j Hn.
  - reflexivity.
  - rewrite seq_S, fold_left_app; simpl.
    rewrite nth_upd, write_loop_length, IH by lia.
    destruct (Nat.eqb_spec j n) as [->|Hne].
    + assert (Hlt : (n <? length dst)%nat = true) by (apply Nat.ltb_lt; lia).
      assert (Hs : (n <? S n)%nat = true) by (apply Nat.ltb_lt; lia).
      rewrite Hlt, Hs; reflexivity.
    + simpl.
      destruct (Nat.ltb_spec j n); destruct (Nat.ltb_spec j (S n));
        try reflexivity; lia.
Qed.

Lemma write_loop_all : forall (g : nat -> R) (dst : list R),
  fold_left (fun vs i => upd vs i (g i)) (seq 0 (length dst)) dst
  = map g (seq 0 (length dst)).
Proof.
  intros g dst.
  apply (nth_ext _ _ 0 0).
  - rewrite write_loop_length, length_map, length_seq; reflexivity.
  - intros j Hj; rewrite write_loop_length in Hj.
    rewrite write_loop_nth by lia.
    assert (Hlt : (j <? length dst)%nat = true) by (apply Nat.ltb_lt; exact Hj).
    rewrite Hlt, nth_map_seq by exact Hj; reflexivity.
Qed.

(** What [calculate] leaves in the value and in the derivatives when there
    is one derivative slot per coefficient. *)
Lemma contrib_calculate_result : forall pow f args,
  length (TestContribFunction.derivatives f)
    = length (TestContribFunction.coefficients f) ->
  let term i :=
    nth i (TestContribFunction.coefficients f) 0
    * pow (getArgument args i) (nth i (TestContribFunction.powers f) 0) in
  let derivative i :=
    nth i (TestContribFunction.coefficients f) 0
    * nth i (TestContribFunction.powers f) 0
    * pow (getArgument args i)
        (nth i (TestContribFunction.powers f) 0 - 1) in
  let n := length (TestContribFunction.coefficients f) in
  TestContribFunction.value (TestContribFunction.calculate pow f args)
    = fold_right Rplus 0 (map term (seq 0 n)) /\
  TestContribFunction.derivatives (TestContribFunction.calculate pow f args)
    = map derivative (seq 0 n).
Proof.
  intros pow f args Hlen; cbv zeta.
  unfold TestContribFunction.calculate; simpl; split.
  - rewrite fold_left_Rplus, Rplus_0_l; reflexivity.
  - rewrite <- Hlen; apply write_loop_all.
Qed.

Lemma Forall_nth_one : forall (p : list R) i,
  Forall (fun y => y = 1) p -> (i < length p)%nat -> nth i p 0 = 1.
Proof.
  intros p i Hall Hi.
  rewrite Forall_forall in Hall; apply Hall, nth_In; exact Hi.
Qed.

(** X21.  With every power equal to 1 the function is the linear
    combination of its arguments, and the derivatives it reports are the
    coefficients (for a [pow] with [pow(x,1) = x] and [pow(x,0) = 1]). *)
Theorem contrib_linear : forall pow f args,
  (forall x, pow x 1 = x) -> (forall x, pow x 0 = 1) ->
  Forall (fun y => y = 1) (TestContribFunction.powers f) ->
  length (TestContribFunction.powers f)
    = length (TestContribFunction.coefficients f) ->
  length (TestContribFunction.derivatives f)
    = length (TestContribFunction.coefficients f) ->
  length args = length (TestContribFunction.coefficients f) ->
  TestContribFunction.value (TestContribFunction.calculate pow f args)
    = fold_right Rplus 0
        (map (fun cx => fst cx * snd cx)
           (combine (TestContribFunction.coefficients f) args)) /\
  TestContribFunction.derivatives (TestContribFunction.calculate pow f args)
    = TestContribFunction.coefficients f.
Proof.
  intros pow f args Hp1 Hp0 Hall Hpl Hdl Hal.
  destruct (contrib_calculate_result pow f args Hdl) as [Hv Hd].
  rewrite Hv, Hd; split.
  - f_equal.
    rewrite <- (map_seq_pairs
                  (fun i => nth i (TestContribFunction.coefficients f) 0
                            * getArgument args i)
                  (fun cx => fst cx * snd cx)
                  (TestContribFunction.coefficients f) args Hal
                  (fun i => eq_refl)).
    apply map_ext_in; intros i Hi; apply in_seq in Hi.
    rewrite (Forall_nth_one _ i Hall) by lia.
    rewrite Hp1; reflexivity.
  - apply (nth_ext _ _ 0 0).
    + rewrite length_map, length_seq; reflexivity.
    + intros j Hj; rewrite length_map, length_seq in Hj.
      rewrite nth_map_seq by exact Hj.
      rewrite (Forall_nth_one _ j Hall) by lia.
      replace (1 - 1) with 0 by ring.
      rewrite Hp0; ring.
Qed.

Lemma pow_model_1 : forall x, pow_model x 1 = x.
Proof.
  intro x; unfold pow_model.
  destruct (Req_dec_T 1 0); [lra|].
  destruct (Req_dec_T 1 1); [reflexivity | lra].
Qed.

Lemma pow_model_0 : forall x, pow_model x 0 = 1.
Proof.
  intro x; unfold pow_model.
  destruct (Req_dec_T 0 0); [reflexivity | lra].
Qed.

Lemma contrib_linear_witness :
  exists f,
    TestContribFunction.new (contrib_options false) 2 = Ok f /\
    TestContribFunction.value
      (TestContribFunction.calculate pow_model f [5; 7])
      = fold_right Rplus 0
          (map (fun cx => fst cx * snd cx)
             (combine (TestContribFunction.coefficients f) [5; 7])) /\
    TestContribFunction.derivatives
      (TestContribFunction.calculate pow_model f [5; 7])
      = TestContribFunction.coefficients f.
Proof.
  eexists; split; [reflexivity|].
  apply contrib_linear;
    [exact pow_model_1 | exact pow_model_0 | simpl; repeat constructor
    | reflexivity | reflexivity | reflexivity].
Defined.

(** X22.  NORMALIZE rescales the function: the value and every derivative
    of the normalised object are those of the object built from the same
    keywords without NORMALIZE, divided by the sum of its coefficients. *)
Theorem contrib_normalize_rescales : forall pow c p narg f fn args,
  TestContribFunction.new (TestContribFunction.mkOptions c p false) narg
    = Ok f ->
  TestContribFunction.new (TestContribFunction.mkOptions c p true) narg
    = Ok fn ->
  fold_right Rplus 0 (TestContribFunction.coefficients f) <> 0 ->
  let n := fold_right Rplus 0 (TestContribFunction.coefficients f) in
  TestContribFunction.value (TestContribFunction.calculate pow fn args)
    = TestContribFunction.value (TestContribFunction.calculate pow f args)
      * (1 / n) /\
  TestContribFunction.derivatives (TestContribFunction.calculate pow fn args)
    = map (fun d => d * (1 / n))
        (TestContribFunction.derivatives
           (TestContribFunction.calculate pow f args)).
Proof.
  intros pow c p narg f fn args Hf Hfn _.
  apply contrib_new_Ok in Hf; apply contrib_new_Ok in Hfn.
  cbv zeta in Hf, Hfn; simpl in Hf, Hfn.
  destruct Hf as [Hc [Hp Hf]], Hfn as [_ [_ Hfn]].
  set (cs := TestContribFunction.parseVector c (repeat 1 narg)) in *.
  set (ps := TestContribFunction.parseVector p (repeat 1 narg)) in *.
  assert (Hdf : length (TestContribFunction.derivatives f)
                = length (TestContribFunction.coefficients f)).
  { subst f; simpl; rewrite repeat_length, Hc; reflexivity. }
  assert (Hdn : length (TestContribFunction.derivatives fn)
                = length (TestContribFunction.coefficients fn)).
  { subst fn; simpl; rewrite repeat_length, normalized_length, Hc.
    reflexivity. }
  destruct (contrib_calculate_result pow f args Hdf) as [Hv Hd].
  destruct (contrib_calculate_result pow fn args Hdn) as [Hvn Hdn'].
  cbv zeta; rewrite Hv, Hd, Hvn, Hdn'.
  subst f fn; simpl; rewrite normalized_length.
  unfold TestContribFunction.normalized.
  rewrite fold_left_sum, Rplus_0_l.
  set (k := 1 / fold_right Rplus 0 cs).
  assert (Hnth : forall i, (i < length cs)%nat ->
            nth i (map (fun c0 => c0 * k) cs) 0 = nth i cs 0 * k).
  { intros i Hi; apply (nth_map_inside (fun c0 => c0 * k)); exact Hi. }
  split.
  - rewrite <- sum_map_scale, map_map; f_equal.
    apply map_ext_in; intros i Hi; apply in_seq in Hi.
    rewrite Hnth by lia; ring.
  - rewrite map_map.
    apply map_ext_in; intros i Hi; apply in_seq in Hi.
    rewrite Hnth by lia; ring.
Qed.

Lemma contrib_normalize_rescales_witness :
  exists f fn,
    TestContribFunction.new (contrib_options false) 2 = Ok f /\
    TestContribFunction.new (contrib_options true) 2 = Ok fn /\
    let n := fold_right Rplus 0 (TestContribFunction.coefficients f) in
    TestContribFunction.value
      (TestContribFunction.calculate pow_model fn [5; 7])
      = TestContribFunction.value
          (TestContribFunction.calculate pow_model f [5; 7]) * (1 / n) /\
    TestContribFunction.derivatives
      (TestContribFunction.calculate pow_model fn [5; 7])
      = map (fun d => d * (1 / n))
          (TestContribFunction.derivatives
             (TestContribFunction.calculate pow_model f [5; 7])).
Proof.
  eexists; eexists; split; [reflexivity|]; split; [reflexivity|].
  refine (contrib_normalize_rescales pow_model (Some [1; 3]) None 2 _ _ [5; 7]
            eq_refl eq_refl _).
  simpl; lra.
Defined.

(** ** The forces as the gradient of the bias *)

Lemma derivable_pt_lim_eq : forall (f g : R -> R) x l,
  (forall y, f y = g y) -> derivable_pt_lim f x l -> derivable_pt_lim g x l.
Proof.
  intros f g x l Hfg Hf eps Heps.
  destruct (Hf eps Heps) as [delta Hd].
  exists delta; intros h Hh Hlt.
  rewrite <- !Hfg; apply Hd; assumption.
Qed.

Lemma quadratic_derivative : forall a b c p x0,
  derivable_pt_lim (fun x => a + b * ((c * x - p) * (c * x - p))) x0
    (b * (2 * c * (c * x0 - p))).
Proof.
  intros a b c p x0.
  pose proof (derivable_pt_lim_id x0) as Hid.
  pose proof (derivable_pt_lim_scal id c x0 1 Hid) as Hcx.
  pose proof (derivable_pt_lim_const p x0) as Hp.
  pose proof (derivable_pt_lim_minus _ _ x0 _ _ Hcx Hp) as Hlin.
  pose proof (derivable_pt_lim_mult _ _ x0 _ _ Hlin Hlin) as Hsq.
  pose proof (derivable_pt_lim_scal _ b x0 _ Hsq) as Hb.
  pose proof (derivable_pt_lim_const a x0) as Ha.
  pose proof (derivable_pt_lim_plus _ _ x0 _ _ Ha Hb) as Hall.
  replace (b * (2 * c * (c * x0 - p)))
    with (0 + b * ((c * 1 - 0) * (mult_real_fct c id - fct_cte p)%F x0
                   + (mult_real_fct c id - fct_cte p)%F x0 * (c * 1 - 0))).
  - eapply derivable_pt_lim_eq; [|exact Hall].
    intro y; reflexivity.
  - unfold minus_fct, mult_real_fct, fct_cte, id; ring.
Qed.

(** A sum over the arguments in which only the term of argument [i]
    changes. *)
Lemma sum_one_term : forall (f f0 : nat -> R) i n,
  (forall j, j <> i -> f j = f0 j) ->
  fold_right Rplus 0 (map f (seq 0 n))
  = fold_right Rplus 0 (map f0 (seq 0 n))
    + (if (i <? n)%nat then f i - f0 i else 0).
Proof.
  intros f f0 i n Hother; induction n as [|n IH].
  - simpl; ring.
  - rewrite seq_S, !map_app, !fold_right_app; simpl.
    assert (Hsplit : forall (g : nat -> R) (a : R) l,
              fold_right Rplus a (map g l) = fold_right Rplus 0 (map g l) + a).
    { intros g a l; induction l as [|y l IHl]; simpl; [ring|].
      rewrite IHl; ring. }
    rewrite (Hsplit f), (Hsplit f0), IH.
    destruct (Nat.eq_dec n i) as [->|Hne].
    + assert (H1 : (i <? i)%nat = false) by (apply Nat.ltb_ge; lia).
      assert (H2 : (i <? S i)%nat = true) by (apply Nat.ltb_lt; lia).
      rewrite H1, H2; ring.
    + rewrite (Hother n Hne).
      destruct (Nat.ltb_spec i n); destruct (Nat.ltb_spec i (S n));
        try lia; ring.
Qed.

Lemma nth_upd_same : forall (l : list R) i x,
  (i < length l)%nat -> nth i (upd l i x) 0 = x.
Proof.
  intros l i x Hi; rewrite nth_upd, Nat.eqb_refl.
  apply Nat.ltb_lt in Hi; rewrite Hi; reflexivity.
Qed.

Lemma nth_upd_other : forall (l : list R) i j x,
  j <> i -> nth j (upd l i x) 0 = nth j l 0.
Proof.
  intros l i j x Hne; rewrite nth_upd.
  apply Nat.eqb_neq in Hne; rewrite Hne; reflexivity.
Qed.

(** A sum over the arguments, as a function of argument [i] alone. *)
Lemma sum_in_one_argument : forall (g : nat -> R -> R) args i x,
  (i < length args)%nat ->
  fold_right Rplus 0
    (map (fun j => g j (getArgument (upd args i x) j))
       (seq 0 (length (upd args i x))))
  = fold_right Rplus 0
      (map (fun j => g j (getArgument args j)) (seq 0 (length args)))
    + (g i x - g i (getArgument args i)).
Proof.
  intros g args i x Hi; rewrite upd_length.
  rewrite (sum_one_term (fun j => g j (getArgument (upd args i x) j))
             (fun j => g j (getArgument args j)) i).
  - apply Nat.ltb_lt in Hi; rewrite Hi.
    unfold getArgument; rewrite nth_upd_same by (apply Nat.ltb_lt; exact Hi).
    reflexivity.
  - intros j Hne; unfold getArgument; rewrite nth_upd_other by exact Hne.
    reflexivity.
Qed.

(** A function that is a constant plus [k] times a differentiable one. *)
Lemma affine_derivative : forall (g : R -> R) c k x0 l,
  derivable_pt_lim g x0 l ->
  derivable_pt_lim (fun x => k * (c + (g x - g x0))) x0 (k * l).
Proof.
  intros g c k x0 l Hg.
  pose proof (derivable_pt_lim_const (c - g x0) x0) as Hc.
  pose proof (derivable_pt_lim_plus _ _ x0 _ _ Hc Hg) as Hs.
  pose proof (derivable_pt_lim_scal _ k x0 _ Hs) as Hk.
  replace (k * l) with (k * (0 + l)) by ring.
  eapply derivable_pt_lim_eq; [|exact Hk].
  intro y; unfold mult_real_fct, plus_fct, fct_cte; ring.
Qed.

Lemma sized_upd : forall m args i x, sized m args -> sized m (upd args i x).
Proof.
  intros m args i x H; unfold sized in *; rewrite upd_length; exact H.
Qed.

(** The GJE energy of one rank and one replica, as a sum of one term per
    argument. *)
Lemma getEnergyForceGJE_alone_sum : forall m args w,
  alone_in w -> sized m args ->
  fst (fst (getEnergyForceGJE m args w))
  = fold_right Rplus 0
      (map (fun j =>
              0.5 * ((scale_ m * getArgument args j - nth j (parameters m) 0)
                     * (scale_ m * getArgument args j
                        - nth j (parameters m) 0))
              * / variance m j
              + ln (variance m j * sqrt2pi))
         (seq 0 (length args))).
Proof.
  intros m args w Hw Hsz.
  rewrite (proj1 (getEnergyForceGJE_alone m args w Hw)); cbn [fst].
  rewrite fold_left_Rplus, Rplus_0_l; f_equal.
  apply map_ext_in; intros j Hj; apply in_seq in Hj.
  assert (Hsel := sel_sigma_inside m args j Hsz (proj2 Hj)).
  rewrite nth_map_inside by (rewrite length_map; exact Hsel).
  rewrite nth_map_inside by exact Hsel.
  unfold variance, Rdiv; ring.
Qed.

(** X23.  For the Gaussian variants, with one rank and one replica, the
    force written for argument [i] is minus the derivative of the bias
    (kT times the energy) with respect to that argument, the other
    arguments being held fixed. *)
Theorem GJE_force_is_minus_gradient : forall m args w i,
  alone_in w -> sized m args -> (i < length args)%nat ->
  derivable_pt_lim
    (fun x => kbt_ m * fst (fst (getEnergyForceGJE m (upd args i x) w)))
    (getArgument args i)
    (- nth i (outputForces (snd (fst (getEnergyForceGJE m args w)))) 0).
Proof.
  intros m args w i Hw Hsz Hi.
  rewrite (getEnergyForceGJE_alone_forces m args w Hw Hsz).
  rewrite nth_map_seq by exact Hi.
  set (g := fun (j : nat) (x : R) =>
              0.5 * ((scale_ m * x - nth j (parameters m) 0)
                     * (scale_ m * x - nth j (parameters m) 0))
              * / variance m j
              + ln (variance m j * sqrt2pi)).
  set (S0 := fold_right Rplus 0
               (map (fun j => g j (getArgument args j))
                  (seq 0 (length args)))).
  apply (derivable_pt_lim_eq
           (fun x => kbt_ m * (S0 + (g i x - g i (getArgument args i))))).
  - intro x.
    rewrite (getEnergyForceGJE_alone_sum m (upd args i x) w Hw
               (sized_upd m args i x Hsz)).
    unfold S0; rewrite <- (sum_in_one_argument g args i x Hi); reflexivity.
  - replace (- (- kbt_ m * scale_ m * deviation m args i / variance m i))
      with (kbt_ m
            * ((0.5 * / variance m i)
               * (2 * scale_ m
                  * (scale_ m * getArgument args i
                     - nth i (parameters m) 0))))
      by (unfold deviation, Rdiv; generalize (/ variance m i); intro iv;
          replace 0.5 with (/ 2) by lra; field).
    apply affine_derivative.
    apply (derivable_pt_lim_eq
             (fun x => ln (variance m i * sqrt2pi)
                       + (0.5 * / variance m i)
                         * ((scale_ m * x - nth i (parameters m) 0)
                            * (scale_ m * x - nth i (parameters m) 0)))).
    + intro x; unfold g; ring.
    + apply quadratic_derivative.
Qed.

Lemma GJE_force_is_minus_gradient_witness :
  derivable_pt_lim
    (fun x => kbt_ gauss_state
              * fst (fst (getEnergyForceGJE gauss_state (upd [3] 0 x)
                            world_alone)))
    (getArgument [3] 0)
    (- nth 0 (outputForces
                (snd (fst (getEnergyForceGJE gauss_state [3] world_alone))))
         0).
Proof.
  refine (GJE_force_is_minus_gradient gauss_state [3] world_alone 0
            world_alone_alone gauss_state_sized _).
  simpl; lia.
Defined.

Lemma ltail_term_derivative : forall sm2 y,
  0 < sm2 -> 0 < y ->
  derivable_pt_lim (fun y => ln (2 * y * (1 / (1 - exp (- y / sm2))))) y
    (1 / (1 - exp (y / sm2)) / sm2 + 1 / y).
Proof.
  intros sm2 y Hsm Hy.
  set (E := exp (- (y / sm2))).
  assert (HE0 : 0 < E) by apply exp_pos.
  assert (HE1 : E < 1).
  { apply exp_neg_lt_1; apply Rmult_lt_0_compat;
      [lra | apply Rinv_0_lt_compat; lra]. }
  assert (Hinv : exp (y / sm2) = / E).
  { unfold E; rewrite exp_Ropp, Rinv_inv; reflexivity. }
  pose proof (derivable_pt_lim_scal id 2 y 1 (derivable_pt_lim_id y)) as Hnum.
  pose proof (derivable_pt_lim_scal id (- / sm2) y 1 (derivable_pt_lim_id y))
    as Hlin.
  pose proof (derivable_pt_lim_comp _ exp y _ _ Hlin
                (derivable_pt_lim_exp _)) as Hexp.
  pose proof (derivable_pt_lim_minus _ _ y _ _
                (derivable_pt_lim_const 1 y) Hexp) as Hden.
  assert (Harg : mult_real_fct (- / sm2) id y = - (y / sm2)).
  { unfold mult_real_fct, id, Rdiv; ring. }
  assert (Hden0 : (fct_cte 1 - comp exp (mult_real_fct (- / sm2) id))%F y
                  <> 0).
  { unfold minus_fct, fct_cte, comp; rewrite Harg; fold E; lra. }
  pose proof (derivable_pt_lim_div _ _ y _ _ Hnum Hden Hden0) as Hu.
  assert (Hupos : 0 < (mult_real_fct 2 id
                       / (fct_cte 1
                          - comp exp (mult_real_fct (- / sm2) id)))%F y).
  { unfold div_fct, minus_fct, fct_cte, comp; rewrite Harg; fold E.
    unfold mult_real_fct, id.
    apply Rmult_lt_0_compat; [lra | apply Rinv_0_lt_compat; lra]. }
  pose proof (derivable_pt_lim_comp _ ln y _ _ Hu
                (derivable_pt_lim_ln _ Hupos)) as Hln.
  match type of Hln with
  | derivable_pt_lim _ _ ?l =>
      replace (1 / (1 - exp (y / sm2)) / sm2 + 1 / y) with l
  end.
  - eapply derivable_pt_lim_eq; [|exact Hln].
    intro z; unfold comp, div_fct, minus_fct, fct_cte, mult_real_fct, id.
    f_equal.
    replace (- / sm2 * z) with (- z / sm2) by (unfold Rdiv; ring).
    unfold Rdiv; ring.
  - unfold div_fct, minus_fct, fct_cte, comp; rewrite Harg; fold E.
    unfold mult_real_fct, id, Rsqr; rewrite Hinv.
    field; repeat split; lra.
Qed.

(** The SPE energy of one rank and one replica, as a sum of one term per
    argument plus the correction. *)
Lemma getEnergyForceSPE_alone_sum : forall m args w,
  alone_in w ->
  let s2 := nth 0 (sigma_ m) 0 * nth 0 (sigma_ m) 0
            + sigma_mean_ m * sigma_mean_ m in
  fst (fst (getEnergyForceSPE m args w))
  = fold_right Rplus 0
      (map (fun j =>
              ln (2 * (s2 + 0.5 * ((scale_ m * getArgument args j
                                    - nth j (parameters m) 0)
                                   * (scale_ m * getArgument args j
                                      - nth j (parameters m) 0)))
                  * (1 / (1 - exp (- (s2 + 0.5 * ((scale_ m
                                                   * getArgument args j
                                                   - nth j (parameters m) 0)
                                                  * (scale_ m
                                                     * getArgument args j
                                                     - nth j (parameters m) 0)))
                                   / (sigma_mean_ m * sigma_mean_ m))))))
         (seq 0 (length args)))
    + (ln (sqrt s2) - IZR (ndata_ m) * ln (sqrt2_div_pi * sqrt s2)).
Proof.
  intros m args w Hw s2.
  unfold getEnergyForceSPE, bind, ret, comm_Get_rank.
  destruct Hw as [Hr Hrest]; rewrite Hr.
  change (0 =? 0)%nat with true; cbv beta iota.
  assert (Hw : alone_in w) by (split; assumption).
  repeat run_alone.
  cbn [fst snd]; fold s2.
  rewrite fold_left_Rplus, Rplus_0_l.
  assert (Hss : sqrt s2 * sqrt s2 = s2).
  { apply sqrt_sqrt; unfold s2.
    assert (0 <= nth 0 (sigma_ m) 0 * nth 0 (sigma_ m) 0) by nra.
    assert (0 <= sigma_mean_ m * sigma_mean_ m) by nra.
    lra. }
  rewrite Hss; f_equal; f_equal.
  apply map_ext; intro j.
  replace (0.5 * (scale_ m * getArgument args j - nth j (parameters m) 0)
           * (scale_ m * getArgument args j - nth j (parameters m) 0) + s2)
    with (s2 + 0.5 * ((scale_ m * getArgument args j
                       - nth j (parameters m) 0)
                      * (scale_ m * getArgument args j
                         - nth j (parameters m) 0))) by ring.
  reflexivity.
Qed.

(** X24.  For the long-tailed variant with a nonzero [sigma_mean], with one
    rank and one replica, the force written for argument [i] is minus the
    derivative of the bias (kT times the energy) with respect to that
    argument, the other arguments being held fixed. *)
Theorem SPE_force_is_minus_gradient : forall m args w i,
  alone_in w -> sigma_mean_ m <> 0 -> (i < length args)%nat ->
  derivable_pt_lim
    (fun x => kbt_ m * fst (fst (getEnergyForceSPE m (upd args i x) w)))
    (getArgument args i)
    (- nth i (outputForces (snd (fst (getEnergyForceSPE m args w)))) 0).
Proof.
  intros m args w i Hw Hsm Hi.
  rewrite (getEnergyForceSPE_alone_forces m args w Hw).
  rewrite nth_map_seq by exact Hi.
  set (sm2 := sigma_mean_ m * sigma_mean_ m).
  set (s2 := nth 0 (sigma_ m) 0 * nth 0 (sigma_ m) 0 + sm2).
  assert (Hsm2 : 0 < sm2) by (unfold sm2; nra).
  assert (Hs2 : 0 < s2).
  { unfold s2; assert (0 <= nth 0 (sigma_ m) 0 * nth 0 (sigma_ m) 0) by nra.
    lra. }
  set (a2 := fun (j : nat) (x : R) =>
               s2 + 0.5 * ((scale_ m * x - nth j (parameters m) 0)
                           * (scale_ m * x - nth j (parameters m) 0))).
  set (g := fun (j : nat) (x : R) =>
              ln (2 * a2 j x * (1 / (1 - exp (- a2 j x / sm2))))).
  set (S0 := fold_right Rplus 0
               (map (fun j => g j (getArgument args j))
                  (seq 0 (length args)))).
  set (prior := ln (sqrt s2) - IZR (ndata_ m) * ln (sqrt2_div_pi * sqrt s2)).
  assert (Ha2 : ltail_a2 m args i = a2 i (getArgument args i)).
  { unfold ltail_a2, a2, deviation, s2, sm2; ring. }
  assert (Ha2pos : 0 < a2 i (getArgument args i)).
  { unfold a2.
    pose proof (Rle_0_sqr (scale_ m * getArgument args i
                           - nth i (parameters m) 0)) as Hsq.
    unfold Rsqr in Hsq; lra. }
  apply (derivable_pt_lim_eq
           (fun x => kbt_ m * ((S0 + prior)
                               + (g i x - g i (getArgument args i))))).
  - intro x.
    rewrite (getEnergyForceSPE_alone_sum m (upd args i x) w Hw).
    cbv zeta; fold sm2; fold s2; fold prior.
    pose proof (sum_in_one_argument g args i x Hi) as Hsum.
    fold S0 in Hsum; unfold g, a2 in Hsum.
    rewrite Hsum; unfold g, a2; ring.
  - fold sm2; rewrite Ha2.
    set (y0 := a2 i (getArgument args i)) in *.
    replace (- (- kbt_ m * scale_ m * deviation m args i
                * (1 / (1 - exp (y0 / sm2)) / sm2 + 1 / y0)))
      with (kbt_ m
            * ((1 / (1 - exp (y0 / sm2)) / sm2 + 1 / y0)
               * (0.5 * (2 * scale_ m
                         * (scale_ m * getArgument args i
                            - nth i (parameters m) 0)))))
      by (unfold deviation;
          generalize (1 / (1 - exp (y0 / sm2)) / sm2 + 1 / y0); intro q;
          replace 0.5 with (/ 2) by lra; field).
    apply affine_derivative.
    apply (derivable_pt_lim_comp (a2 i)
             (fun y => ln (2 * y * (1 / (1 - exp (- y / sm2)))))).
    + apply quadratic_derivative.
    + fold y0; apply ltail_term_derivative; assumption.
Qed.

Lemma SPE_force_is_minus_gradient_witness :
  derivable_pt_lim
    (fun x => kbt_ ltail_state
              * fst (fst (getEnergyForceSPE ltail_state (upd [3] 0 x)
                            world_alone)))
    (getArgument [3] 0)
    (- nth 0 (outputForces
                (snd (fst (getEnergyForceSPE ltail_state [3] world_alone))))
         0).
Proof.
  refine (SPE_force_is_minus_gradient ltail_state [3] world_alone 0
            world_alone_alone _ _).
  - simpl; lra.
  - simpl; lia.
Defined.

(** ** The contributed function: derivatives *)

(** A derivative depends only on the function near the point. *)
Lemma derivable_pt_lim_near : forall (f g : R -> R) x l d,
  0 < d ->
  (forall y, Rabs (y - x) < d -> f y = g y) ->
  derivable_pt_lim f x l -> derivable_pt_lim g x l.
Proof.
  intros f g x l d Hd Hfg Hf eps Heps.
  destruct (Hf eps Heps) as [delta Hdel].
  assert (Hmin : 0 < Rmin delta d)
    by (apply Rmin_pos; [apply cond_pos | exact Hd]).
  exists (mkposreal _ Hmin); intros h Hh Hlt; simpl in Hlt.
  rewrite <- (Hfg (x + h)), <- (Hfg x).
  - apply Hdel; [exact Hh|].
    eapply Rlt_le_trans; [exact Hlt | apply Rmin_l].
  - replace (x - x) with 0 by ring; rewrite Rabs_R0; exact Hd.
  - replace (x + h - x) with h by ring.
    eapply Rlt_le_trans; [exact Hlt | apply Rmin_r].
Qed.

Lemma pow_model_pos : forall x y, 0 < x -> pow_model x y = Rpower x y.
Proof.
  intros x y Hx; unfold pow_model.
  destruct (Req_dec_T y 0) as [-> | _];
    [symmetry; apply Rpower_O; exact Hx|].
  destruct (Req_dec_T y 1) as [-> | _];
    [symmetry; apply Rpower_1; exact Hx | reflexivity].
Qed.

(** X25.  At a positive argument the derivative [calculate] reports for
    argument [i] is the derivative of the value it reports with respect to
    that argument, the other arguments being held fixed (for a [pow] that is
    [exp(y ln x)] on positive bases, whatever it does elsewhere). *)
Theorem contrib_derivative_is_gradient : forall pow f args i,
  (forall x y, 0 < x -> pow x y = Rpower x y) ->
  length (TestContribFunction.derivatives f)
    = length (TestContribFunction.coefficients f) ->
  length args = length (TestContribFunction.coefficients f) ->
  (i < length args)%nat ->
  0 < getArgument args i ->
  derivable_pt_lim
    (fun x => TestContribFunction.value
                (TestContribFunction.calculate pow f (upd args i x)))
    (getArgument args i)
    (nth i (TestContribFunction.derivatives
              (TestContribFunction.calculate pow f args)) 0).
Proof.
  intros pow f args i Hpow Hder Hargs Hi Hpos.
  destruct (contrib_calculate_result pow f args Hder) as [_ Hd].
  cbv zeta in Hd; rewrite Hd; clear Hd.
  rewrite nth_map_seq by (rewrite <- Hargs; exact Hi).
  set (c := nth i (TestContribFunction.coefficients f) 0).
  set (p := nth i (TestContribFunction.powers f) 0).
  set (x0 := getArgument args i) in *.
  rewrite (Hpow x0 (p - 1) Hpos).
  set (g := fun (j : nat) (y : R) =>
              nth j (TestContribFunction.coefficients f) 0
              * pow y (nth j (TestContribFunction.powers f) 0)).
  set (S0 := fold_right Rplus 0
               (map (fun j => g j (getArgument args j))
                  (seq 0 (length args)))).
  apply (derivable_pt_lim_near
           (fun x => 1 * (S0 + (c * Rpower x p - c * Rpower x0 p)))
           _ x0 _ x0 Hpos).
  - intros y Hy.
    assert (Hypos : 0 < y).
    { apply Rabs_def2 in Hy; lra. }
    destruct (contrib_calculate_result pow f (upd args i y) Hder) as [Hv _].
    cbv zeta in Hv; rewrite Hv; clear Hv.
    pose proof (sum_in_one_argument g args i y Hi) as Hsum.
    rewrite upd_length, Hargs in Hsum.
    unfold g at 1 in Hsum; rewrite Hsum.
    unfold S0, g; fold c; fold p; fold x0.
    rewrite Hargs, (Hpow y p Hypos), (Hpow x0 p Hpos); ring.
  - replace (c * p * Rpower x0 (p - 1))
      with (1 * (c * (p * Rpower x0 (p - 1)))) by ring.
    apply (affine_derivative (fun x => c * Rpower x p)).
    apply (derivable_pt_lim_scal (fun x => Rpower x p) c x0).
    apply derivable_pt_lim_power; exact Hpos.
Qed.

Lemma contrib_derivative_is_gradient_witness :
  exists f,
    TestContribFunction.new (contrib_options true) 2 = Ok f /\
    derivable_pt_lim
      (fun x => TestContribFunction.value
                  (TestContribFunction.calculate pow_model f
                     (upd [5; 7] 1 x)))
      (getArgument [5; 7] 1)
      (nth 1 (TestContribFunction.derivatives
                (TestContribFunction.calculate pow_model f [5; 7])) 0).
Proof.
  eexists; split; [reflexivity|].
  apply contrib_derivative_is_gradient;
    [exact pow_model_pos | reflexivity | reflexivity | simpl; lia
    | change (0 < 7); lra].
Defined.

(** ** The two Gaussian variants *)

(** X26.  MGAUSS with the same sigma for every data point has the energy of
    GAUSS with that sigma: for two objects that differ in the noise type
    only, [getEnergyGJE] on the replicated sigma vector equals [getEnergyGJE]
    on the single sigma, for any arguments and scale. *)
Theorem MGAUSS_equal_sigmas_is_GAUSS : forall mg mm args v scale,
  noise_type_ mg = GAUSS -> noise_type_ mm = MGAUSS ->
  parameters mm = parameters mg ->
  sigma_mean_ mm = sigma_mean_ mg ->
  kbt_ mm = kbt_ mg ->
  getEnergyGJE mm args (repeat v (length args)) scale
  = getEnergyGJE mg args [v] scale.
Proof.
  intros mg mm args v scale Hg Hm Hp Hs Hk.
  unfold getEnergyGJE.
  rewrite Hg, Hm, Hp, Hs, Hk; cbn [noise_eqb].
  rewrite !fold_left_Rplus.
  do 3 f_equal.
  apply map_ext_in; intros i Hin.
  apply in_seq in Hin.
  rewrite nth_repeat_lt by lia.
  reflexivity.
Qed.

Lemma MGAUSS_equal_sigmas_is_GAUSS_witness :
  getEnergyGJE mgauss_pair [3; 4] (repeat 1 (length [3; 4])) 1
  = getEnergyGJE gauss_pair [3; 4] [1] 1.
Proof.
  apply MGAUSS_equal_sigmas_is_GAUSS; reflexivity.
Defined.

(** ** One inner step of the sampler *)













(** [MC_STEPS = 0] at work: the call returns and the double it publishes as
    [accept] is [0.0/0.0]. *)
Lemma idle_state_accept_is_NaN :
  exists m' w',
    calculate idle_state [0] 4 false world_alone = Some (m', w') /\
    accept_quotient m' 4 = NaN.
Proof.
  assert (Hs : MCstride_ idle_state <> 0%Z) by discriminate.
  destruct (calculate_accept idle_state [0] 4 false world_alone Hs)
    as [m' [w' [Hc [Hsteps _]]]].
  exists m', w'; split; [exact Hc|].
  destruct (calculate_sampled _ _ _ _ _ _ _ Hc)
    as [m1 [w1 [Hmc [_ [_ [_ [Hacc _]]]]]]].
  change (sampler_step idle_state 4 false) with true in Hmc.
  apply doMonteCarlo_counter in Hmc;
    [|simpl; lia | simpl; lia | unfold two32; simpl; lia].
  apply accept_quotient_NaN; [rewrite Hsteps; reflexivity|].
  rewrite Hacc; simpl in Hmc; lia.
Qed.
